(** * manga-mapper: the title matcher and the page-extraction pipelines

    A shallow embedding of the parts of the repository that decide how a
    catalogue title is matched against scraped listings
    ([src/providers/mapper.js] and its later revision) and how the providers
    recover chapter lists and page images from a fetched document
    ([src/providers/mangapark.js], the MangaBuddy and MangaKakalot
    providers), followed by the properties proved about them. *)

From Stdlib Require Import List Arith Lia NArith ZArith QArith Qreduction Qabs Qround String Ascii.
From stdpp Require Import base list.
Import ListNotations.

(** ** JavaScript values used by the code *)

(** A JavaScript string is a sequence of UTF-16 code units; [length] is the
    number of code units, as [String.prototype.length] is. *)
Abbreviation jsstring := (list N).

(** String literals of the source are ASCII; [js] embeds them. *)
Definition js (s : string) : jsstring :=
  map N_of_ascii (list_ascii_of_string s).

Definition jsstring_eqb (a b : jsstring) : bool := bool_decide (a = b).

(** [String.prototype.toLowerCase] is a built-in driven by the Unicode
    tables.  The development is parametric in it: every definition that
    lower-cases takes the mapping as its first argument and every universal
    theorem holds for any mapping.  Concrete evaluations use the mapping
    below, which agrees with the built-in on the code units it lists: the
    Basic Latin and Latin-1 capitals go to their small letters, and U+0130
    (LATIN CAPITAL LETTER I WITH DOT ABOVE) goes to the two code units
    U+0069 U+0307, as SpecialCasing.txt prescribes.  Other code units are
    left as they are. *)
Definition lower_code_unit (c : N) : jsstring :=
  if ((65 <=? c) && (c <=? 90))%N then [(c + 32)%N]
  else if ((192 <=? c) && (c <=? 222) && negb (c =? 215))%N then [(c + 32)%N]
  else if (c =? 304)%N then [105%N; 775%N]
  else [c].

Definition toLowerCase_latin (s : jsstring) : jsstring :=
  flat_map lower_code_unit s.

(** Errors thrown by the code, with the [name] and [message] properties of
    the JavaScript error objects. *)
Inductive js_error : Type :=
| Error (message : jsstring)
| TypeError (message : jsstring)
| RangeError (message : jsstring).

Definition error_name (e : js_error) : string :=
  match e with
  | Error _ => "Error"
  | TypeError _ => "TypeError"
  | RangeError _ => "RangeError"
  end.

Definition error_message (e : js_error) : jsstring :=
  match e with
  | Error m | TypeError m | RangeError m => m
  end.

(** The outcome of a call: a returned value or a thrown error. *)
Inductive completion (A : Type) : Type :=
| Return (a : A)
| Throw (e : js_error).
Arguments Return {A} a.
Arguments Throw {A} e.

(** [for (let i = start; ...; i++)] running [count] times. *)
Fixpoint for_up {St : Type} (count : nat) (i : nat) (body : nat -> St -> St) (st : St) : St :=
  match count with
  | O => st
  | S c => for_up c (S i) body (body i st)
  end.

(** [a[j] = v] on an array of numbers: an index inside the array overwrites,
    the index [a.length] extends the array by one element (the only
    out-of-range write the code performs). *)
Definition array_set (a : list nat) (j : nat) (v : nat) : list nat :=
  if decide (j < length a)%nat then <[j:=v]> a else a ++ [v].

(** [s.charAt(i)]: the one-unit string at [i], the empty string out of range. *)
Definition charAt (s : jsstring) (i : nat) : jsstring :=
  match s !! i with
  | Some c => [c]
  | None => []
  end.

(** Numbers that are quotients of string lengths are modelled as exact
    rationals, kept in lowest terms so that equal numbers are equal terms.
    For strings shorter than 2^26 code units the double-precision quotient
    and the comparisons against the literals 0.3 and 0.4 order exactly as
    the rationals do. *)
Definition Qltb (x y : Q) : bool := (Qnum x * QDen y <? Qnum y * QDen x)%Z.

(** ** The similarity scorer and the match selector (class [Mapper]) *)

Record ListingCandidate : Type := mkCandidate {
  id : jsstring;
  title : jsstring
}.

Module Mapper.
Section WithBuiltins.

Variable toLowerCase : jsstring -> jsstring.

(** [editDistance(s1, s2)], src/providers/mapper.js lines 31-53. The pair
    threaded through the inner loop is [(costs, lastValue)]. *)
Definition inner_body (s1 s2 : jsstring) (i j : nat) (st : list nat * nat) : list nat * nat :=
  let '(costs, lastValue) := st in
  if (i =? 0)%nat then (array_set costs j j, lastValue)
  else if (0 <? j)%nat then
    let newValue := costs !!! (j - 1)%nat in
    let newValue :=
      if decide (charAt s1 (i - 1) <> charAt s2 (j - 1))
      then (Nat.min (Nat.min newValue lastValue) (costs !!! j) + 1)%nat
      else newValue in
    (array_set costs (j - 1) lastValue, newValue)
  else (costs, lastValue).

Definition outer_body (s1 s2 : jsstring) (i : nat) (costs : list nat) : list nat :=
  let '(costs, lastValue) := for_up (S (length s2)) 0 (inner_body s1 s2 i) (costs, i) in
  if (0 <? i)%nat then array_set costs (length s2) lastValue else costs.

Definition editDistance (s1 s2 : jsstring) : nat :=
  let s1 := toLowerCase s1 in
  let s2 := toLowerCase s2 in
  let costs := for_up (S (length s1)) 0 (outer_body s1 s2) [] in
  costs !!! (length s2).

(** [stringSimilarity(s1, s2)], lines 19-29.  On a string, [!s] holds
    exactly for the empty string. *)
Definition stringSimilarity (s1 s2 : jsstring) : Q :=
  if (length s1 =? 0)%nat || (length s2 =? 0)%nat then 0%Q
  else
    let longer := if (length s2 <=? length s1)%nat then toLowerCase s1 else toLowerCase s2 in
    let shorter := if (length s2 <=? length s1)%nat then toLowerCase s2 else toLowerCase s1 in
    let longerLength := length longer in
    if (longerLength =? 0)%nat then 1%Q
    else Qred ((Z.of_nat longerLength - Z.of_nat (editDistance longer shorter))
                 # Pos.of_nat longerLength).

(** The two scanning loops of [findBestMatch], lines 217-245; the pair is
    [(bestMatch, highestSimilarity)], [None] being [null].  The variable
    [matchSource] only feeds the log and is left out. *)
Definition consider (t : jsstring) (manga : ListingCandidate)
    (st : option ListingCandidate * Q) : option ListingCandidate * Q :=
  let similarity := stringSimilarity (title manga) t in
  if Qltb (snd st) similarity then (Some manga, similarity) else st.

Definition scan_title (results : list ListingCandidate) (t : jsstring)
    (st : option ListingCandidate * Q) : option ListingCandidate * Q :=
  fold_left (fun st manga => consider t manga st) results st.

Definition scan_synonyms (results : list ListingCandidate) (synonyms : list jsstring)
    (st : option ListingCandidate * Q) : option ListingCandidate * Q :=
  if (0 <? length synonyms)%nat then
    fold_left (fun st manga =>
                 fold_left (fun st synonym => consider synonym manga st) synonyms st)
              results st
  else st.

Definition scan (results : list ListingCandidate) (t : jsstring) (synonyms : list jsstring)
    : option ListingCandidate * Q :=
  scan_synonyms results synonyms (scan_title results t (None, 0%Q)).

(** [findBestMatch] of src/providers/mapper.js, lines 215-257.  With no
    result, [results[0]] is [undefined] and reading its [title] for the
    log message throws. *)
Definition first_result (results : list ListingCandidate) : completion ListingCandidate :=
  match results with
  | r :: _ => Return r
  | [] => Throw (TypeError (js "Cannot read properties of undefined (reading 'title')"))
  end.

Definition findBestMatch (results : list ListingCandidate) (t : jsstring)
    (synonyms : list jsstring) : completion ListingCandidate :=
  let '(bestMatch, highestSimilarity) := scan results t synonyms in
  match bestMatch with
  | None => first_result results
  | Some best =>
      if Qltb highestSimilarity (3 # 10)%Q then first_result results
      else Return best
  end.

(** The later revision of [findBestMatch] (the second [Mapper] class of the
    sources): the cut-off is 0.4 and an empty result list is reported by an
    error of its own. *)
Definition first_result_revised (results : list ListingCandidate) (t : jsstring)
    : completion ListingCandidate :=
  match results with
  | r :: _ => Return r
  | [] => Throw (Error (js "No manga results found to match with title: " ++ t))
  end.

Definition findBestMatch_revised (results : list ListingCandidate) (t : jsstring)
    (synonyms : list jsstring) : completion ListingCandidate :=
  let '(bestMatch, highestSimilarity) := scan results t synonyms in
  match bestMatch with
  | None => first_result_revised results t
  | Some best =>
      if Qltb highestSimilarity (4 # 10)%Q then first_result_revised results t
      else Return best
  end.

(** *** The synonym retry chain, lines 139-212

    A provider's [search] is a network call: it is a parameter that maps a
    query and the state of the outside world to a reply and a new state.
    A reply is the object the provider returns; [results] is the value of
    its [results] property when the reply is an object with that property.
    The chain is run in a monad that threads the world and records every
    call of [search] with its outcome. *)
Variable World : Type.

Inductive search_reply : Type :=
| NoReply
| Reply (results : option (list ListingCandidate)).

(** [!r || !r.results || r.results.length === 0] and its negation. *)
Definition no_results (r : search_reply) : bool :=
  match r with
  | NoReply => true
  | Reply None => true
  | Reply (Some l) => (length l =? 0)%nat
  end.

Definition has_results (r : search_reply) : bool :=
  match r with
  | Reply (Some l) => (0 <? length l)%nat
  | _ => false
  end.

Definition found (r : search_reply) : list ListingCandidate :=
  match r with
  | Reply (Some l) => l
  | _ => []
  end.

Definition call_log : Type := list (jsstring * completion search_reply).

Definition M (A : Type) : Type := World * call_log -> completion A * (World * call_log).

Definition ret {A} (a : A) : M A := fun s => (Return a, s).
Definition throw {A} (e : js_error) : M A := fun s => (Throw e, s).
Definition bind {A B} (m : M A) (k : A -> M B) : M B :=
  fun s => match m s with
           | (Return a, s') => k a s'
           | (Throw e, s') => (Throw e, s')
           end.
Definition try_catch {A} (m : M A) (handler : js_error -> M A) : M A :=
  fun s => match m s with
           | (Return a, s') => (Return a, s')
           | (Throw e, s') => handler e s'
           end.
Definition lift {A} (c : completion A) : M A := fun s => (c, s).

Definition call (search : jsstring -> World -> completion search_reply * World)
    (query : jsstring) : M search_reply :=
  fun s => let '(r, w) := search query (fst s) in
           (r, (w, snd s ++ [(query, r)])).

(** The [for (const synonym of synonyms)] loop: [Some] is the value
    returned from inside the loop, [None] is falling out of it. *)
Fixpoint try_synonyms (search : jsstring -> World -> completion search_reply * World)
    (t : jsstring) (synonyms rest : list jsstring) : M (option ListingCandidate) :=
  match rest with
  | [] => ret None
  | synonym :: rest' =>
      bind (call search synonym) (fun synonymResults =>
        if has_results synonymResults
        then bind (lift (findBestMatch (found synonymResults) t synonyms))
                  (fun best => ret (Some best))
        else try_synonyms search t synonyms rest')
  end.

Definition search_with_synonyms (provider : string)
    (search : jsstring -> World -> completion search_reply * World)
    (t : jsstring) (synonyms : list jsstring) : M ListingCandidate :=
  try_catch
    (bind (call search t) (fun searchResults =>
       if no_results searchResults then
         bind (if (0 <? length synonyms)%nat
               then try_synonyms search t synonyms synonyms
               else ret None)
              (fun returned =>
                 match returned with
                 | Some best => ret best
                 | None => throw (Error (js "No matching manga found on " ++ js provider
                                           ++ js " for title: " ++ t))
                 end)
       else lift (findBestMatch (found searchResults) t synonyms)))
    (fun error =>
       throw (Error (js "Failed to search manga on " ++ js provider ++ js ": "
                       ++ error_message error))).

Definition searchAsuraScans := search_with_synonyms "AsuraScans".
Definition searchMangaPark := search_with_synonyms "MangaPark".

End WithBuiltins.
End Mapper.

(** *** Reference: Levenshtein distance

    The distance in the words of the specification: the least number of
    unit-cost insertions, deletions and substitutions turning one string
    into the other.  [levenshtein] is the textbook recurrence on the two
    strings; [edit_script a b n] says that some sequence of [n] unit-cost
    edits (and any number of free matches) turns [a] into [b]. *)
Fixpoint levenshtein (a b : jsstring) : nat :=
  match a with
  | [] => length b
  | x :: a' =>
      (fix against (b : jsstring) : nat :=
         match b with
         | [] => length a
         | y :: b' =>
             Nat.min (Nat.min (S (levenshtein a' b)) (S (against b')))
                     ((if N.eqb x y then 0 else 1) + levenshtein a' b')
         end) b
  end.

Inductive edit_script : jsstring -> jsstring -> nat -> Prop :=
| es_done : edit_script [] [] 0
| es_keep x a b n : edit_script a b n -> edit_script (x :: a) (x :: b) n
| es_substitute x y a b n : edit_script a b n -> edit_script (x :: a) (y :: b) (S n)
| es_delete x a b n : edit_script a b n -> edit_script (x :: a) b (S n)
| es_insert y a b n : edit_script a b n -> edit_script a (y :: b) (S n).


(** The table the loops of [editDistance] fill in: entry [(i, j)] is the
    distance between the first [i] units of [s1] and the first [j] units of
    [s2].  [is_row] says that the array holds row [i]; [inner_inv] is the
    state of the inner loop before its iteration [k] while row [i + 1] is
    being written over row [i]. *)
Definition prefix_distance (s1 s2 : jsstring) (i j : nat) : nat :=
  levenshtein (take i s1) (take j s2).

Definition is_row (s1 s2 : jsstring) (i : nat) (costs : list nat) : Prop :=
  length costs = S (length s2) /\
  forall j, j <= length s2 -> costs !!! j = prefix_distance s1 s2 i j.

Definition inner_inv (s1 s2 : jsstring) (i k : nat) (st : list nat * nat) : Prop :=
  length (fst st) = S (length s2) /\
  (forall j, j < k - 1 -> fst st !!! j = prefix_distance s1 s2 (S i) j) /\
  (forall j, k - 1 <= j <= length s2 -> fst st !!! j = prefix_distance s1 s2 i j) /\
  snd st = prefix_distance s1 s2 (S i) (k - 1).

(** *** Reference: the order in which [findBestMatch] scores

    [scan_order] lists every comparison the two loops make, in the order
    they make it: each candidate against the main title, then each
    candidate against each synonym.  [pick] keeps the first entry that
    strictly beats everything before it.  [candidate_score] is the score of
    one candidate in the words of the specification, the largest of its
    similarities to the main title and to the synonyms, and
    [earliest_best] is the first candidate of the list with the largest
    such score. *)
Definition scan_order (toLowerCase : jsstring -> jsstring)
    (results : list ListingCandidate) (t : jsstring) (synonyms : list jsstring)
    : list (ListingCandidate * Q) :=
  map (fun m => (m, Mapper.stringSimilarity toLowerCase (title m) t)) results
  ++ flat_map (fun m => map (fun s => (m, Mapper.stringSimilarity toLowerCase (title m) s))
                            synonyms) results.

Definition pick (entries : list (ListingCandidate * Q)) (st : option ListingCandidate * Q)
    : option ListingCandidate * Q :=
  fold_left (fun st e => if Qltb (snd st) (snd e) then (Some (fst e), snd e) else st)
            entries st.

Definition candidate_score (toLowerCase : jsstring -> jsstring)
    (t : jsstring) (synonyms : list jsstring) (m : ListingCandidate) : Q :=
  fold_left (fun best s =>
               let x := Mapper.stringSimilarity toLowerCase (title m) s in
               if Qltb best x then x else best)
            synonyms (Mapper.stringSimilarity toLowerCase (title m) t).

Definition earliest_best (toLowerCase : jsstring -> jsstring)
    (results : list ListingCandidate) (t : jsstring) (synonyms : list jsstring)
    : option ListingCandidate :=
  fst (pick (map (fun m => (m, candidate_score toLowerCase t synonyms m)) results)
            (None, 0%Q)).

(** *** Reference: what a run of the retry chain looks like

    A logged call is [quiet] when the provider answered and the answer
    holds no result.  [chain_outcome] describes a finished run by its call
    log: the queries are the main title followed by the synonyms, in order,
    up to the last call made; every call before the last was quiet; and the
    last call decides the outcome. *)
Definition quiet (e : jsstring * completion Mapper.search_reply) : Prop :=
  exists r, snd e = Return r /\ Mapper.no_results r = true.

Definition chain_outcome (provider : string) (toLowerCase : jsstring -> jsstring)
    (t : jsstring) (synonyms : list jsstring)
    (out : completion ListingCandidate)
    (log : list (jsstring * completion Mapper.search_reply)) : Prop :=
  exists earlier q reply,
    log = earlier ++ [(q, reply)] /\
    map fst log = take (length log) (t :: synonyms) /\
    Forall quiet earlier /\
    match reply with
    | Throw e =>
        out = Throw (Error (js "Failed to search manga on " ++ js provider ++ js ": "
                              ++ error_message e))
    | Return r =>
        if Mapper.has_results r
        then exists c,
               In c (Mapper.found r) /\
               Mapper.findBestMatch toLowerCase (Mapper.found r) t synonyms = Return c /\
               out = Return c
        else map fst log = t :: synonyms /\
             out = Throw (Error (js "Failed to search manga on " ++ js provider ++ js ": "
                                   ++ (js "No matching manga found on " ++ js provider
                                         ++ js " for title: " ++ t)))
    end.

(** A provider that lists one work, under one name only, for the examples. *)
Definition only_listing : ListingCandidate :=
  mkCandidate (js "solo-leveling") (js "Solo Leveling").

Definition one_name_search (query : jsstring) (w : unit)
    : completion Mapper.search_reply * unit :=
  if jsstring_eqb query (js "Solo Leveling")
  then (Return (Mapper.Reply (Some [only_listing])), w)
  else (Return (Mapper.Reply (Some [])), w).

(** ** String methods and regular expressions *)

Fixpoint startsWith (s prefix : jsstring) : bool :=
  match prefix, s with
  | [], _ => true
  | p :: prefix', c :: s' => (p =? c)%N && startsWith s' prefix'
  | _ :: _, [] => false
  end.

Fixpoint includes (s sub : jsstring) : bool :=
  startsWith s sub ||
  match s with
  | [] => false
  | _ :: s' => includes s' sub
  end.

(** White space and line terminators: the set of [\s] and of [trim]. *)
Definition is_space (c : N) : bool :=
  ((9 <=? c) && (c <=? 13) || (c =? 32) || (c =? 160) || (c =? 5760)
   || (8192 <=? c) && (c <=? 8202) || (c =? 8232) || (c =? 8233)
   || (c =? 8239) || (c =? 8287) || (c =? 12288) || (c =? 65279))%N.

Fixpoint trimStart (s : jsstring) : jsstring :=
  match s with
  | c :: s' => if is_space c then trimStart s' else s
  | [] => []
  end.

Definition trim (s : jsstring) : jsstring :=
  rev (trimStart (rev (trimStart s))).

(** [s.split(sep)] for a separator of one code unit. *)
Fixpoint split_on (sep : N) (s : jsstring) (piece : jsstring) : list jsstring :=
  match s with
  | [] => [rev piece]
  | c :: s' => if (c =? sep)%N then rev piece :: split_on sep s' []
               else split_on sep s' (c :: piece)
  end.

Definition split (s : jsstring) (sep : N) : list jsstring := split_on sep s [].

(** The regular expressions of the sources use literals, classes, groups,
    alternation, greedy and lazy repetition and the end anchor.  A class or
    literal is a predicate on one code unit; the [i] flag is built into the
    predicate. *)
Inductive regex : Type :=
| Empty
| Unit (p : N -> bool)
| Cat (r1 r2 : regex)
| Alt (r1 r2 : regex)
| Many (greedy : bool) (r : regex)
| Capture (n : nat) (r : regex)
| AtEnd.

Definition captures : Type := list (nat * jsstring).

Definition try_first {A} (x y : option A) : option A :=
  match x with
  | Some _ => x
  | None => y
  end.

(** Backtracking matcher in continuation-passing style: [matcher r s caps k]
    matches [r] at the front of [s] and hands the rest of the input to [k];
    the alternatives are tried in the priority order of the language.  A
    repetition never iterates on an empty match, so at most [length s]
    iterations are possible. *)
Fixpoint matcher {R : Type} (r : regex) (s : jsstring) (caps : captures)
    (k : jsstring -> captures -> option R) {struct r} : option R :=
  match r with
  | Empty => k s caps
  | Unit p =>
      match s with
      | c :: s' => if p c then k s' caps else None
      | [] => None
      end
  | Cat r1 r2 => matcher r1 s caps (fun s' caps' => matcher r2 s' caps' k)
  | Alt r1 r2 => try_first (matcher r1 s caps k) (matcher r2 s caps k)
  | Many greedy r' =>
      (fix iterate (n : nat) (s : jsstring) (caps : captures) {struct n} : option R :=
         let again :=
           match n with
           | O => None
           | S n' =>
               matcher r' s caps
                 (fun s' caps' =>
                    if (length s' <? length s)%nat then iterate n' s' caps' else None)
           end in
         if greedy then try_first again (k s caps) else try_first (k s caps) again)
        (length s) s caps
  | Capture n r' =>
      matcher r' s caps
        (fun s' caps' => k s' ((n, take (length s - length s') s) :: caps'))
  | AtEnd =>
      match s with
      | [] => k s caps
      | _ :: _ => None
      end
  end.

(** A match: the matched text [m[0]], the captures, and the input after
    the match.  [group m n] is [m[n]], [None] standing for [undefined]. *)
Record regex_match : Type := mkMatch {
  whole : jsstring;
  groups : captures;
  after : jsstring
}.

Definition group (m : regex_match) (n : nat) : option jsstring :=
  match find (fun c => (fst c =? n)%nat) (groups m) with
  | Some c => Some (snd c)
  | None => None
  end.

Definition match_here (r : regex) (s : jsstring) : option regex_match :=
  matcher r s [] (fun s' caps => Some (mkMatch (take (length s - length s') s) caps s')).

(** [s.match(r)] for a regular expression without the [g] flag, and
    [r.exec(s)]: the leftmost match. *)
Fixpoint exec (r : regex) (s : jsstring) : option regex_match :=
  match match_here r s with
  | Some m => Some m
  | None =>
      match s with
      | [] => None
      | _ :: s' => exec r s'
      end
  end.

(** The text skipped before the leftmost match. *)
Fixpoint before (r : regex) (s : jsstring) : jsstring :=
  match match_here r s with
  | Some m => []
  | None =>
      match s with
      | [] => []
      | c :: s' => c :: before r s'
      end
  end.

(** [Array.from(s.matchAll(r))] for a regular expression with the [g] flag:
    the successive matches, each search starting where the last match
    ended (one code unit further after an empty match). *)
Fixpoint matchAll_from (fuel : nat) (r : regex) (s : jsstring) : list regex_match :=
  match fuel with
  | O => []
  | S fuel' =>
      match exec r s with
      | None => []
      | Some m =>
          m :: match whole m, after m with
               | _ :: _, rest => matchAll_from fuel' r rest
               | [], _ :: rest => matchAll_from fuel' r rest
               | [], [] => []
               end
      end
  end.

Definition matchAll (s : jsstring) (r : regex) : list regex_match :=
  matchAll_from (S (length s)) r s.

(** [s.replace(r, replacement)] with a replacement free of [$]: with the
    [g] flag every match is replaced, without it the first one. *)
Fixpoint replace_from (fuel : nat) (r : regex) (replacement : jsstring) (s : jsstring)
    : jsstring :=
  match fuel with
  | O => s
  | S fuel' =>
      match exec r s with
      | None => s
      | Some m =>
          before r s ++ replacement ++
          match whole m, after m with
          | _ :: _, rest => replace_from fuel' r replacement rest
          | [], c :: rest => c :: replace_from fuel' r replacement rest
          | [], [] => []
          end
      end
  end.

Definition replace_all (s : jsstring) (r : regex) (replacement : jsstring) : jsstring :=
  replace_from (S (length s)) r replacement s.

Definition replace_first (s : jsstring) (r : regex) (replacement : jsstring) : jsstring :=
  match exec r s with
  | None => s
  | Some m => before r s ++ replacement ++ after m
  end.

(** Building blocks of the patterns. *)
Definition lower_ascii (c : N) : N :=
  if ((65 <=? c) && (c <=? 90))%N then (c + 32)%N else c.

Definition chr (a : ascii) : regex := Unit (fun c => (c =? N_of_ascii a)%N).
Definition chr_i (a : ascii) : regex :=
  Unit (fun c => (lower_ascii c =? lower_ascii (N_of_ascii a))%N).

Fixpoint lit (s : string) : regex :=
  match s with
  | EmptyString => Empty
  | String a EmptyString => chr a
  | String a s' => Cat (chr a) (lit s')
  end.

Fixpoint lit_i (s : string) : regex :=
  match s with
  | EmptyString => Empty
  | String a EmptyString => chr_i a
  | String a s' => Cat (chr_i a) (lit_i s')
  end.

Definition is_digit (c : N) : bool := ((48 <=? c) && (c <=? 57))%N.
Definition is_lower (c : N) : bool := ((97 <=? c) && (c <=? 122))%N.
Definition one_of (s : string) (c : N) : bool :=
  existsb (fun a => (c =? N_of_ascii a)%N) (list_ascii_of_string s).

Definition digit : regex := Unit is_digit.
Definition space : regex := Unit is_space.
Definition any : regex := Unit (fun _ => true).
Definition none_of (s : string) : regex := Unit (fun c => negb (one_of s c)).

Definition star (r : regex) : regex := Many true r.
Definition plus (r : regex) : regex := Cat r (Many true r).
Definition lazy_star (r : regex) : regex := Many false r.
Definition lazy_plus (r : regex) : regex := Cat r (Many false r).
Definition opt (r : regex) : regex := Alt r Empty.

Fixpoint cat (rs : list regex) : regex :=
  match rs with
  | [] => Empty
  | [r] => r
  | r :: rs' => Cat r (cat rs')
  end.

Fixpoint alt (rs : list regex) : regex :=
  match rs with
  | [] => Empty
  | [r] => r
  | r :: rs' => Alt r (alt rs')
  end.

(** ** Values, page records and the shared patterns of the providers *)

(** In the literals of this file a back-quote stands for a double quote. *)
Definition jsq (s : string) : jsstring :=
  map (fun c => if (c =? 96)%N then 34%N else c) (js s).

(** A page URL is a string, except that an image array parsed from a script
    may hold any JSON value.  A value that is not a string is kept opaque:
    its truthiness and an identity that tells when two such values are the
    same value for [Set.prototype.has]. *)
Inductive jsval : Type :=
| VString (s : jsstring)
| VOpaque (truthy : bool) (ident : N).

Global Instance jsval_eq_dec : EqDecision jsval.
Proof. solve_decision. Defined.

Definition is_truthy (v : jsval) : bool :=
  match v with
  | VString s => negb (length s =? 0)%nat
  | VOpaque t _ => t
  end.

Record PageRecord : Type := mkPage {
  url : jsval;
  index : nat
}.

(** A [Set] of values in insertion order. *)
Definition has (set : list jsval) (v : jsval) : bool :=
  existsb (fun x => bool_decide (x = v)) set.

Definition add (set : list jsval) (v : jsval) : list jsval :=
  if has set v then set else set ++ [v].

(** [array.sort(compare)], a stable sort: an element goes in front of the
    first element it does not compare greater than. *)
Fixpoint insert_sorted {A : Type} (compare : A -> A -> Q) (x : A) (l : list A) : list A :=
  match l with
  | [] => [x]
  | y :: l' => if Qltb 0 (compare x y) then y :: insert_sorted compare x l' else x :: l
  end.

Fixpoint sort {A : Type} (compare : A -> A -> Q) (l : list A) : list A :=
  match l with
  | [] => []
  | x :: l' => insert_sorted compare x (sort compare l')
  end.

Definition by_index (a b : PageRecord) : Q :=
  inject_Z (Z.of_nat (index a) - Z.of_nat (index b)).

(** An element of a parsed image array: a string, [null], or anything else
    with the properties it has.  [JSON.parse] itself is a parameter of the
    pipelines; its outcome on a text is a syntax error, a value that is not
    an array, or an array. *)
Inductive img : Type :=
| ImgString (s : jsstring)
| ImgNull
| ImgObject (props : list (string * jsval)).

Inductive parsed : Type :=
| SyntaxError
| NotArray
| ParsedArray (elements : list img).

Definition prop (props : list (string * jsval)) (name : string) : option jsval :=
  match find (fun p => String.eqb (fst p) name) props with
  | Some p => Some (snd p)
  | None => None
  end.

(** [img.a || img.b || ... || ''] *)
Fixpoint first_truthy (props : list (string * jsval)) (names : list string) : jsval :=
  match names with
  | [] => VString []
  | name :: names' =>
      match prop props name with
      | Some v => if is_truthy v then v else first_truthy props names'
      | None => first_truthy props names'
      end
  end.

(** [typeof img === 'string' ? img : (img.a || ... || '')]; reading a
    property of [null] throws. *)
Definition image_url (names : list string) (i : img) : option jsval :=
  match i with
  | ImgString s => Some (VString s)
  | ImgNull => None
  | ImgObject props => Some (first_truthy props names)
  end.

(** An element selected by cheerio, with the two attributes the code reads
    ([None] for an attribute that is not there). *)
Record ImgElement : Type := mkImg {
  attr_data_src : option jsstring;
  attr_src : option jsstring
}.

(** [a || b] on attribute values *)
Definition or_attr (a : option jsstring) (b : jsstring) : jsstring :=
  match a with
  | Some (c :: s) => c :: s
  | _ => b
  end.

(** Pieces of the patterns. *)
Definition dq : regex := Unit (fun c => (c =? 34)%N).
Definition not_dq : regex := Unit (fun c => negb (c =? 34)%N).
Definition not_sq : regex := Unit (fun c => negb (c =? 39)%N).
(** [[^Q'\s)]], writing Q for the double quote *)
Definition url_char : regex :=
  Unit (fun c => negb ((c =? 34) || (c =? 39) || is_space c || (c =? 41))%N).
(** [[a-z0-9-]] and [[a-z]] and [[a-z0-9]] under the [i] flag *)
Definition host_char : regex :=
  Unit (fun c => is_lower (lower_ascii c) || is_digit c || (c =? 45)%N).
Definition letter : regex := Unit (fun c => is_lower (lower_ascii c)).
Definition letter_or_digit : regex := Unit (fun c => is_lower (lower_ascii c) || is_digit c).
(** [.] without the [s] flag *)
Definition not_newline : regex :=
  Unit (fun c => negb ((c =? 10) || (c =? 13) || (c =? 8232) || (c =? 8233))%N).
(** [(?:jpg|jpeg|png|webp)] under the [i] flag *)
Definition image_ext : regex := alt [lit_i "jpg"; lit_i "jpeg"; lit_i "png"; lit_i "webp"].
(** [https?:\/\/] under the [i] flag *)
Definition http : regex := cat [lit_i "http"; opt (chr_i "s"); lit "://"].

(** [/Qurl Q:Q([^Q]+\.(?:jpg|jpeg|png|webp))Q/gi] with a double quote for
    each Q (and no blank) *)
Definition jsonRegex : regex :=
  cat [dq; lit_i "url"; dq; chr ":"; dq;
       Capture 1 (cat [plus not_dq; chr "."; image_ext]); dq].

(** [/https?:\/\/[^Q'\s)]+\.(?:jpg|jpeg|png|webp)(?:[^Q'\s)]|$)/gi] *)
Definition broadImageRegex : regex :=
  cat [http; plus url_char; chr "."; image_ext; Alt url_char AtEnd].

(** [/var\s+NAME\s*=\s*(\[.+?\])\s*;/s] *)
Definition var_array (name : string) : regex :=
  cat [lit "var"; plus space; lit name; star space; chr "="; star space;
       Capture 1 (cat [chr "["; lazy_plus any; chr "]"]); star space; chr ";"].

(** [/\\u002F/g], [/\\\//g], [/\\'/g] and [/'/g] *)
Definition escaped_u002F : regex := lit "\u002F".
Definition escaped_slash : regex := lit "\/".
Definition escaped_quote : regex := lit "\'".
Definition single_quote : regex := chr "'".

(** [text.replace(/\\'/g, SQ).replace(/'/g, DQ)]: an escaped single quote
    becomes a single quote, then every single quote a double quote. *)
Definition clean_quotes (text : jsstring) : jsstring :=
  replace_all (replace_all text escaped_quote (js "'")) single_quote [34%N].

(** The denylist of the broad fallback. *)
Definition unwanted_image (imageUrl : jsstring) : bool :=
  (length imageUrl =? 0)%nat
  || includes imageUrl (js "avatar")
  || includes imageUrl (js "icon")
  || includes imageUrl (js "logo")
  || includes imageUrl (js "banner")
  || includes imageUrl (js "thumb") && includes imageUrl (js "small").

(** ** Numbers as text, and chapter records *)

(** Chapter numbers are read from decimal text.  The code holds them as
    doubles; here they are exact rationals in lowest terms.  The two agree
    on the numerals that [plain_numeral] below accepts, at most 15 digits
    of which at most 6 follow the point, and only there:

    - two different numerals of at most 15 digits are read as two different
      doubles, in the order of their values, so [Map] keys and comparisons
      of doubles are those of the rationals;
    - [toString] prints the shortest digits that read back as the same
      double, which are the digits of the numeral itself; a value that is
      not zero is at least 1e-6 and below 1e15, and prints without an
      exponent;
    - whole numbers below 2^53 are exact, halving is exact, and the error
      of a double is below 0.12 of the last digit of its numeral, so the
      loop bound, the guard and the tests [x - i < 5] come out the same.

    On longer numerals the doubles round ([parseFloat] of
    4.0000000000000000001 is 4), print an exponent from 1e21 on, and
    overflow to [Infinity]; the definitions below do none of that, and
    every statement about numbers carries the bound as a hypothesis. *)
Fixpoint digits_of (d : Decimal.uint) : jsstring :=
  match d with
  | Decimal.Nil => []
  | Decimal.D0 d => 48%N :: digits_of d
  | Decimal.D1 d => 49%N :: digits_of d
  | Decimal.D2 d => 50%N :: digits_of d
  | Decimal.D3 d => 51%N :: digits_of d
  | Decimal.D4 d => 52%N :: digits_of d
  | Decimal.D5 d => 53%N :: digits_of d
  | Decimal.D6 d => 54%N :: digits_of d
  | Decimal.D7 d => 55%N :: digits_of d
  | Decimal.D8 d => 56%N :: digits_of d
  | Decimal.D9 d => 57%N :: digits_of d
  end.

(** [String(n)] for a natural number below 1e21 *)
Definition decimal (n : N) : jsstring :=
  match digits_of (N.to_uint n) with
  | [] => [48%N]
  | ds => ds
  end.

Fixpoint fraction_digits (fuel : nat) (r den : Z) : jsstring :=
  match fuel with
  | O => []
  | S fuel' =>
      if (r =? 0)%Z then []
      else Z.to_N (48 + r * 10 / den) :: fraction_digits fuel' (r * 10 mod den) den
  end.

(** [x.toString()] for the value of a plain numeral: the whole part, and
    after a point the digits of the fraction, at most 20 of them.  The
    exponent form and the shortest digits of a rounded double are outside
    the model. *)
Definition number_toString (x : Q) : jsstring :=
  let n := Z.abs (Qnum x) in
  let d := Z.pos (Qden x) in
  (if (Qnum x <? 0)%Z then js "-" else [])
  ++ decimal (Z.to_N (n / d))
  ++ match fraction_digits 20 (n mod d) d with
     | [] => []
     | ds => 46%N :: ds
     end.

Fixpoint take_digits (s : jsstring) : jsstring * jsstring :=
  match s with
  | c :: s' =>
      if is_digit c then let '(ds, rest) := take_digits s' in (c :: ds, rest)
      else ([], s)
  | [] => ([], [])
  end.

Definition digits_value (ds : jsstring) : Z :=
  fold_left (fun acc c => (acc * 10 + (Z.of_N c - 48))%Z) ds 0%Z.

(** [parseInt(text, 10)] on text made of decimal digits *)
Definition parseInt (text : jsstring) : N := Z.to_N (digits_value text).

(** [parseFloat(text)] for decimal text without an exponent: leading white
    space, a sign, digits, a fraction; [None] is [NaN].  The result is the
    exact value of the numeral, which is the double of the code for a plain
    numeral; no rounding and no [Infinity]. *)
Definition parseFloat (text : jsstring) : option Q :=
  let s := trimStart text in
  let '(negative, s) :=
    match s with
    | 45%N :: s' => (true, s')
    | 43%N :: s' => (false, s')
    | _ => (false, s)
    end in
  let '(whole_part, rest) := take_digits s in
  let fraction :=
    match rest with
    | 46%N :: rest' => fst (take_digits rest')
    | _ => []
    end in
  if ((length whole_part =? 0) && (length fraction =? 0))%nat then None
  else
    let n := digits_value (whole_part ++ fraction) in
    Some (Qred ((if negative then - n else n)%Z
                  # Z.to_pos (10 ^ Z.of_nat (length fraction)))).

(** The numerals on which doubles and rationals agree: the run of digits
    and the digits after the point that [parseFloat] reads count at most
    15 together, and at most 6 follow the point. *)
Definition plain_numeral (text : jsstring) : bool :=
  let '(whole_part, rest) := take_digits text in
  let fraction :=
    match rest with
    | 46%N :: rest' => fst (take_digits rest')
    | _ => []
    end in
  ((length whole_part + length fraction <=? 15) && (length fraction <=? 6))%nat.

Module Chapter.
(** A chapter record; [generated] is [None] when the object has no such
    property. *)
Record t : Type := mk {
  id : jsstring;
  title : jsstring;
  number : jsstring;
  url : jsstring;
  date : jsstring;
  generated : option bool
}.
End Chapter.

(** ** MangaPark: [fetchChapterPages], src/providers/mangapark.js lines 195-384

    The definitions start from the fetched document [htmlContent]; resolving
    the chapter reference and the fetch itself come before and only decide
    whether there is a document. *)
Module MangaPark.

Definition baseUrl : jsstring := js "https://mangapark.net".

(** [/https?:\/\/(?:[a-z0-9-]+\.)?mp[a-z]{3,4}\.org\/media\/[^Q'\s)]+\.(?:jpg|jpeg|png|webp)/gi] *)
Definition mpDomainRegex : regex :=
  cat [http; opt (cat [plus host_char; chr "."]);
       lit_i "mp"; letter; letter; letter; opt letter;
       lit_i ".org/media/"; plus url_char; chr "."; image_ext].

(** [/data-?src=Q([^Q]+)Q|src=Q([^Q]+\.(?:jpg|jpeg|png|webp))Q/gi] *)
Definition imageRegex : regex :=
  Alt (cat [lit_i "data"; opt (chr "-"); lit_i "src="; dq; Capture 1 (plus not_dq); dq])
      (cat [lit_i "src="; dq; Capture 2 (cat [plus not_dq; chr "."; image_ext]); dq]).

(** [/\.(?:jpg|jpeg|png|webp)(?:\?|$)/i] *)
Definition image_file : regex := cat [chr "."; image_ext; Alt (chr "?") AtEnd].

Definition scriptPatterns : list regex :=
  [ var_array "imglist";
    var_array "images";
    var_array "pages";
    var_array "chapterImages";
    (* /_load\((\[.*?\])\)/s *)
    cat [lit "_load("; Capture 1 (cat [chr "["; lazy_star any; chr "]"]); chr ")"];
    (* /data-?images\s*=\s*'([^']+)'/s *)
    cat [lit "data"; opt (chr "-"); lit "images"; star space; chr "="; star space;
         chr "'"; Capture 1 (plus not_sq); chr "'"] ].

(** The state of a loop that pushes pages: the array [pages], the set
    [existingUrls] and the counter [index]. *)
Record push_state : Type := mkState {
  pages : list PageRecord;
  existingUrls : list jsval;
  next_index : nat
}.

(** [if (imageUrl && !existingUrls.has(imageUrl)) { existingUrls.add(imageUrl);
    pages.push({ url: imageUrl, index: index++ }) }] *)
Definition push_new (imageUrl : jsval) (st : push_state) : push_state :=
  if is_truthy imageUrl && negb (has (existingUrls st) imageUrl)
  then mkState (pages st ++ [mkPage imageUrl (next_index st)])
               (add (existingUrls st) imageUrl)
               (S (next_index st))
  else st.

(** [const existingUrls = new Set(pages.map(p => p.url)); let index = pages.length + 1] *)
Definition start (pages : list PageRecord) : push_state :=
  mkState pages (fold_left add (map url pages) []) (length pages + 1).

(** Method 1, lines 212-228.  The test is [!pages.some(p => p.url === imageUrl)]
    and the counter starts at 1. *)
Definition method1_push (imageUrl : jsstring) (st : list PageRecord * nat)
    : list PageRecord * nat :=
  let '(pages, index) := st in
  if negb (length imageUrl =? 0)%nat
     && negb (existsb (fun p => bool_decide (url p = VString imageUrl)) pages)
  then (pages ++ [mkPage (VString imageUrl) index], S index)
  else st.

Definition method1_url (m : regex_match) : jsstring :=
  replace_all (default [] (group m 1)) escaped_u002F (js "/").

Definition method1 (htmlContent : jsstring) (pages : list PageRecord) : list PageRecord :=
  let jsonMatches := matchAll htmlContent jsonRegex in
  if (0 <? length jsonMatches)%nat
  then fst (fold_left (fun st m => method1_push (method1_url m) st) jsonMatches (pages, 1))
  else pages.

(** Method 2, lines 230-249: it has no guard on [pages.length]. *)
Definition method2 (htmlContent : jsstring) (pages : list PageRecord) : list PageRecord :=
  let mpDomainMatches := matchAll htmlContent mpDomainRegex in
  if (0 <? length mpDomainMatches)%nat
  then MangaPark.pages
         (fold_left (fun st m => push_new (VString (whole m)) st) mpDomainMatches (start pages))
  else pages.

(** Method 3, lines 251-287. *)
Definition method3_step (m : regex_match) (st : push_state) : push_state :=
  let imageUrl := or_attr (group m 1) (default [] (group m 2)) in
  if (length imageUrl =? 0)%nat then st
  else if includes imageUrl (js "avatar") || includes imageUrl (js "icon")
          || includes imageUrl (js "logo") || includes imageUrl (js "banner")
  then st
  else
    match exec image_file imageUrl with
    | Some _ =>
        let fullUrl :=
          if startsWith imageUrl (js "http") then imageUrl
          else if startsWith imageUrl (js "/") then baseUrl ++ imageUrl
               else baseUrl ++ js "/" ++ imageUrl in
        if negb (has (existingUrls st) (VString fullUrl))
        then mkState (MangaPark.pages st ++ [mkPage (VString fullUrl) (next_index st)])
                     (add (existingUrls st) (VString fullUrl))
                     (S (next_index st))
        else st
    | None => st
    end.

Definition method3 (htmlContent : jsstring) (pages : list PageRecord) : list PageRecord :=
  if (length pages =? 0)%nat then
    let matches := matchAll htmlContent imageRegex in
    if (0 <? length matches)%nat
    then MangaPark.pages (fold_left (fun st m => method3_step m st) matches (start pages))
    else pages
  else pages.

(** Method 4, lines 289-340.  [push_images] is the loop over the parsed
    array; it stops at an element whose property read throws, leaving the
    pages pushed so far in place ([false] in the second component). *)
Definition image_fields : list string := ["url"; "src"; "path"; "i"; "img"]%string.

Fixpoint push_images (imgData : list img) (st : push_state) : push_state * bool :=
  match imgData with
  | [] => (st, true)
  | i :: imgData' =>
      match image_url image_fields i with
      | Some imgUrl => push_images imgData' (push_new imgUrl st)
      | None => (st, false)
      end
  end.

(** [JSON.parse(text)], and on a syntax error [JSON.parse] of the cleaned text. *)
Definition parse_image_data (JSON_parse : jsstring -> parsed) (text : jsstring) : parsed :=
  match JSON_parse text with
  | SyntaxError => JSON_parse (clean_quotes text)
  | p => p
  end.

(** One turn of [for (const pattern of scriptPatterns)]; the second
    component tells whether the loop goes on ([false] after [break]). *)
Definition method4_pattern (JSON_parse : jsstring -> parsed) (htmlContent : jsstring)
    (pattern : regex) (pages : list PageRecord) : list PageRecord * bool :=
  match exec pattern htmlContent with
  | Some scriptMatch =>
      match group scriptMatch 1 with
      | Some (c :: text) =>
          match parse_image_data JSON_parse (c :: text) with
          | ParsedArray (i :: imgData) =>
              let '(st, completed) := push_images (i :: imgData) (start pages) in
              if completed
              then (MangaPark.pages st, (length (MangaPark.pages st) =? 0)%nat)
              else (MangaPark.pages st, true)
          | _ => (pages, true)
          end
      | _ => (pages, true)
      end
  | None => (pages, true)
  end.

Fixpoint method4_loop (JSON_parse : jsstring -> parsed) (htmlContent : jsstring)
    (patterns : list regex) (pages : list PageRecord) : list PageRecord :=
  match patterns with
  | [] => pages
  | pattern :: patterns' =>
      let '(pages', continue) := method4_pattern JSON_parse htmlContent pattern pages in
      if continue then method4_loop JSON_parse htmlContent patterns' pages' else pages'
  end.

Definition method4 (JSON_parse : jsstring -> parsed) (htmlContent : jsstring)
    (pages : list PageRecord) : list PageRecord :=
  if (length pages =? 0)%nat
  then method4_loop JSON_parse htmlContent scriptPatterns pages
  else pages.

(** Method 5, lines 342-373: the set starts empty and the counter at 1. *)
Definition method5_step (m : regex_match) (st : push_state) : push_state :=
  let imageUrl := trim (whole m) in
  if unwanted_image imageUrl then st
  else if negb (has (existingUrls st) (VString imageUrl))
       then mkState (MangaPark.pages st ++ [mkPage (VString imageUrl) (next_index st)])
                    (add (existingUrls st) (VString imageUrl))
                    (S (next_index st))
       else st.

Definition method5 (htmlContent : jsstring) (pages : list PageRecord) : list PageRecord :=
  if (length pages =? 0)%nat then
    let broadMatches := matchAll htmlContent broadImageRegex in
    if (0 <? length broadMatches)%nat
    then MangaPark.pages
           (fold_left (fun st m => method5_step m st) broadMatches (mkState pages [] 1))
    else pages
  else pages.

Definition fetchChapterPages (JSON_parse : jsstring -> parsed) (htmlContent : jsstring)
    : list PageRecord :=
  let pages := [] in
  let pages := method1 htmlContent pages in
  let pages := method2 htmlContent pages in
  let pages := method3 htmlContent pages in
  let pages := method4 JSON_parse htmlContent pages in
  let pages := method5 htmlContent pages in
  sort by_index pages.

(** *** [getMangaInfo] of the revised provider, mangapark.js lines 506-708

    [anchors] is what [$('div[data-name=chapter-list] a')] selects in the
    fetched document, with the attribute and the two texts the code reads
    from each element; the value is the [chapters] property of the returned
    object. *)
Record ChapterAnchor : Type := mkAnchor {
  href : option jsstring;
  text : jsstring;
  time_text : jsstring
}.

(** The group NUM: one or more digits, an optional dot, any number of
    digits. *)
Definition number_group : regex :=
  Capture 1 (cat [plus digit; opt (chr "."); star digit]).
(** [/Chapter\s+NUM/i], [/Ch\.?\s*NUM/i] and [/NUM/] *)
Definition chapterPattern : regex := cat [lit_i "Chapter"; plus space; number_group].
Definition altPattern : regex := cat [lit_i "Ch"; opt (chr_i "."); star space; number_group].
Definition numPattern : regex := number_group.
(** [/\d+-chapter-\d+/], [/\d+-ch-\d+/] and [/\d+-volume-\d+-chapter-\d+/] *)
Definition id_chapter : regex := cat [plus digit; lit "-chapter-"; plus digit].
Definition id_ch : regex := cat [plus digit; lit "-ch-"; plus digit].
Definition id_volume : regex :=
  cat [plus digit; lit "-volume-"; plus digit; lit "-chapter-"; plus digit].
(** [/volume-(\d+)/] *)
Definition volume_number : regex := cat [lit "volume-"; Capture 1 (plus digit)].

Definition matches (r : regex) (s : jsstring) : bool :=
  match exec r s with
  | Some _ => true
  | None => false
  end.

(** The text that lines 540-556 hand to [parseFloat]: the first group of
    the first of the three patterns that matches; [None] when none does. *)
Definition number_text (chapterText : jsstring) : option jsstring :=
  match exec chapterPattern chapterText with
  | Some chapterMatch => Some (default [] (group chapterMatch 1))
  | None =>
      match exec altPattern chapterText with
      | Some altMatch => Some (default [] (group altMatch 1))
      | None =>
          match exec numPattern chapterText with
          | Some numMatch => Some (default [] (group numMatch 1))
          | None => None
          end
      end
  end.

(** The chapter number read from the link text; [None] is [null].  The
    captured text starts with a digit, so [parseFloat] never yields [NaN]. *)
Definition chapter_number (chapterText : jsstring) : option Q :=
  match number_text chapterText with
  | Some numberText => parseFloat numberText
  | None => None
  end.

(** A link whose chapter number is written as a plain numeral, or whose
    text holds no number at all. *)
Definition plainly_numbered (el : ChapterAnchor) : bool :=
  match number_text (trim (text el)) with
  | Some numberText => plain_numeral numberText
  | None => true
  end.

(** A [Map] from numbers to chapters, in insertion order. *)
Definition chapter_map : Type := list (Q * Chapter.t).

Definition map_has (m : chapter_map) (k : Q) : bool :=
  existsb (fun e => Qeq_bool (fst e) k) m.

Fixpoint map_set (m : chapter_map) (k : Q) (v : Chapter.t) : chapter_map :=
  match m with
  | [] => [(k, v)]
  | (k', v') :: m' => if Qeq_bool k' k then (k', v) :: m' else (k', v') :: map_set m' k v
  end.

(** One turn of the first pass, lines 533-602.  The second test of the
    condition at line 599 compares a boolean with a string and is never
    true, so an entry is written only for a number not yet in the map. *)
Definition first_pass (chapterMap : chapter_map) (el : ChapterAnchor) : chapter_map :=
  match href el with
  | Some (c :: h) =>
      let chapterHref := c :: h in
      let chapterText := trim (text el) in
      match chapter_number chapterText with
      | None => chapterMap
      | Some chapterNum =>
          let date := trim (time_text el) in
          let lastPart := List.last (split chapterHref 47) [] in
          let uniqueChapterId :=
            if matches id_chapter lastPart || matches id_ch lastPart
               || matches id_volume lastPart
            then lastPart else [] in
          let uniqueChapterId :=
            if (length uniqueChapterId =? 0)%nat
            then js "chapter-" ++ number_toString chapterNum
            else uniqueChapterId in
          let chapter :=
            Chapter.mk uniqueChapterId chapterText (number_toString chapterNum)
                       (if startsWith chapterHref (js "/")
                        then baseUrl ++ chapterHref else chapterHref)
                       (if (length date =? 0)%nat then js "Unknown" else date)
                       None in
          if negb (map_has chapterMap chapterNum)
          then map_set chapterMap chapterNum chapter
          else chapterMap
      end
  | _ => chapterMap
  end.

(** Lines 607-614. *)
Definition highest_number (extractedChapters : list Chapter.t) : Q :=
  fold_left (fun highestChapterNum chapter =>
               match parseFloat (Chapter.number chapter) with
               | Some num => if Qltb highestChapterNum num then num else highestChapterNum
               | None => highestChapterNum
               end)
            extractedChapters 0%Q.

(** Lines 632-635: [Math.abs(parseFloat(ch.number) - i) < 5] and the id
    holds [-chapter-] or [-ch-]. *)
Definition nearby (i : Q) (ch : Chapter.t) : bool :=
  match parseFloat (Chapter.number ch) with
  | Some num =>
      Qltb (Qabs (num - i)) 5
      && (includes (Chapter.id ch) (js "-chapter-") || includes (Chapter.id ch) (js "-ch-"))
  | None => false
  end.

(** Lines 627-667: the id and the URL of the chapter generated for [i]. *)
Definition generated_id_url (mangaId : jsstring) (extractedChapters : list Chapter.t)
    (i : N) : jsstring * jsstring :=
  let chapter_i := js "chapter-" ++ decimal i in
  match List.filter (nearby (inject_Z (Z.of_N i))) extractedChapters with
  | template :: _ =>
      if matches id_volume (Chapter.id template) then
        let volumeNum :=
          match exec volume_number (Chapter.id template) with
          | Some volumeMatch => default [] (group volumeMatch 1)
          | None => js "1"
          end in
        (chapter_i,
         replace_first (Chapter.url template) (cat [chr "/"; id_volume; AtEnd])
                       (js "/volume-" ++ volumeNum ++ js "-" ++ chapter_i))
      else if matches id_chapter (Chapter.id template) then
        (chapter_i,
         replace_first (Chapter.url template) (cat [chr "/"; id_chapter; AtEnd])
                       (js "/" ++ chapter_i))
      else if matches id_ch (Chapter.id template) then
        (js "ch-" ++ decimal i,
         replace_first (Chapter.url template) (cat [chr "/"; id_ch; AtEnd])
                       (js "/" ++ js "ch-" ++ decimal i))
      else
        (chapter_i,
         replace_first (Chapter.url template)
                       (cat [lit "/chapter-"; plus digit; AtEnd])
                       (js "/" ++ chapter_i))
  | [] => (chapter_i, baseUrl ++ js "/title/" ++ mangaId ++ js "/" ++ chapter_i)
  end.

(** One turn of the loop of lines 625-681, for the counter [i]. *)
Definition generate (mangaId : jsstring) (extractedChapters : list Chapter.t)
    (i : nat) (chapterMap : chapter_map) : chapter_map :=
  let key := inject_Z (Z.of_nat i) in
  if negb (map_has chapterMap key) then
    let '(generatedId, chapterUrl) :=
      generated_id_url mangaId extractedChapters (N.of_nat i) in
    map_set chapterMap key
            (Chapter.mk generatedId (js "Chapter " ++ decimal (N.of_nat i))
                        (decimal (N.of_nat i)) chapterUrl (js "Unknown") (Some true))
  else chapterMap.

(** [(parseFloat(b.number) || 0) - (parseFloat(a.number) || 0)]; the
    difference of the exact values, whose sign is that of the difference of
    the doubles for plain numerals. *)
Definition by_number_descending (a b : Chapter.t) : Q :=
  (default 0 (parseFloat (Chapter.number b)) - default 0 (parseFloat (Chapter.number a)))%Q.

(** Lines 604-691, from the map the first pass has built.  The guard, the
    keys and the loop bound are computed on exact values; they are those of
    the code when every link is [plainly_numbered]. *)
Definition assemble (mangaId : jsstring) (chapterMap : chapter_map) : list Chapter.t :=
  let extractedChapters := map snd chapterMap in
  let highestChapterNum := highest_number extractedChapters in
  let shouldGenerateChapters :=
    Qltb 0 highestChapterNum
    && Qltb (inject_Z (Z.of_nat (length extractedChapters))) (highestChapterNum / 2) in
  let chapters :=
    if shouldGenerateChapters
    then map snd (for_up (Z.to_nat (Qfloor highestChapterNum)) 1
                         (generate mangaId extractedChapters) chapterMap)
    else extractedChapters in
  sort by_number_descending chapters.

Definition getMangaInfo (anchors : list ChapterAnchor) (mangaId : jsstring) : list Chapter.t :=
  assemble mangaId (fold_left first_pass anchors []).

End MangaPark.

(** ** MangaBuddy: [fetchChapterPages], lines 241-452 of the provider

    From the fetched document on.  [selected] is what the cheerio query
    [$('.chapter-lazy-image, .chapter-images img, .chapter-image')] selects
    in the document, in document order. *)
Module MangaBuddy.

Definition baseUrl : jsstring := js "https://mangabuddy.com".

(** [/https?:\/\/[^Q'\s)]+\.(?:jpg|jpeg|png|webp)(?:,[^Q'\s)]+\.(?:jpg|jpeg|png|webp))+/gi] *)
Definition commaListRegex : regex :=
  cat [http; plus url_char; chr "."; image_ext;
       plus (cat [chr ","; plus url_char; chr "."; image_ext])].

(** [/https?:\/\/(?:[a-z0-9-]+\.)?mbcdn[a-z0-9]*\.(?:org|com)\/res\/manga\/[^Q'\s)]+\.(?:jpg|jpeg|png|webp|gif)/gi] *)
Definition mbDomainRegex : regex :=
  cat [http; opt (cat [plus host_char; chr "."]);
       lit_i "mbcdn"; star letter_or_digit; chr "."; Alt (lit_i "org") (lit_i "com");
       lit_i "/res/manga/"; plus url_char; chr ".";
       alt [lit_i "jpg"; lit_i "jpeg"; lit_i "png"; lit_i "webp"; lit_i "gif"]].

Definition scriptPatterns : list regex :=
  [ var_array "images";
    var_array "pages";
    var_array "chapter_images";
    var_array "chapterImages";
    (* /images:\s*(\[.+?\])/s *)
    cat [lit "images:"; star space; Capture 1 (cat [chr "["; lazy_plus any; chr "]"])];
    (* /data-images\s*=\s*'([^']+)'/s *)
    cat [lit "data-images"; star space; chr "="; star space;
         chr "'"; Capture 1 (plus not_sq); chr "'"] ].

(** Method 1, lines 277-299: the members of a comma-separated list. *)
Definition method1_url (uniqueUrls : list jsval) (url : jsstring) : list jsval :=
  if negb (length url =? 0)%nat && negb (length (trim url) =? 0)%nat
     && negb (includes url (js "avatar"))
     && negb (includes url (js "icon"))
     && negb (includes url (js "thumb."))
     && negb (has uniqueUrls (VString (trim url)))
  then add uniqueUrls (VString (trim url))
  else uniqueUrls.

Definition method1 (htmlContent : jsstring) (uniqueUrls : list jsval) : list jsval :=
  let commaListMatches := matchAll htmlContent commaListRegex in
  if (0 <? length commaListMatches)%nat
  then fold_left (fun set m => fold_left method1_url (split (whole m) 44) set)
                 commaListMatches uniqueUrls
  else uniqueUrls.

(** Method 2, lines 301-327: the selected elements; it has no guard on
    [uniqueUrls.size]. *)
Definition method2_url (uniqueUrls : list jsval) (url : jsstring) : list jsval :=
  if negb (length url =? 0)%nat && negb (length (trim url) =? 0)%nat
     && negb (has uniqueUrls (VString (trim url)))
  then add uniqueUrls (VString (trim url))
  else uniqueUrls.

Definition method2_element (uniqueUrls : list jsval) (element : ImgElement) : list jsval :=
  let src := or_attr (attr_data_src element) (or_attr (attr_src element) []) in
  if negb (length src =? 0)%nat
     && negb (includes src (js "/static/common/x.gif"))
     && negb (includes src (js "thumb."))
     && negb (includes src (js "thumbnail."))
  then
    if includes src (js ",")
    then fold_left method2_url (split src 44) uniqueUrls
    else if negb (has uniqueUrls (VString src)) then add uniqueUrls (VString src)
         else uniqueUrls
  else uniqueUrls.

Definition method2 (selected : list ImgElement) (uniqueUrls : list jsval) : list jsval :=
  fold_left method2_element selected uniqueUrls.

(** [if (imageUrl && !uniqueUrls.has(imageUrl)) uniqueUrls.add(imageUrl)] *)
Definition add_new (uniqueUrls : list jsval) (imageUrl : jsval) : list jsval :=
  if is_truthy imageUrl && negb (has uniqueUrls imageUrl)
  then add uniqueUrls imageUrl
  else uniqueUrls.

(** Method 3, lines 329-344. *)
Definition method3 (htmlContent : jsstring) (uniqueUrls : list jsval) : list jsval :=
  if (length uniqueUrls =? 0)%nat then
    let mbDomainMatches := matchAll htmlContent mbDomainRegex in
    if (0 <? length mbDomainMatches)%nat
    then fold_left (fun set m => add_new set (VString (whole m))) mbDomainMatches uniqueUrls
    else uniqueUrls
  else uniqueUrls.

(** Method 4, lines 346-361. *)
Definition method4_url (m : regex_match) : jsstring :=
  replace_all (replace_all (default [] (group m 1)) escaped_u002F (js "/"))
              escaped_slash (js "/").

Definition method4 (htmlContent : jsstring) (uniqueUrls : list jsval) : list jsval :=
  if (length uniqueUrls =? 0)%nat then
    let jsonMatches := matchAll htmlContent jsonRegex in
    if (0 <? length jsonMatches)%nat
    then fold_left (fun set m => add_new set (VString (method4_url m))) jsonMatches uniqueUrls
    else uniqueUrls
  else uniqueUrls.

(** Method 5, lines 363-407, with the same shape as the script method of
    MangaPark. *)
Definition image_fields : list string := ["url"; "src"; "path"; "i"; "img"]%string.

Fixpoint add_images (imgData : list img) (uniqueUrls : list jsval) : list jsval * bool :=
  match imgData with
  | [] => (uniqueUrls, true)
  | i :: imgData' =>
      match image_url image_fields i with
      | Some imgUrl => add_images imgData' (add_new uniqueUrls imgUrl)
      | None => (uniqueUrls, false)
      end
  end.

Definition method5_pattern (JSON_parse : jsstring -> parsed) (htmlContent : jsstring)
    (pattern : regex) (uniqueUrls : list jsval) : list jsval * bool :=
  match exec pattern htmlContent with
  | Some scriptMatch =>
      match group scriptMatch 1 with
      | Some (c :: text) =>
          match MangaPark.parse_image_data JSON_parse (c :: text) with
          | ParsedArray (i :: imgData) =>
              let '(set, completed) := add_images (i :: imgData) uniqueUrls in
              if completed then (set, (length set =? 0)%nat) else (set, true)
          | _ => (uniqueUrls, true)
          end
      | _ => (uniqueUrls, true)
      end
  | None => (uniqueUrls, true)
  end.

Fixpoint method5_loop (JSON_parse : jsstring -> parsed) (htmlContent : jsstring)
    (patterns : list regex) (uniqueUrls : list jsval) : list jsval :=
  match patterns with
  | [] => uniqueUrls
  | pattern :: patterns' =>
      let '(set, continue) := method5_pattern JSON_parse htmlContent pattern uniqueUrls in
      if continue then method5_loop JSON_parse htmlContent patterns' set else set
  end.

Definition method5 (JSON_parse : jsstring -> parsed) (htmlContent : jsstring)
    (uniqueUrls : list jsval) : list jsval :=
  if (length uniqueUrls =? 0)%nat
  then method5_loop JSON_parse htmlContent scriptPatterns uniqueUrls
  else uniqueUrls.

(** Method 6, lines 409-434. *)
Definition method6_url (uniqueUrls : list jsval) (m : regex_match) : list jsval :=
  let imageUrl := trim (whole m) in
  if unwanted_image imageUrl then uniqueUrls
  else if negb (has uniqueUrls (VString imageUrl)) then add uniqueUrls (VString imageUrl)
       else uniqueUrls.

Definition method6 (htmlContent : jsstring) (uniqueUrls : list jsval) : list jsval :=
  if (length uniqueUrls =? 0)%nat then
    let broadMatches := matchAll htmlContent broadImageRegex in
    if (0 <? length broadMatches)%nat
    then fold_left method6_url broadMatches uniqueUrls
    else uniqueUrls
  else uniqueUrls.

(** [array.map((url, index) => ({ url, index: index + 1 }))] *)
Definition number_pages (urls : list jsval) : list PageRecord :=
  imap (fun index url => mkPage url (index + 1)) urls.

Definition fetchChapterPages (JSON_parse : jsstring -> parsed) (htmlContent : jsstring)
    (selected : list ImgElement) : list PageRecord :=
  let uniqueUrls := [] in
  let uniqueUrls := method1 htmlContent uniqueUrls in
  let uniqueUrls := method2 selected uniqueUrls in
  let uniqueUrls := method3 htmlContent uniqueUrls in
  let uniqueUrls := method4 htmlContent uniqueUrls in
  let uniqueUrls := method5 JSON_parse htmlContent uniqueUrls in
  let uniqueUrls := method6 htmlContent uniqueUrls in
  sort by_index (number_pages uniqueUrls).

(** *** [getMangaInfo], lines 101-191 of the provider

    From the fetched document [html] on; the value is the [chapters]
    property of the returned object, which does not depend on the other
    properties. *)

(** [/CHAPTERS\s*\((\d+)\)/i] *)
Definition chapterCountRegex : regex :=
  cat [lit_i "CHAPTERS"; star space; chr "("; Capture 1 (plus digit); chr ")"].

(** [/href=Q\/[^Q]+\/chapter-(\d+)Q/g] *)
Definition chapterLinkRegex : regex :=
  cat [lit "href="; dq; chr "/"; plus not_dq; lit "/chapter-"; Capture 1 (plus digit); dq].

Definition highest_link (latestChapter : N) (m : regex_match) : N :=
  match group m 1 with
  | Some (c :: text) =>
      let num := parseInt (c :: text) in
      if (latestChapter <? num)%N then num else latestChapter
  | _ => latestChapter
  end.

Definition latest_chapter (html : jsstring) : N :=
  let from_links := fold_left highest_link (matchAll html chapterLinkRegex) 1%N in
  match exec chapterCountRegex html with
  | Some chapterCountMatch =>
      match group chapterCountMatch 1 with
      | Some (c :: text) => parseInt (c :: text)
      | _ => from_links
      end
  | None => from_links
  end.

Definition chapter (mangaId : jsstring) (latestChapter chapterNum : N) : Chapter.t :=
  Chapter.mk (js "chapter-" ++ decimal chapterNum)
             (js "Chapter " ++ decimal chapterNum)
             (decimal chapterNum)
             (baseUrl ++ js "/" ++ mangaId ++ js "/chapter-" ++ decimal chapterNum)
             (if (chapterNum =? latestChapter)%N then js "Recent" else js "Unknown")
             None.

(** [new Array(chaptersCount)] throws above 2^32 - 1; the loop then fills
    [chapters[i]] for [i] from 0 to [chaptersCount - 1]. *)
Definition getMangaInfo (html : jsstring) (mangaId : jsstring) : completion (list Chapter.t) :=
  let latestChapter := latest_chapter html in
  let chaptersCount := latestChapter in
  if (4294967295 <? chaptersCount)%N
  then Throw (Error (js "Failed to get manga info: " ++ js "Invalid array length"))
  else Return (map (fun i => chapter mangaId latestChapter (latestChapter - N.of_nat i))
                   (seq 0 (N.to_nat chaptersCount))).

End MangaBuddy.

(** ** MangaKakalot: [fetchChapterPages], lines 243-372 of the provider

    From the fetched document [data] on.  [reader_images] is what
    [$('.container-chapter-reader img')] selects and [scripts] the contents
    of the [script] elements, both in document order. *)
Module MangaKakalot.

(** [/https?:\/\/[^Q'\s)]+\.(?:jpg|jpeg|png|webp)(?:[?]U)?/gi] where U is
    [[^Q'\s)]] repeated any number of times *)
Definition imgRegex : regex :=
  cat [http; plus url_char; chr "."; image_ext; opt (cat [chr "?"; star url_char])].

(** [/Qpages Q\s*:\s*(\[.+?\])/s] for the property [name] *)
Definition property_array (name : string) : regex :=
  cat [dq; lit name; dq; star space; chr ":"; star space;
       Capture 1 (cat [chr "["; lazy_plus any; chr "]"])].

Definition arrayPatterns : list regex :=
  [ var_array "chapter_images";
    var_array "images";
    var_array "imagesArray";
    var_array "pages";
    property_array "pages";
    property_array "images" ].

(** [/\.(jpg|jpeg|png|webp)(\?D)?$/i] where D is the dot repeated any
    number of times *)
Definition image_name : regex :=
  cat [chr "."; Capture 1 image_ext; opt (Capture 2 (cat [chr "?"; star not_newline])); AtEnd].

(** Method 1, lines 276-285: [src] is preferred to [data-src], and
    [Set.prototype.add] itself drops a repeated URL. *)
Definition method1_element (uniqueUrls : list jsval) (el : ImgElement) : list jsval :=
  let imageUrl := or_attr (attr_src el) (default [] (attr_data_src el)) in
  if negb (length imageUrl =? 0)%nat
     && negb (includes imageUrl (js "thumb."))
     && negb (includes imageUrl (js "logo"))
     && negb (includes imageUrl (js "icon"))
  then add uniqueUrls (VString imageUrl)
  else uniqueUrls.

Definition method1 (reader_images : list ImgElement) (uniqueUrls : list jsval) : list jsval :=
  fold_left method1_element reader_images uniqueUrls.

(** Method 2, lines 287-304. *)
Definition method2_url (uniqueUrls : list jsval) (m : regex_match) : list jsval :=
  let imgUrl := whole m in
  if negb (length imgUrl =? 0)%nat
     && negb (includes imgUrl (js "thumb."))
     && negb (includes imgUrl (js "logo"))
     && negb (includes imgUrl (js "icon"))
     && negb (includes imgUrl (js "avatars"))
     && negb (has uniqueUrls (VString imgUrl))
  then add uniqueUrls (VString imgUrl)
  else uniqueUrls.

Definition method2 (data : jsstring) (uniqueUrls : list jsval) : list jsval :=
  if (length uniqueUrls =? 0)%nat
  then fold_left method2_url (matchAll data imgRegex) uniqueUrls
  else uniqueUrls.

(** Method 3, lines 306-349.  The [break] leaves the loop over the patterns
    of one script; the loop over the scripts goes on. *)
Definition image_fields : list string := ["url"; "src"; "path"; "img"]%string.

Fixpoint add_images (images : list img) (uniqueUrls : list jsval) : list jsval * bool :=
  match images with
  | [] => (uniqueUrls, true)
  | i :: images' =>
      match image_url image_fields i with
      | Some imgUrl => add_images images' (MangaBuddy.add_new uniqueUrls imgUrl)
      | None => (uniqueUrls, false)
      end
  end.

Definition method3_pattern (JSON_parse : jsstring -> parsed) (script : jsstring)
    (pattern : regex) (uniqueUrls : list jsval) : list jsval * bool :=
  match exec pattern script with
  | Some m =>
      match group m 1 with
      | Some (c :: text) =>
          match JSON_parse (c :: text) with
          | SyntaxError => (uniqueUrls, true)
          | NotArray => (uniqueUrls, (length uniqueUrls =? 0)%nat)
          | ParsedArray images =>
              let '(set, completed) := add_images images uniqueUrls in
              if completed then (set, (length set =? 0)%nat) else (set, true)
          end
      | _ => (uniqueUrls, true)
      end
  | None => (uniqueUrls, true)
  end.

Fixpoint method3_patterns (JSON_parse : jsstring -> parsed) (script : jsstring)
    (patterns : list regex) (uniqueUrls : list jsval) : list jsval :=
  match patterns with
  | [] => uniqueUrls
  | pattern :: patterns' =>
      let '(set, continue) := method3_pattern JSON_parse script pattern uniqueUrls in
      if continue then method3_patterns JSON_parse script patterns' set else set
  end.

Definition method3 (JSON_parse : jsstring -> parsed) (scripts : list jsstring)
    (uniqueUrls : list jsval) : list jsval :=
  if (length uniqueUrls =? 0)%nat
  then fold_left (fun set script => method3_patterns JSON_parse script arrayPatterns set)
                 scripts uniqueUrls
  else uniqueUrls.

(** The final filter, lines 352-359; [url.match] on a value that is not a
    string throws. *)
Definition wanted (url : jsstring) : bool :=
  match exec image_name url with
  | Some _ =>
      negb (includes url (js "avatar")) && negb (includes url (js "logo"))
      && negb (includes url (js "banner"))
  | None => false
  end.

Fixpoint filter_wanted (urls : list jsval) : completion (list jsval) :=
  match urls with
  | [] => Return []
  | VString s :: urls' =>
      match filter_wanted urls' with
      | Return kept => Return (if wanted s then VString s :: kept else kept)
      | Throw e => Throw e
      end
  | VOpaque _ _ :: _ => Throw (TypeError (js "url.match is not a function"))
  end.

Definition fetchChapterPages (JSON_parse : jsstring -> parsed) (data : jsstring)
    (reader_images : list ImgElement) (scripts : list jsstring)
    : completion (list PageRecord) :=
  let uniqueUrls := [] in
  let uniqueUrls := method1 reader_images uniqueUrls in
  let uniqueUrls := method2 data uniqueUrls in
  let uniqueUrls := method3 JSON_parse scripts uniqueUrls in
  match filter_wanted uniqueUrls with
  | Return kept => Return (sort by_index (MangaBuddy.number_pages kept))
  | Throw e =>
      Throw (Error (js "Failed to fetch chapter pages from MangaKakalot: "
                      ++ error_message e))
  end.

End MangaKakalot.

(** ** Reference: the short-circuit chain and the distinct URLs

    [first_nonempty] is the chain of the specification: the first list that
    is not empty.  [distinct] keeps the first occurrence of every truthy
    value of a list.  [json_urls] and [domain_urls] are what the first two
    methods of MangaPark find in a document, before any test. *)
Fixpoint first_nonempty {A : Type} (candidates : list (list A)) : list A :=
  match candidates with
  | [] => []
  | [] :: candidates' => first_nonempty candidates'
  | found :: _ => found
  end.

Definition distinct (values : list jsval) : list jsval :=
  fold_left add (List.filter is_truthy values) [].

Definition json_urls (htmlContent : jsstring) : list jsval :=
  map (fun m => VString (MangaPark.method1_url m)) (matchAll htmlContent jsonRegex).

Definition domain_urls (htmlContent : jsstring) : list jsval :=
  map (fun m => VString (whole m)) (matchAll htmlContent MangaPark.mpDomainRegex).

(** Pages numbered 1, 2, ... in order, with pairwise distinct URLs. *)
Definition well_numbered (pages : list PageRecord) : Prop :=
  NoDup (map url pages) /\ map index pages = seq 1 (length pages).

(** The numbers [n], [n - 1], ..., 1. *)
Definition descending (n : N) : list N :=
  rev (map N.of_nat (seq 1 (N.to_nat n))).

(** The chapter that the gap filling of MangaPark writes for the number
    [i], and the condition under which it fills gaps at all. *)
Definition synthesized (mangaId : jsstring) (extractedChapters : list Chapter.t) (i : nat)
    : Chapter.t :=
  let '(generatedId, chapterUrl) :=
    MangaPark.generated_id_url mangaId extractedChapters (N.of_nat i) in
  Chapter.mk generatedId (js "Chapter " ++ decimal (N.of_nat i))
             (decimal (N.of_nat i)) chapterUrl (js "Unknown") (Some true).

Definition fills_gaps (extractedChapters : list Chapter.t) : bool :=
  Qltb 0 (MangaPark.highest_number extractedChapters)
  && Qltb (inject_Z (Z.of_nat (length extractedChapters)))
          (MangaPark.highest_number extractedChapters / 2).

(** A link of a MangaPark chapter list, for the examples. *)
Definition chapter_link (n : string) : MangaPark.ChapterAnchor :=
  MangaPark.mkAnchor (Some (js "/title/87295-en-eleceed/960587" ++ js n ++ js "-chapter-" ++ js n))
                     (js "Chapter " ++ js n) (js "2 days ago").

(** The state of a pushing loop of MangaPark is [tidy] when the pages are
    well numbered, the set holds exactly their URLs and the counter is the
    next index.  [keep] is one step of such a loop seen on the URLs. *)
Definition tidy (st : MangaPark.push_state) : Prop :=
  well_numbered (MangaPark.pages st) /\
  MangaPark.existingUrls st = map url (MangaPark.pages st) /\
  MangaPark.next_index st = length (MangaPark.pages st) + 1.

Definition keep (urls : list jsval) (v : jsval) : list jsval :=
  if is_truthy v then add urls v else urls.

(** * Further parts of the code *)

(** ** More on the similarity scorer *)

(** Lower-casing is [stable] on a string when it keeps its length and
    lower-casing the result again changes nothing, as it is for every ASCII
    string. *)
Definition stable (toLowerCase : jsstring -> jsstring) (s : jsstring) : Prop :=
  length (toLowerCase s) = length s /\ toLowerCase (toLowerCase s) = toLowerCase s.

(** A string is [not_blank] when it has at least one code unit. *)
Definition not_blank (s : jsstring) : bool := negb (length s =? 0)%nat.

(** ** [AnilistProvider.getInfo]

    The GraphQL request is a network call: [fetch] maps the identifier and
    the state of the outside world to the parsed response (or to the error
    of a failed request) and a new state.  Of the response the provider
    reads [errors] (the messages of its entries; [None] when the property
    is missing), [data.Media] ([None] when [data] or [Media] is missing),
    the three titles and the synonyms. *)
Module Anilist.

Record Title : Type := mkTitle {
  romaji : option jsstring;
  english : option jsstring;
  native : option jsstring
}.

Record AnimeInfo : Type := mkInfo {
  title : Title;
  synonyms : list jsstring
}.

Record MediaData : Type := mkMedia {
  media_title : option Title;
  media_synonyms : option (list jsstring)
}.

Record Response : Type := mkResponse {
  errors : option (list jsstring);
  Media : option MediaData
}.

(** The body of the [try] block after the response has arrived. *)
Definition read_response (animeId : jsstring) (data : Response) : completion AnimeInfo :=
  match errors data with
  | Some (message :: _) => Throw (Error (js "Anilist API error: " ++ message))
  | Some [] => Throw (TypeError (js "Cannot read properties of undefined (reading 'message')"))
  | None =>
      match Media data with
      | None => Throw (Error (js "No media found with ID " ++ animeId))
      | Some media =>
          match media_title media with
          | None => Throw (TypeError (js "Cannot read properties of null (reading 'romaji')"))
          | Some t =>
              Return {| title := t;
                        synonyms := match media_synonyms media with
                                    | Some l => l
                                    | None => []
                                    end |}
          end
      end
  end.

Definition getInfo {World : Type}
    (fetch : jsstring -> World -> completion Response * World)
    (animeId : jsstring) (w : World) : completion AnimeInfo * World :=
  let '(response, w') := fetch animeId w in
  let outcome :=
    match response with
    | Return data => read_response animeId data
    | Throw error => Throw error
    end in
  (match outcome with
   | Return info => Return info
   | Throw error => Throw (Error (js "Failed to fetch anime info: " ++ error_message error))
   end, w').

End Anilist.

(** ** The mapping methods of class [Mapper], src/providers/mapper.js *)

(** A call to the outside that is not a provider search: it changes the
    world and leaves the log of searches alone. *)
Definition external {World A : Type} (f : World -> completion A * World)
    : Mapper.M World A :=
  fun s => let '(r, w) := f (fst s) in (r, (w, snd s)).

(** [a || b] on values that are strings or [null]. *)
Definition js_or (a b : option jsstring) : option jsstring :=
  match a with
  | Some (_ :: _) => a
  | _ => b
  end.

(** [values.filter(Boolean)] on values that are strings or [null]. *)
Definition filter_Boolean (values : list (option jsstring)) : list jsstring :=
  flat_map (fun v => match v with
                     | Some (c :: s) => [c :: s]
                     | _ => []
                     end) values.

(** [[...new Set(values)]]: the distinct values in the order of their
    first occurrence. *)
Definition Set_values (values : list jsstring) : list jsstring :=
  fold_left (fun seen v => if existsb (jsstring_eqb v) seen then seen else seen ++ [v])
            values [].

Module Mapping.

(** The candidates of a MangaDex search carry alternative titles: an array
    of objects, each given here by the values of its properties in
    enumeration order; a candidate without the property has none. *)
Record DexCandidate : Type := mkDex {
  dex_id : jsstring;
  dex_title : jsstring;
  altTitles : list (list jsstring)
}.

Inductive dex_reply : Type :=
| DexNoReply
| DexReply (results : option (list DexCandidate)).

(** What a mapping method returns, as far as it is computed here: the
    other properties are copied from the selected candidate and from the
    details. *)
Record Mapped (C : Type) : Type := mkMapped {
  anilist_id : jsstring;
  anilist_title : option jsstring;
  provider_id : jsstring;
  provider_title : jsstring;
  chapters : list C
}.
Arguments mkMapped {C}.
Arguments anilist_id {C}.
Arguments anilist_title {C}.
Arguments provider_id {C}.
Arguments provider_title {C}.
Arguments chapters {C}.

(** [Math.max] on two scores. *)
Definition Math_max (x y : Q) : Q := if Qltb x y then y else x.

Section WithProviders.

Variable toLowerCase : jsstring -> jsstring.
Variable World : Type.

Local Abbreviation M := (Mapper.M World).
Local Abbreviation ret := (Mapper.ret World).
Local Abbreviation throw := (Mapper.throw World).
Local Abbreviation bind := (Mapper.bind World).
Local Abbreviation try_catch := (Mapper.try_catch World).
Local Abbreviation lift := (Mapper.lift World).

(** *** [getChaptersByAnilistId] (MangaDex), lines 55-136 *)

(** The inner loops over the alternative titles, lines 92-99. *)
Definition alt_similarity (manga : DexCandidate) (titleToMatch : jsstring) (maxSimilarity : Q)
    : Q :=
  fold_left (fun maxSimilarity altTitle =>
               fold_left (fun maxSimilarity value =>
                            Math_max maxSimilarity
                              (Mapper.stringSimilarity toLowerCase value titleToMatch))
                         altTitle maxSimilarity)
            (altTitles manga) maxSimilarity.

(** The loop over [titlesToMatch], lines 87-101. *)
Definition maxSimilarity (titlesToMatch : list jsstring) (manga : DexCandidate) : Q :=
  fold_left (fun maxSimilarity titleToMatch =>
               let similarity :=
                 Mapper.stringSimilarity toLowerCase (dex_title manga) titleToMatch in
               alt_similarity manga titleToMatch (Math_max maxSimilarity similarity))
            titlesToMatch 0%Q.

(** The loop over the results, lines 83-107; the pair is
    [(bestMatch, highestSimilarity)]. *)
Definition dex_scan (results : list DexCandidate) (titlesToMatch : list jsstring)
    : option DexCandidate * Q :=
  fold_left (fun st manga =>
               let m := maxSimilarity titlesToMatch manga in
               if Qltb (snd st) m then (Some manga, m) else st)
            results (None, 0%Q).

(** Lines 109-113; reading [title] of a missing first result throws. *)
Definition dex_first (results : list DexCandidate) : completion DexCandidate :=
  match results with
  | r :: _ => Return r
  | [] => Throw (TypeError (js "Cannot read properties of undefined (reading 'title')"))
  end.

Definition dex_bestMatch (results : list DexCandidate) (titlesToMatch : list jsstring)
    : completion DexCandidate :=
  let '(bestMatch, highestSimilarity) := dex_scan results titlesToMatch in
  match bestMatch with
  | None => dex_first results
  | Some best =>
      if Qltb highestSimilarity (4 # 10)%Q then dex_first results else Return best
  end.

Definition dex_no_results (r : dex_reply) : bool :=
  match r with
  | DexNoReply => true
  | DexReply None => true
  | DexReply (Some l) => (length l =? 0)%nat
  end.

Definition dex_found (r : dex_reply) : list DexCandidate :=
  match r with
  | DexReply (Some l) => l
  | _ => []
  end.

Section MangaDex.

Variable getInfo : jsstring -> World -> completion Anilist.AnimeInfo * World.
Variable dex_search : jsstring -> World -> completion dex_reply * World.
Variable Details : Type.
Variable C : Type.
Variable details_chapters : Details -> option (list C).
Variable getMangaInfo : jsstring -> World -> completion Details * World.

Definition getChaptersByAnilistId (anilistId : jsstring) : M (Mapped C) :=
  try_catch
    (bind (external (getInfo anilistId)) (fun animeInfo =>
       let t := Anilist.title animeInfo in
       let searchTitle :=
         match js_or (Anilist.english t) (Anilist.romaji t) with
         | Some (c :: s) => c :: s
         | _ => js "Manga"
         end in
       bind (external (dex_search searchTitle)) (fun searchResults =>
         if dex_no_results searchResults then
           throw (Error (js "No matching manga found on Mangadex for title: " ++ searchTitle))
         else
           let titlesToMatch := filter_Boolean [Anilist.romaji t; Anilist.english t] in
           bind (lift (dex_bestMatch (dex_found searchResults) titlesToMatch))
                (fun bestMatch =>
           bind (external (getMangaInfo (dex_id bestMatch))) (fun mangadexInfo =>
             ret {| anilist_id := anilistId;
                    anilist_title := js_or (Anilist.english t) (Anilist.romaji t);
                    provider_id := dex_id bestMatch;
                    provider_title := dex_title bestMatch;
                    chapters := match details_chapters mangadexInfo with
                                | Some l => l
                                | None => []
                                end |})))))
    (fun error => throw (Error (js "Mapping error: " ++ error_message error))).

End MangaDex.

(** *** [searchMangaBuddy], lines 396-431, and [searchMangaKakalot],
    lines 503-532 *)

Definition searchMangaBuddy := Mapper.search_with_synonyms toLowerCase World "MangaBuddy".

(** The loop of [searchMangaKakalot]: a synonym that is empty or blank is
    passed over without a query. *)
Fixpoint try_synonyms_kakalot
    (search : jsstring -> World -> completion Mapper.search_reply * World)
    (t : jsstring) (synonyms rest : list jsstring) : M (option ListingCandidate) :=
  match rest with
  | [] => ret None
  | synonym :: rest' =>
      if not_blank synonym && not_blank (trim synonym) then
        bind (Mapper.call World search synonym) (fun synonymResults =>
          if Mapper.has_results synonymResults
          then bind (lift (Mapper.findBestMatch toLowerCase (Mapper.found synonymResults)
                             t synonyms))
                    (fun best => ret (Some best))
          else try_synonyms_kakalot search t synonyms rest')
      else try_synonyms_kakalot search t synonyms rest'
  end.

Definition searchMangaKakalot
    (search : jsstring -> World -> completion Mapper.search_reply * World)
    (t : jsstring) (synonyms : list jsstring) : M ListingCandidate :=
  try_catch
    (bind (Mapper.call World search t) (fun searchResults =>
       if Mapper.no_results searchResults then
         bind (if (0 <? length synonyms)%nat
               then try_synonyms_kakalot search t synonyms synonyms
               else ret None)
              (fun returned =>
                 match returned with
                 | Some best => ret best
                 | None => throw (Error (js "No matching manga found on MangaKakalot for title: "
                                           ++ t))
                 end)
       else lift (Mapper.findBestMatch toLowerCase (Mapper.found searchResults) t synonyms)))
    (fun error =>
       throw (Error (js "Failed to search manga on MangaKakalot: " ++ error_message error))).

(** *** The mapping methods of the four scraped providers, lines 286-339,
    342-393, 447-500 and 545-593

    The four methods differ in the provider they name, in the search chain
    they run and, for MangaKakalot, in dropping empty synonyms first.  When
    all three titles are missing the chain is entered with [null] in place
    of the title; that run is outside this model and is kept as the
    parameter [search_null_title]. *)

Definition searchTitle (animeInfo : Anilist.AnimeInfo) : option jsstring :=
  let t := Anilist.title animeInfo in
  js_or (js_or (Anilist.english t) (Anilist.romaji t)) (Anilist.native t).

Definition altTitles_of (animeInfo : Anilist.AnimeInfo) : list jsstring :=
  let t := Anilist.title animeInfo in
  filter_Boolean [Anilist.romaji t; Anilist.english t; Anilist.native t].

Definition synonyms_of (animeInfo : Anilist.AnimeInfo) : list jsstring :=
  Set_values (Anilist.synonyms animeInfo ++ altTitles_of animeInfo).

Definition synonyms_of_kakalot (animeInfo : Anilist.AnimeInfo) : list jsstring :=
  Set_values (List.filter not_blank (Anilist.synonyms animeInfo) ++ altTitles_of animeInfo).

Section Scraped.

Variable getInfo : jsstring -> World -> completion Anilist.AnimeInfo * World.
Variable search : jsstring -> World -> completion Mapper.search_reply * World.
Variable Details : Type.
Variable C : Type.
Variable details_chapters : Details -> option (list C).
Variable getMangaInfo : jsstring -> World -> completion Details * World.
Variable search_null_title : list jsstring -> M ListingCandidate.

(** [getAsuraScansInfo] and its three siblings. *)
Definition getProviderInfo (provider : string) (mangaId : jsstring) : M Details :=
  try_catch (external (getMangaInfo mangaId))
    (fun error =>
       throw (Error (js "Failed to get manga info from " ++ js provider ++ js ": "
                       ++ error_message error))).

Definition getChaptersFrom (provider : string)
    (synonyms_for : Anilist.AnimeInfo -> list jsstring)
    (searchProvider : jsstring -> list jsstring -> M ListingCandidate)
    (anilistId : jsstring) : M (Mapped C) :=
  try_catch
    (bind (external (getInfo anilistId)) (fun animeInfo =>
       let synonyms := synonyms_for animeInfo in
       bind (match searchTitle animeInfo with
             | Some t => searchProvider t synonyms
             | None => search_null_title synonyms
             end) (fun bestMatch =>
       bind (getProviderInfo provider (id bestMatch)) (fun info =>
         let t := Anilist.title animeInfo in
         ret {| anilist_id := anilistId;
                anilist_title := js_or (Anilist.english t) (Anilist.romaji t);
                provider_id := id bestMatch;
                provider_title := title bestMatch;
                chapters := match details_chapters info with
                            | Some l => l
                            | None => []
                            end |}))))
    (fun error =>
       throw (Error (js provider ++ js " mapping error: " ++ error_message error))).

Definition getChaptersByAnilistIdFromAsura :=
  getChaptersFrom "AsuraScans" synonyms_of (Mapper.searchAsuraScans toLowerCase World search).

Definition getChaptersByAnilistIdFromMangaPark :=
  getChaptersFrom "MangaPark" synonyms_of (Mapper.searchMangaPark toLowerCase World search).

Definition getChaptersByAnilistIdFromMangaBuddy :=
  getChaptersFrom "MangaBuddy" synonyms_of (searchMangaBuddy search).

Definition getChaptersByAnilistIdFromMangaKakalot :=
  getChaptersFrom "MangaKakalot" synonyms_of_kakalot (searchMangaKakalot search).

End Scraped.

End WithProviders.
End Mapping.

(** *** Reference: the titles of a MangaDex candidate, its own and the
    alternative ones *)
Definition dex_titles (manga : Mapping.DexCandidate) : list jsstring :=
  Mapping.dex_title manga :: concat (Mapping.altTitles manga).


(** *** Reference: a run of the MangaKakalot chain

    [kakalot_queried] are the synonyms the chain may send: those that are
    not blank.  [chain_outcome_over] is [chain_outcome] with the list of
    queries told apart from the list of synonyms the selector sees. *)
Definition kakalot_queried (synonyms : list jsstring) : list jsstring :=
  List.filter (fun s => not_blank s && not_blank (trim s)) synonyms.

Definition chain_outcome_over (provider : string) (toLowerCase : jsstring -> jsstring)
    (t : jsstring) (queried synonyms : list jsstring)
    (out : completion ListingCandidate)
    (log : list (jsstring * completion Mapper.search_reply)) : Prop :=
  exists earlier q reply,
    log = earlier ++ [(q, reply)] /\
    map fst log = take (length log) (t :: queried) /\
    Forall quiet earlier /\
    match reply with
    | Throw e =>
        out = Throw (Error (js "Failed to search manga on " ++ js provider ++ js ": "
                              ++ error_message e))
    | Return r =>
        if Mapper.has_results r
        then exists c,
               In c (Mapper.found r) /\
               Mapper.findBestMatch toLowerCase (Mapper.found r) t synonyms = Return c /\
               out = Return c
        else map fst log = t :: queried /\
             out = Throw (Error (js "Failed to search manga on " ++ js provider ++ js ": "
                                   ++ (js "No matching manga found on " ++ js provider
                                         ++ js " for title: " ++ t)))
    end.

(** ** The chapter routes of src/index.js, lines 23-61 and 204-366 *)
Module Routes.

Definition is_hex_digit (c : N) : bool :=
  (is_digit c || (97 <=? c) && (c <=? 102) || (65 <=? c) && (c <=? 70))%N.

(** [isNaN(parseInt(text))]: after leading white space and a sign there
    is no digit, or only the prefix 0x without a hexadecimal digit. *)
Definition parseInt_isNaN (text : jsstring) : bool :=
  let s := trimStart text in
  let s := match s with
           | 45%N :: s' => s'
           | 43%N :: s' => s'
           | _ => s
           end in
  match s with
  | [] => true
  | c :: rest =>
      match rest with
      | x :: rest' =>
          if ((c =? 48) && ((x =? 120) || (x =? 88)))%N then
            match rest' with
            | h :: _ => negb (is_hex_digit h)
            | [] => true
            end
          else negb (is_digit c)
      | [] => negb (is_digit c)
      end
  end.

(** What the handler sends: [res.json(result)], or a status with an error
    object. *)
Inductive response (R : Type) : Type :=
| Json (result : R)
| Failure (status : nat) (error message : jsstring) (details : option jsstring).
Arguments Json {R} result.
Arguments Failure {R} status error message details.

Definition status_of {R : Type} (r : response R) : nat :=
  match r with
  | Json _ => 200
  | Failure status _ _ _ => status
  end.

(** The [catch] block of a chapter route. *)
Definition on_error {R : Type} (provider : string) (anilistId : jsstring) (error : js_error)
    : response R :=
  let message := error_message error in
  if includes message (js "No media found with ID")
     || includes message (js "Anilist API error") then
    Failure 404 (js "Anilist ID not found")
      (js "The Anilist ID " ++ anilistId
         ++ js " could not be found. Please verify the ID is correct.")
      (Some message)
  else if includes message (js "No matching manga found on " ++ js provider) then
    Failure 404 (js "Manga not found")
      (js "Could not find matching manga on " ++ js provider)
      (Some message)
  else Failure 500 (js "Server error") message None.

Section WithMapper.

Variable World : Type.
Variable R : Type.

Definition chapters_route (provider : string)
    (mapper_method : jsstring -> Mapper.M World R) (anilistId : jsstring)
    (st : World * Mapper.call_log) : response R * (World * Mapper.call_log) :=
  if negb (not_blank anilistId) || parseInt_isNaN anilistId then
    (Failure 400 (js "Invalid Anilist ID") (js "Please provide a valid numeric Anilist ID")
       None, st)
  else
    match mapper_method anilistId st with
    | (Return result, st') => (Json result, st')
    | (Throw error, st') => (on_error provider anilistId error, st')
    end.

Definition mangadex_chapters := chapters_route "Mangadex".
Definition asurascans_chapters := chapters_route "AsuraScans".
Definition mangapark_chapters := chapters_route "MangaPark".
Definition mangabuddy_chapters := chapters_route "MangaBuddy".
Definition mangakakalot_chapters := chapters_route "MangaKakalot".

End WithMapper.
End Routes.

(** *** Small worlds for the examples: Anilist has no such media, a
    provider that never finds anything, details without chapters *)
Definition fetch_no_media (animeId : jsstring) (w : unit)
    : completion Anilist.Response * unit :=
  (Return (Anilist.mkResponse None None), w).

Definition fetch_one_piece (animeId : jsstring) (w : unit)
    : completion Anilist.Response * unit :=
  (Return (Anilist.mkResponse None
             (Some (Anilist.mkMedia
                      (Some (Anilist.mkTitle (Some (js "One Piece")) (Some (js "ONE PIECE"))
                               None))
                      (Some [js "OP"; js " "])))), w).

Definition search_nothing (query : jsstring) (w : unit)
    : completion Mapper.search_reply * unit :=
  (Return (Mapper.Reply (Some [])), w).

Definition dex_search_nothing (query : jsstring) (w : unit)
    : completion Mapping.dex_reply * unit :=
  (Return (Mapping.DexReply (Some [])), w).

Definition details_nothing (mangaId : jsstring) (w : unit) : completion unit * unit :=
  (Return tt, w).

Definition chapters_nothing (details : unit) : option (list unit) := None.

Definition null_title_fails (synonyms : list jsstring) : Mapper.M unit ListingCandidate :=
  Mapper.throw unit (TypeError (js "null title")).


(** ** Chapter lists and chapter references of the providers *)

(** The key the chapter lists are sorted by, [parseFloat(number) || 0],
    and a list whose keys never increase.  The key is the exact value of
    the numeral; it orders chapters as the doubles of the code do when the
    numbers are plain numerals. *)
Definition chapter_key (c : Chapter.t) : Q := default 0%Q (parseFloat (Chapter.number c)).

Fixpoint descending_by {A : Type} (key : A -> Q) (l : list A) : Prop :=
  match l with
  | [] => True
  | x :: l' => Forall (fun y => (key y <= key x)%Q) l' /\ descending_by key l'
  end.

(** [getMangaInfo] of the first [MangaParkProvider] class,
    src/providers/mangapark.js lines 120-188: the chapter list.  The
    anchors are what [$('div[data-name=chapter-list] a')] selects, with the
    text of the [time span] of the enclosing row. *)
Module MangaParkFirst.

(** One turn of the loop of lines 144-168: the chapter pushed for an
    anchor, none for an anchor without [href]. *)
Definition chapter_of (el : MangaPark.ChapterAnchor) : list Chapter.t :=
  match MangaPark.href el with
  | Some (c :: h) =>
      let chapterHref := c :: h in
      let chapterText := trim (MangaPark.text el) in
      let '(id, number) :=
        match exec MangaPark.chapterPattern chapterText with
        | Some chapterMatch =>
            match parseFloat (default [] (group chapterMatch 1)) with
            | Some chapterNum =>
                (js "chapter-" ++ number_toString chapterNum, number_toString chapterNum)
            | None => (js "chapter-NaN", js "NaN")
            end
        | None => (js "chapter-null", [])
        end in
      [Chapter.mk id chapterText number
                  (if startsWith chapterHref (js "/")
                   then MangaPark.baseUrl ++ chapterHref else chapterHref)
                  (trim (MangaPark.time_text el))
                  None]
  | _ => []
  end.

Definition getMangaInfo (anchors : list MangaPark.ChapterAnchor) : list Chapter.t :=
  sort MangaPark.by_number_descending (flat_map chapter_of anchors).

(** Lines 195-203: the URL requested for a chapter reference. *)
Definition chapterUrl (chapterId : jsstring) : jsstring :=
  if startsWith chapterId (js "http") then chapterId
  else MangaPark.baseUrl ++ js "/title/" ++ chapterId.

End MangaParkFirst.

(** Resolving a chapter reference, the first lines of [fetchChapterPages]
    of MangaBuddy and of MangaKakalot.  [pathname] is the [pathname] of
    [new URL(chapterId)], which throws on text that is not a URL; the
    error is then wrapped by the [catch] of the method. *)
Module ChapterReference.

(** [parts.join('/')] *)
Fixpoint join (sep : N) (parts : list jsstring) : jsstring :=
  match parts with
  | [] => []
  | [p] => p
  | p :: ps => p ++ sep :: join sep ps
  end.

(** The split of a path on its first slash, the pair
    [(mangaId, chapterPath)]; the test on the number of parts always holds
    for a path with a slash. *)
Definition locate (chapterPath : jsstring) : jsstring * jsstring :=
  if includes chapterPath (js "/") then
    let parts := split chapterPath 47 in
    if (2 <=? length parts)%nat
    then (List.hd [] parts, join 47 (List.tl parts))
    else ([], chapterPath)
  else ([], chapterPath).

Section WithURL.
Variable pathname : jsstring -> completion jsstring.

(** The path that is split: the reference itself, or the path of the URL
    without its leading slash. *)
Definition path_of (chapterId : jsstring) : completion jsstring :=
  if startsWith chapterId (js "http") then
    match pathname chapterId with
    | Return p => Return (drop 1 p)
    | Throw e => Throw e
    end
  else Return chapterId.

Definition resolve (chapterId : jsstring) : completion (jsstring * jsstring) :=
  match path_of chapterId with
  | Throw e => Throw e
  | Return chapterPath => Return (locate chapterPath)
  end.

Definition mangabuddy_url (chapterId : jsstring) : completion jsstring :=
  match resolve chapterId with
  | Throw e => Throw e
  | Return (mangaId, chapterPath) =>
      Return (if negb (length mangaId =? 0)%nat
              then MangaBuddy.baseUrl ++ js "/" ++ mangaId ++ js "/" ++ chapterPath
              else MangaBuddy.baseUrl ++ js "/" ++ chapterPath)
  end.

Definition mangakakalot_baseUrl : jsstring := js "https://www.mangakakalot.gg".

Definition mangakakalot_url (chapterId : jsstring) : completion jsstring :=
  match resolve chapterId with
  | Throw e => Throw e
  | Return (mangaId, chapterPath) =>
      Return (if negb (length mangaId =? 0)%nat
              then mangakakalot_baseUrl ++ js "/manga/" ++ mangaId ++ js "/" ++ chapterPath
              else mangakakalot_baseUrl ++ js "/" ++ chapterPath)
  end.

End WithURL.

(** A reference without its leading slash, if it has one. *)
Definition strip_slash (s : jsstring) : jsstring :=
  match s with
  | 47%N :: s' => s'
  | _ => s
  end.

End ChapterReference.

(** [getChapterImages] of MangaBuddy, lines 199-234 of the provider: the
    images pushed for the elements that [$('.chapter-images img')]
    selects. *)
Module MangaBuddyImages.

Definition image (i : nat) (element : ImgElement) : list PageRecord :=
  let src := or_attr (attr_data_src element) (or_attr (attr_src element) []) in
  if negb (length src =? 0)%nat then [mkPage (VString src) (i + 1)] else [].

Definition getChapterImages (selected : list ImgElement) : list PageRecord :=
  concat (imap image selected).

End MangaBuddyImages.

(** *** Reference: strictly increasing numbers, and the source of an image
    element, [data-src] before [src] *)
Fixpoint increasing (l : list nat) : Prop :=
  match l with
  | [] => True
  | x :: l' => Forall (fun y => x < y) l' /\ increasing l'
  end.

Definition element_src (element : ImgElement) : jsstring :=
  or_attr (attr_data_src element) (or_attr (attr_src element) []).

(** ** Replacing runs of characters *)

(** *** Reference: what replacing every unit of a class, or every run of
    units of a class, amounts to.  [drop_run] drops the leading units of
    the class; [squeeze] writes the replacement once for every maximal run,
    [in_run] telling that the unit before belonged to a run. *)
Fixpoint drop_run (p : N -> bool) (s : jsstring) : jsstring :=
  match s with
  | c :: s' => if p c then drop_run p s' else s
  | [] => []
  end.

Fixpoint squeeze (p : N -> bool) (replacement : jsstring) (in_run : bool) (s : jsstring)
    : jsstring :=
  match s with
  | [] => []
  | c :: s' =>
      if p c then (if in_run then [] else replacement) ++ squeeze p replacement true s'
      else c :: squeeze p replacement false s'
  end.

(** No two neighbours both in the class. *)
Fixpoint no_adjacent (p : N -> bool) (s : jsstring) : Prop :=
  match s with
  | c :: s' =>
      match s' with
      | d :: _ => (p c && p d = false) /\ no_adjacent p s'
      | [] => True
      end
  | [] => True
  end.

(** ** MangaKakalot: [makeUrlFriendly] and [search], lines 20-167 of the
    provider *)
Module MangaKakalotSearch.

Definition baseUrl : jsstring := js "https://www.mangakakalot.gg".

(** [\w] *)
Definition is_word (c : N) : bool :=
  (is_digit c || is_lower c || (65 <=? c) && (c <=? 90) || (c =? 95))%N.

(** [/\s*\([^)]*\)\s*/g] *)
Definition parenthesised : regex :=
  cat [star space; chr "("; star (none_of ")"); chr ")"; star space].
(** [/['Q:,!?]/g], writing Q for the double quote *)
Definition punctuation : regex := Unit (fun c => one_of "':,!?" c || (c =? 34)%N).
(** [/[^\w_]/g] *)
Definition not_word : regex := Unit (fun c => negb (is_word c || (c =? 95)%N)).

Definition makeUrlFriendly (toLowerCase : jsstring -> jsstring) (title : jsstring)
    : jsstring :=
  if (length title =? 0)%nat then []
  else
    let friendly := replace_all title parenthesised (js " ") in
    let friendly := toLowerCase friendly in
    let friendly := replace_all friendly punctuation [] in
    let friendly := replace_all friendly (plus space) (js "_") in
    let friendly := replace_all friendly (plus (chr "-")) (js "_") in
    let friendly := replace_all friendly not_word [] in
    let friendly := replace_all friendly (plus (chr "_")) (js "_") in
    trim friendly.

(** What is read from a fetched result page: the extracted items, and of
    the page navigation the text of the selected page, whether there is a
    last-page link and whether it is marked as current, its text, and the
    text of the total. *)
Record ResultPage (Item : Type) : Type := mkResultPage {
  items : list Item;
  page_select : jsstring;
  page_last_present : bool;
  page_last_blue : bool;
  page_last_text : jsstring;
  total_text : jsstring
}.
Arguments items {Item}.
Arguments page_select {Item}.
Arguments page_last_present {Item}.
Arguments page_last_blue {Item}.
Arguments page_last_text {Item}.
Arguments total_text {Item}.

Record Pagination : Type := mkPagination {
  currentPage : Z;
  hasNextPage : bool;
  totalPages : N;
  totalMangas : N
}.

(** [parseInt(text)]: leading white space, a sign, then decimal digits, or
    hexadecimal digits after the prefix 0x; [None] is [NaN]. *)
Definition hex_value (c : N) : Z :=
  if is_digit c then Z.of_N c - 48
  else if ((97 <=? c) && (c <=? 102))%N then Z.of_N c - 87
  else Z.of_N c - 55.

Fixpoint take_hex (s : jsstring) : jsstring :=
  match s with
  | c :: s' => if Routes.is_hex_digit c then c :: take_hex s' else []
  | [] => []
  end.

Definition parseInt_any (text : jsstring) : option Z :=
  let s := trimStart text in
  let '(negative, s) :=
    match s with
    | 45%N :: s' => (true, s')
    | 43%N :: s' => (false, s')
    | _ => (false, s)
    end in
  let magnitude :=
    match s with
    | 48%N :: x :: s' =>
        if ((x =? 120) || (x =? 88))%N then
          match take_hex s' with
          | [] => None
          | ds => Some (fold_left (fun acc c => acc * 16 + hex_value c) ds 0)%Z
          end
        else Some (digits_value (fst (take_digits s)))
    | _ =>
        match fst (take_digits s) with
        | [] => None
        | ds => Some (digits_value ds)
        end
    end in
  match magnitude with
  | Some n => Some (if negative then - n else n)%Z
  | None => None
  end.

(** [/Last\((\d+)\)/] and [/Total: (\d+) stories/] *)
Definition lastPageRegex : regex :=
  cat [lit "Last("; Capture 1 (plus digit); chr ")"].
Definition totalRegex : regex :=
  cat [lit "Total: "; Capture 1 (plus digit); lit " stories"].

Definition counted (r : regex) (text : jsstring) (otherwise : N) : N :=
  match exec r text with
  | Some m =>
      match group m 1 with
      | Some (c :: ds) => parseInt (c :: ds)
      | _ => otherwise
      end
  | None => otherwise
  end.

(** Lines 113-136. *)
Definition pagination_of {Item : Type} (page : N) (doc : ResultPage Item) : Pagination :=
  {| currentPage := match parseInt_any (trim (page_select doc)) with
                    | Some n => if (n =? 0)%Z then Z.of_N page else n
                    | None => Z.of_N page
                    end;
     hasNextPage := page_last_present doc && negb (page_last_blue doc);
     totalPages := counted lastPageRegex (trim (page_last_text doc)) 1;
     totalMangas := counted totalRegex (trim (total_text doc)) 0 |}.

Definition no_pagination (page : N) : Pagination :=
  {| currentPage := Z.of_N page; hasNextPage := false; totalPages := 0; totalMangas := 0 |}.

Section WithNetwork.

Variable toLowerCase : jsstring -> jsstring.
Variable encodeURIComponent : jsstring -> completion jsstring.
Variable World : Type.
Variable Item : Type.
(** Fetching a URL and reading the page: the whole inner [try] block up
    to the test on the number of items. *)
Variable load : jsstring -> World -> completion (ResultPage Item) * World.

Definition searchUrl (searchQuery : jsstring) (page : N) : jsstring :=
  baseUrl ++ js "/search/story/" ++ searchQuery
    ++ (if (1 <? page)%N then js "?page=" ++ decimal page else []).

(** One turn of the loop over the search queries: [Some] is leaving the
    loop with results, [None] is going on to the next query. *)
Definition attempt (page : N) (searchQuery : jsstring) (w : World)
    : option (list Item * Pagination) * World :=
  if (length searchQuery =? 0)%nat then (None, w)
  else
    match load (searchUrl searchQuery page) w with
    | (Return doc, w') =>
        if (0 <? length (items doc))%nat
        then (Some (items doc, pagination_of page doc), w')
        else (None, w')
    | (Throw _, w') => (None, w')
    end.

Definition search (query : jsstring) (page : N) (w : World)
    : completion (list Item * Pagination) * World :=
  match encodeURIComponent query with
  | Throw error =>
      (Throw (Error (js "Failed to search manga on MangaKakalot: " ++ error_message error)), w)
  | Return encoded =>
      match attempt page encoded w with
      | (Some found, w') => (Return found, w')
      | (None, w') =>
          match attempt page (makeUrlFriendly toLowerCase query) w' with
          | (Some found, w'') => (Return found, w'')
          | (None, w'') => (Return ([], no_pagination page), w'')
          end
      end
  end.

End WithNetwork.
End MangaKakalotSearch.

(** ** MangaBuddy: the URL of [search], lines 41-47 of the provider, and
    [searchMangaBuddy] of the later [Mapper] class *)
Module MangaBuddySearch.

Definition searchUrl (encodeURIComponent : jsstring -> completion jsstring)
    (query : jsstring) : completion jsstring :=
  if includes query (js "+") then Return (MangaBuddy.baseUrl ++ js "/search?q=" ++ query)
  else
    match encodeURIComponent query with
    | Return formattedQuery => Return (MangaBuddy.baseUrl ++ js "/search?q=" ++ formattedQuery)
    | Throw e => Throw e
    end.

(** [text.replace(/\s+/g, '+')] *)
Definition with_plus_signs (text : jsstring) : jsstring :=
  replace_all text (plus space) (js "+").

Section WithProvider.

Variable toLowerCase : jsstring -> jsstring.
Variable World : Type.
Variable search : jsstring -> World -> completion Mapper.search_reply * World.

Fixpoint try_formatted (t : jsstring) (synonyms formattedSynonyms : list jsstring)
    : Mapper.M World (option ListingCandidate) :=
  match formattedSynonyms with
  | [] => Mapper.ret World None
  | formattedSynonym :: rest =>
      Mapper.bind World (Mapper.call World search formattedSynonym) (fun synonymResults =>
        if Mapper.has_results synonymResults
        then Mapper.bind World
               (Mapper.lift World
                  (Mapper.findBestMatch_revised toLowerCase (Mapper.found synonymResults)
                     t synonyms))
               (fun best => Mapper.ret World (Some best))
        else try_formatted t synonyms rest)
  end.

Definition searchMangaBuddy (t : jsstring) (synonyms : list jsstring)
    : Mapper.M World ListingCandidate :=
  Mapper.try_catch World
    (let formattedTitle := with_plus_signs t in
     let formattedSynonyms := map with_plus_signs synonyms in
     Mapper.bind World (Mapper.call World search formattedTitle) (fun searchResults =>
       if Mapper.no_results searchResults then
         Mapper.bind World
           (if (0 <? length formattedSynonyms)%nat
            then try_formatted t synonyms formattedSynonyms
            else Mapper.ret World None)
           (fun returned =>
              match returned with
              | Some best => Mapper.ret World best
              | None =>
                  Mapper.throw World
                    (Error (js "No matching manga found on MangaBuddy for title: " ++ t))
              end)
       else Mapper.lift World
              (Mapper.findBestMatch_revised toLowerCase (Mapper.found searchResults)
                 t synonyms)))
    (fun error =>
       Mapper.throw World
         (Error (js "Failed to search manga on MangaBuddy: " ++ error_message error))).

End WithProvider.
End MangaBuddySearch.

(** ** What the first two methods of MangaBuddy look at

    Written without the set of the code, as the two lists of MangaPark
    above: [buddy_list_urls] are the members of the comma-separated lists
    of a document that are not blank and name no avatar, icon or thumbnail,
    trimmed, in document order; [buddy_element_urls] are the sources of the
    selected elements, a placeholder or a thumbnail left out, a source with
    a comma giving its members that are not blank, trimmed. *)
Definition buddy_listed (url : jsstring) : bool :=
  negb (length url =? 0)%nat && negb (length (trim url) =? 0)%nat
  && negb (includes url (js "avatar")) && negb (includes url (js "icon"))
  && negb (includes url (js "thumb.")).

Definition buddy_list_urls (htmlContent : jsstring) : list jsval :=
  flat_map (fun m =>
              flat_map (fun url => if buddy_listed url then [VString (trim url)] else [])
                       (split (whole m) 44))
           (matchAll htmlContent MangaBuddy.commaListRegex).

Definition buddy_member (url : jsstring) : list jsval :=
  if negb (length url =? 0)%nat && negb (length (trim url) =? 0)%nat
  then [VString (trim url)] else [].

Definition buddy_element_urls (selected : list ImgElement) : list jsval :=
  flat_map (fun element =>
              let src := element_src element in
              if negb (length src =? 0)%nat
                 && negb (includes src (js "/static/common/x.gif"))
                 && negb (includes src (js "thumb."))
                 && negb (includes src (js "thumbnail."))
              then if includes src (js ",")
                   then flat_map buddy_member (split src 44)
                   else [VString src]
              else [])
           selected.

(** The page of the example for the first two methods of MangaBuddy: a
    script with a list of two images, and one lazy image. *)
Definition buddy_page : jsstring :=
  jsq "<script>var chapImages = `https://cdn.example.com/1.jpg,https://cdn.example.com/2.jpg`</script>".

Definition buddy_lazy_image : ImgElement :=
  mkImg (Some (js "https://cdn.example.com/3.jpg")) None.

(** ** [AsuraScansProvider], the class of providers/asurascans.js

    [getMangaInfo], lines 31-42 of the provider.  The client is the
    AsuraScans class of the extension library, and the details it returns
    are an object; [details_chapters] reads [mangaInfo.chapters], [None]
    when the object has no such property.  Line 35 reads
    [mangaInfo.chapters.length] for the log, which throws a [TypeError]
    on details without chapters; [cannot_read_length] is the message the
    engine gives it.  The [catch] block wraps every error. *)
Module AsuraScansProvider.
Section WithClient.

Variable World : Type.
Variable Details : Type.
Variable C : Type.
Variable details_chapters : Details -> option (list C).
Variable fetchMangaInfo : jsstring -> World -> completion Details * World.
Variable cannot_read_length : jsstring.

Definition getMangaInfo (mangaId : jsstring) (w : World) : completion Details * World :=
  let '(outcome, w') := fetchMangaInfo mangaId w in
  let logged :=
    match outcome with
    | Return mangaInfo =>
        match details_chapters mangaInfo with
        | Some _ => Return mangaInfo
        | None => Throw (TypeError cannot_read_length)
        end
    | Throw error => Throw error
    end in
  (match logged with
   | Return mangaInfo => Return mangaInfo
   | Throw error =>
       Throw (Error (js "Failed to get manga info from AsuraScans: " ++ error_message error))
   end, w').

End WithClient.
End AsuraScansProvider.

(** *** A small world for the examples of AsuraScans: the world is the list
    of requests made so far; the search lists two works, and the details
    of a work are its chapter ids, or lack the chapter list. *)
Definition fetch_solo_logged (animeId : jsstring) (w : list jsstring)
    : completion Anilist.Response * list jsstring :=
  (Return (Anilist.mkResponse None
             (Some (Anilist.mkMedia
                      (Some (Anilist.mkTitle (Some (js "Na Honjaman Level Up"))
                               (Some (js "Solo Leveling")) None))
                      (Some [js "Only I Level Up"])))),
   w ++ [js "anilist " ++ animeId]).

Definition two_listings : list ListingCandidate :=
  [ mkCandidate (js "solo-leveling-ragnarok") (js "Solo Leveling: Ragnarok");
    mkCandidate (js "solo-leveling") (js "Solo Leveling") ].

Definition search_two_listings (query : jsstring) (w : list jsstring)
    : completion Mapper.search_reply * list jsstring :=
  (Return (Mapper.Reply (Some two_listings)), w ++ [js "search " ++ query]).

Definition fetch_chapter_ids (mangaId : jsstring) (w : list jsstring)
    : completion (option (list jsstring)) * list jsstring :=
  (Return (Some (if jsstring_eqb mangaId (js "solo-leveling")
                 then [js "solo-leveling/chapter/2"; js "solo-leveling/chapter/1"]
                 else [js "solo-leveling-ragnarok/chapter/1"])),
   w ++ [js "info " ++ mangaId]).

Definition fetch_without_chapters (mangaId : jsstring) (w : list jsstring)
    : completion (option (list jsstring)) * list jsstring :=
  (Return None, w ++ [js "info " ++ mangaId]).

Definition null_title_unreached (synonyms : list jsstring)
    : Mapper.M (list jsstring) ListingCandidate :=
  Mapper.throw (list jsstring) (TypeError (js "null title")).

(** The message of V8 for reading [length] of [undefined]. *)
Definition v8_cannot_read_length : jsstring :=
  js "Cannot read properties of undefined (reading 'length')".

(** * Properties *)

(** ** The embedding on small inputs *)

Example editDistance_kitten_sitting :
  Mapper.editDistance toLowerCase_latin (js "Kitten") (js "sitting") = 3.
Proof. reflexivity. Qed.

Example stringSimilarity_mango :
  Mapper.stringSimilarity toLowerCase_latin (js "Example Manga") (js "Example Mango")
  = (12 # 13)%Q.
Proof. vm_compute. reflexivity. Qed.

Example toLowerCase_dotted_capital_i :
  toLowerCase_latin (304%N :: js "STANBUL") = 105%N :: 775%N :: js "stanbul".
Proof. reflexivity. Qed.

Example jsonRegex_matches :
  map (fun m => (whole m, group m 1))
      (matchAll (jsq "{`url`:`https://a.io/1.JPG`,`URL`:`2.png.webp`,`url`:`3.gif`}") jsonRegex)
  = [(jsq "`url`:`https://a.io/1.JPG`", Some (js "https://a.io/1.JPG"));
     (jsq "`URL`:`2.png.webp`", Some (js "2.png.webp"))].
Proof. vm_compute. reflexivity. Qed.

Example broadImageRegex_needs_a_following_unit :
  map whole (matchAll (jsq "`https://a.io/1.jpg` https://a.io/2.jpg?v=3 https://a.io/3.png")
                      broadImageRegex)
  = [js "https://a.io/2.jpg?"; js "https://a.io/3.png"].
Proof. vm_compute. reflexivity. Qed.

Example lazy_array_pattern :
  option_map (fun m => group m 1)
             (exec (var_array "images") (jsq "var images = [`a.jpg`,`b.jpg`] ; var x = [1];"))
  = Some (Some (jsq "[`a.jpg`,`b.jpg`]")).
Proof. vm_compute. reflexivity. Qed.

Example replace_examples :
  replace_all (js "a\u002Fb\u002Fc") escaped_u002F (js "/") = js "a/b/c" /\
  replace_first (js "https://mangapark.net/title/1-en-x/105-chapter-5")
                (cat [chr "/"; MangaPark.id_chapter; AtEnd]) (js "/chapter-2")
  = js "https://mangapark.net/title/1-en-x/chapter-2" /\
  split (js "a,b,,c") 44 = [js "a"; js "b"; []; js "c"] /\
  trim (js "  Chapter 12.5 ") = js "Chapter 12.5".
Proof. repeat split; vm_compute; reflexivity. Qed.

Example numbers_as_text :
  parseFloat (js "12.50") = Some (25 # 2)%Q /\
  number_toString (25 # 2) = js "12.5" /\
  parseFloat (js "abc") = None /\
  parseInt (js "0120") = 120%N /\
  decimal 4294967295 = js "4294967295".
Proof. repeat split; vm_compute; reflexivity. Qed.

Example findBestMatch_exact_title :
  Mapper.findBestMatch toLowerCase_latin
    [mkCandidate (js "2") (js "Example Mango"); mkCandidate (js "1") (js "Example Manga")]
    (js "Example Manga") []
  = Return (mkCandidate (js "1") (js "Example Manga")).
Proof. vm_compute. reflexivity. Qed.

Example findBestMatch_falls_back_to_first :
  Mapper.stringSimilarity toLowerCase_latin (js "Vagabond") (js "One Piece") = 0%Q /\
  Mapper.stringSimilarity toLowerCase_latin (js "Berserk") (js "One Piece") = (2 # 9)%Q /\
  Mapper.findBestMatch toLowerCase_latin
    [mkCandidate (js "1") (js "Vagabond"); mkCandidate (js "2") (js "Berserk")]
    (js "One Piece") []
  = Return (mkCandidate (js "1") (js "Vagabond")).
Proof. repeat split; vm_compute; reflexivity. Qed.



(** ** Levenshtein distance and edit scripts *)

Lemma levenshtein_nil_r a : levenshtein a [] = length a.
Proof. destruct a; reflexivity. Qed.

Lemma levenshtein_cons x y a b :
  levenshtein (x :: a) (y :: b) =
  Nat.min (Nat.min (S (levenshtein a (y :: b))) (S (levenshtein (x :: a) b)))
          ((if N.eqb x y then 0 else 1) + levenshtein a b).
Proof. reflexivity. Qed.

Lemma edit_script_delete_all a : edit_script a [] (length a).
Proof. induction a; simpl; constructor; auto. Qed.

Lemma edit_script_insert_all b : edit_script [] b (length b).
Proof. induction b; simpl; constructor; auto. Qed.

Lemma levenshtein_script a : forall b, edit_script a b (levenshtein a b).
Proof.
  induction a as [|x a IHa]; intros b.
  - apply edit_script_insert_all.
  - induction b as [|y b IHb].
    + rewrite levenshtein_nil_r. apply edit_script_delete_all.
    + rewrite levenshtein_cons.
      pose proof (IHa (y :: b)) as Hd.
      pose proof (IHa b) as Hs.
      destruct (N.eqb_spec x y) as [->|Hxy].
      * destruct (Nat.min_spec (Nat.min (S (levenshtein a (y :: b))) (S (levenshtein (y :: a) b)))
                    (0 + levenshtein a b)) as [[_ ->]|[_ ->]].
        -- destruct (Nat.min_spec (S (levenshtein a (y :: b))) (S (levenshtein (y :: a) b)))
             as [[_ ->]|[_ ->]]; [apply es_delete | apply es_insert]; assumption.
        -- apply es_keep; assumption.
      * destruct (Nat.min_spec (Nat.min (S (levenshtein a (y :: b))) (S (levenshtein (x :: a) b)))
                    (1 + levenshtein a b)) as [[_ ->]|[_ ->]].
        -- destruct (Nat.min_spec (S (levenshtein a (y :: b))) (S (levenshtein (x :: a) b)))
             as [[_ ->]|[_ ->]]; [apply es_delete | apply es_insert]; assumption.
        -- apply es_substitute; assumption.
Qed.

Lemma levenshtein_least a b n : edit_script a b n -> levenshtein a b <= n.
Proof.
  induction 1.
  - simpl; lia.
  - rewrite levenshtein_cons, N.eqb_refl. lia.
  - rewrite levenshtein_cons. destruct (N.eqb x y); lia.
  - destruct b as [|y b].
    + rewrite levenshtein_nil_r in *. simpl. lia.
    + rewrite levenshtein_cons. lia.
  - destruct a as [|x a].
    + simpl in *. lia.
    + rewrite levenshtein_cons. lia.
Qed.

Lemma edit_script_sym a b n : edit_script a b n -> edit_script b a n.
Proof. induction 1; constructor; auto. Qed.

Lemma levenshtein_sym a b : levenshtein a b = levenshtein b a.
Proof.
  apply Nat.le_antisymm; apply levenshtein_least, edit_script_sym, levenshtein_script.
Qed.

Lemma edit_script_snoc_keep a b n x :
  edit_script a b n -> edit_script (a ++ [x]) (b ++ [x]) n.
Proof. induction 1; simpl; try (constructor; assumption). repeat constructor. Qed.

Lemma edit_script_snoc_substitute a b n x y :
  edit_script a b n -> edit_script (a ++ [x]) (b ++ [y]) (S n).
Proof. induction 1; simpl; try (constructor; assumption). repeat constructor. Qed.

Lemma edit_script_snoc_delete a b n x :
  edit_script a b n -> edit_script (a ++ [x]) b (S n).
Proof. induction 1; simpl; try (constructor; assumption). repeat constructor. Qed.

Lemma edit_script_snoc_insert a b n y :
  edit_script a b n -> edit_script a (b ++ [y]) (S n).
Proof. induction 1; simpl; try (constructor; assumption). repeat constructor. Qed.

Lemma edit_script_rev a b n : edit_script a b n -> edit_script (rev a) (rev b) n.
Proof.
  induction 1; simpl.
  - constructor.
  - apply edit_script_snoc_keep; assumption.
  - apply edit_script_snoc_substitute; assumption.
  - apply edit_script_snoc_delete; assumption.
  - apply edit_script_snoc_insert; assumption.
Qed.

Lemma levenshtein_rev a b : levenshtein (rev a) (rev b) = levenshtein a b.
Proof.
  apply Nat.le_antisymm.
  - apply levenshtein_least, edit_script_rev, levenshtein_script.
  - apply levenshtein_least.
    rewrite <- (rev_involutive a), <- (rev_involutive b) at 1.
    apply edit_script_rev, levenshtein_script.
Qed.

Lemma edit_script_drop_target a b' n :
  edit_script a b' n -> forall y b, b' = y :: b -> levenshtein a b <= S n.
Proof.
  induction 1; intros y0 b0 Hb; try discriminate.
  - injection Hb as -> ->.
    apply levenshtein_least, es_delete; assumption.
  - injection Hb as -> ->.
    apply Nat.le_trans with (S n); [|lia].
    apply levenshtein_least, es_delete; assumption.
  - specialize (IHedit_script _ _ Hb).
    apply Nat.le_trans with (S (levenshtein a b0)); [|lia].
    apply levenshtein_least, es_delete, levenshtein_script.
  - injection Hb as -> ->.
    apply Nat.le_trans with n; [|lia].
    apply levenshtein_least; assumption.
Qed.

Lemma levenshtein_drop_target a y b : levenshtein a b <= S (levenshtein a (y :: b)).
Proof. eapply edit_script_drop_target; [apply levenshtein_script | reflexivity]. Qed.

Lemma levenshtein_drop_source x a b : levenshtein a b <= S (levenshtein (x :: a) b).
Proof.
  rewrite (levenshtein_sym a b), (levenshtein_sym (x :: a) b).
  apply levenshtein_drop_target.
Qed.

Lemma levenshtein_snoc a b x y :
  levenshtein (a ++ [x]) (b ++ [y]) =
  if N.eqb x y then levenshtein a b
  else Nat.min (Nat.min (levenshtein a b) (levenshtein (a ++ [x]) b))
               (levenshtein a (b ++ [y])) + 1.
Proof.
  rewrite <- (levenshtein_rev (a ++ [x]) (b ++ [y])).
  rewrite !rev_app_distr. cbn [rev app].
  rewrite levenshtein_cons.
  replace (levenshtein (rev a) (y :: rev b)) with (levenshtein a (b ++ [y]))
    by (rewrite <- (levenshtein_rev a (b ++ [y])), rev_app_distr; reflexivity).
  replace (levenshtein (x :: rev a) (rev b)) with (levenshtein (a ++ [x]) b)
    by (rewrite <- (levenshtein_rev (a ++ [x]) b), rev_app_distr; reflexivity).
  rewrite levenshtein_rev.
  destruct (N.eqb_spec x y) as [->|Hxy].
  - pose proof (levenshtein_drop_target (rev a) y (rev b)) as H1.
    pose proof (levenshtein_drop_source y (rev a) (rev b)) as H2.
    rewrite levenshtein_rev in H1, H2.
    replace (levenshtein (rev a) (y :: rev b)) with (levenshtein a (b ++ [y])) in H1
      by (rewrite <- (levenshtein_rev a (b ++ [y])), rev_app_distr; reflexivity).
    replace (levenshtein (y :: rev a) (rev b)) with (levenshtein (a ++ [y]) b) in H2
      by (rewrite <- (levenshtein_rev (a ++ [y]) b), rev_app_distr; reflexivity).
    lia.
  - lia.
Qed.

Lemma for_up_ind {St : Type} (P : nat -> St -> Prop) (body : nat -> St -> St) :
  forall count i st,
    P i st ->
    (forall k s, i <= k < i + count -> P k s -> P (S k) (body k s)) ->
    P (i + count) (for_up count i body st).
Proof.
  induction count as [|c IH]; intros i st H0 Hstep; simpl.
  - rewrite Nat.add_0_r. exact H0.
  - replace (i + S c) with (S i + c) by lia.
    apply IH.
    + apply Hstep; [lia | exact H0].
    + intros k s Hk. apply Hstep. lia.
Qed.

Section EditDistanceCorrect.
Variables s1 s2 : jsstring.

Local Abbreviation d := (prefix_distance s1 s2).

Lemma d_row0 j : j <= length s2 -> d 0 j = j.
Proof. intros Hj. unfold prefix_distance. simpl. rewrite length_take. lia. Qed.

Lemma d_col0 i : i <= length s1 -> d i 0 = i.
Proof. intros Hi. unfold prefix_distance. rewrite take_0, levenshtein_nil_r, length_take. lia. Qed.

Lemma d_step i j :
  i < length s1 -> j < length s2 ->
  d (S i) (S j) =
  if decide (charAt s1 i <> charAt s2 j)
  then Nat.min (Nat.min (d i j) (d (S i) j)) (d i (S j)) + 1
  else d i j.
Proof.
  intros Hi Hj. unfold prefix_distance, charAt.
  destruct (lookup_lt_is_Some_2 s1 i Hi) as [x Hx].
  destruct (lookup_lt_is_Some_2 s2 j Hj) as [y Hy].
  rewrite Hx, Hy.
  rewrite (take_S_r s1 i x Hx), (take_S_r s2 j y Hy).
  rewrite levenshtein_snoc.
  destruct (N.eqb_spec x y) as [->|Hxy].
  - destruct (decide ([y] <> [y])); [congruence | reflexivity].
  - destruct (decide ([x] <> [y])) as [_|Hn]; [reflexivity|].
    exfalso. apply Hxy. apply dec_stable in Hn. congruence.
Qed.

Lemma first_row :
  for_up (S (length s2)) 0 (Mapper.inner_body s1 s2 0) ([], 0) = (seq 0 (S (length s2)), 0).
Proof.
  assert (H : forall count, for_up count 0 (Mapper.inner_body s1 s2 0) ([], 0) = (seq 0 count, 0)).
  { intros count.
    pose proof (for_up_ind (fun k st => st = (seq 0 k, 0)) (Mapper.inner_body s1 s2 0) count 0 ([], 0)) as H.
    cbn [Nat.add] in H. apply H; [reflexivity|].
    intros k s _ ->. rewrite seq_S. unfold Mapper.inner_body, array_set.
    cbn [Nat.eqb Nat.add]. rewrite length_seq.
    destruct (decide (k < k)); [lia|reflexivity]. }
  apply H.
Qed.

Lemma seq_is_row0 : is_row s1 s2 0 (seq 0 (S (length s2))).
Proof.
  split; [apply length_seq|].
  intros j Hj. rewrite d_row0 by exact Hj.
  apply list_lookup_total_correct. apply lookup_seq. lia.
Qed.

Lemma inner_step i k st :
  i < length s1 -> k <= length s2 ->
  inner_inv s1 s2 i k st -> inner_inv s1 s2 i (S k) (Mapper.inner_body s1 s2 (S i) k st).
Proof.
  intros Hi Hk (Hlen & Hnew & Hold & Hlast).
  destruct st as [costs lastValue]. unfold inner_inv. cbn [fst snd] in *.
  unfold Mapper.inner_body. cbn [Nat.eqb].
  destruct k as [|k].
  - cbn [Nat.ltb Nat.leb Nat.sub fst snd] in *. auto.
  - replace (S (S k) - 1) with (S k) by lia.
    replace (S k - 1) with k in * by lia.
    change (0 <? S k) with true. cbv iota.
    unfold array_set.
    destruct (decide (k < length costs)) as [_|Hge]; [|lia].
    cbn [fst snd].
    split; [|split; [|split]].
    + rewrite length_insert. exact Hlen.
    + intros j Hj. destruct (decide (j = k)) as [->|Hne].
      * rewrite list_lookup_total_insert_eq by lia. exact Hlast.
      * rewrite list_lookup_total_insert_ne by lia. apply Hnew. lia.
    + intros j Hj. rewrite list_lookup_total_insert_ne by lia. apply Hold. lia.
    + rewrite (d_step i k) by lia.
      rewrite (Hold k) by lia. rewrite (Hold (S k)) by lia. rewrite Hlast.
      replace (S i - 1) with i by lia. reflexivity.
Qed.

Lemma next_row i costs :
  i < length s1 -> is_row s1 s2 i costs -> is_row s1 s2 (S i) (Mapper.outer_body s1 s2 (S i) costs).
Proof.
  intros Hi [Hlen Hrow]. unfold Mapper.outer_body.
  pose proof (for_up_ind (fun k st => k <= S (length s2) -> inner_inv s1 s2 i k st)
                (Mapper.inner_body s1 s2 (S i)) (S (length s2)) 0 (costs, S i)) as H.
  cbn [Nat.add] in H.
  assert (Hinv : inner_inv s1 s2 i (S (length s2))
                   (for_up (S (length s2)) 0 (Mapper.inner_body s1 s2 (S i)) (costs, S i))).
  { apply H; [| |lia].
    - intros _. unfold inner_inv. cbn [fst snd Nat.sub].
      split; [exact Hlen|]. split; [intros j Hj; lia|].
      split; [intros j Hj; apply Hrow; lia|].
      symmetry. apply d_col0. lia.
    - intros k s Hk IH Hk'. apply inner_step; [lia|lia|]. apply IH. lia. }
  clear H.
  destruct (for_up (S (length s2)) 0 (Mapper.inner_body s1 s2 (S i)) (costs, S i))
    as [costs' lastValue].
  destruct Hinv as (Hlen' & Hnew & Hold & Hlast). cbn [fst snd] in *.
  replace (S (length s2) - 1) with (length s2) in * by lia.
  change (0 <? S i) with true. cbv iota.
  unfold array_set.
  destruct (decide (length s2 < length costs')) as [_|Hge]; [|lia].
  split.
  - rewrite length_insert. exact Hlen'.
  - intros j Hj. destruct (decide (j = length s2)) as [->|Hne].
    + rewrite list_lookup_total_insert_eq by lia. exact Hlast.
    + rewrite list_lookup_total_insert_ne by lia. apply Hnew. lia.
Qed.

Lemma all_rows :
  is_row s1 s2 (length s1) (for_up (S (length s1)) 0 (Mapper.outer_body s1 s2) []).
Proof.
  pose proof (for_up_ind (fun k costs => 1 <= k -> is_row s1 s2 (k - 1) costs)
                (Mapper.outer_body s1 s2) (length s1) 1 (Mapper.outer_body s1 s2 0 [])) as H.
  change (for_up (S (length s1)) 0 (Mapper.outer_body s1 s2) [])
    with (for_up (length s1) 1 (Mapper.outer_body s1 s2) (Mapper.outer_body s1 s2 0 [])).
  replace (length s1) with (1 + length s1 - 1) at 1 by lia.
  apply H; [| |lia].
  - intros _. unfold Mapper.outer_body. rewrite first_row. apply seq_is_row0.
  - intros k costs Hk IH _.
    destruct k as [|k]; [lia|].
    replace (S (S k) - 1) with (S k) by lia.
    apply next_row; [lia|].
    replace k with (S k - 1) by lia. apply IH. lia.
Qed.

End EditDistanceCorrect.

Lemma editDistance_levenshtein toLowerCase a b :
  Mapper.editDistance toLowerCase a b = levenshtein (toLowerCase a) (toLowerCase b).
Proof.
  unfold Mapper.editDistance.
  destruct (all_rows (toLowerCase a) (toLowerCase b)) as [_ H].
  rewrite H by lia. unfold prefix_distance.
  rewrite !take_ge by lia. reflexivity.
Qed.

(** ** The similarity scorer *)

Lemma Qltb_lt x y : Qltb x y = true <-> (x < y)%Q.
Proof. unfold Qltb, Qlt. apply Z.ltb_lt. Qed.

Lemma Qltb_ge x y : Qltb x y = false <-> (y <= x)%Q.
Proof. unfold Qltb, Qle. rewrite Z.ltb_ge. reflexivity. Qed.

Lemma Qred_whole (n : nat) : n <> 0 -> Qred (Z.of_nat n # Pos.of_nat n) = 1%Q.
Proof.
  intros Hn. change 1%Q with (Qred 1). apply Qred_complete.
  unfold Qeq. simpl. lia.
Qed.

Lemma editDistance_same toLowerCase a : Mapper.editDistance toLowerCase a a = 0.
Proof.
  rewrite editDistance_levenshtein.
  apply Nat.le_0_r, levenshtein_least.
  induction (toLowerCase a); constructor; assumption.
Qed.

Lemma editDistance_sym toLowerCase a b :
  Mapper.editDistance toLowerCase a b = Mapper.editDistance toLowerCase b a.
Proof. rewrite !editDistance_levenshtein. apply levenshtein_sym. Qed.

(** C3 (what the code computes): the guard on the first line answers 0 as
    soon as one argument is empty, also when both are, so the branch that
    would answer 1.0 for two empty strings is never reached; a non-empty
    string compared with itself scores 1. *)
Theorem stringSimilarity_degenerate (toLowerCase : jsstring -> jsstring) :
  Mapper.stringSimilarity toLowerCase [] [] = 0%Q /\
  (forall x a, Mapper.stringSimilarity toLowerCase (x :: a) [] = 0%Q) /\
  (forall x a, Mapper.stringSimilarity toLowerCase [] (x :: a) = 0%Q) /\
  (forall x a, Mapper.stringSimilarity toLowerCase (x :: a) (x :: a) = 1%Q).
Proof.
  repeat split; try reflexivity.
  intros x a. unfold Mapper.stringSimilarity.
  cbn [length Nat.eqb orb]. rewrite Nat.leb_refl.
  destruct (length (toLowerCase (x :: a)) =? 0) eqn:E; [reflexivity|].
  apply Nat.eqb_neq in E.
  rewrite editDistance_same. rewrite Z.sub_0_r.
  apply Qred_whole. exact E.
Qed.

(** C4: [editDistance] is the Levenshtein distance of the lower-cased
    arguments, with unit costs for insertion, deletion and substitution:
    it is the value of the textbook recurrence, some edit script of that
    cost turns one lower-cased string into the other, and no edit script
    is cheaper.  It does not depend on the order of its arguments. *)
Theorem editDistance_is_levenshtein (toLowerCase : jsstring -> jsstring) (a b : jsstring) :
  Mapper.editDistance toLowerCase a b = levenshtein (toLowerCase a) (toLowerCase b) /\
  edit_script (toLowerCase a) (toLowerCase b) (Mapper.editDistance toLowerCase a b) /\
  (forall n, edit_script (toLowerCase a) (toLowerCase b) n ->
             Mapper.editDistance toLowerCase a b <= n) /\
  Mapper.editDistance toLowerCase a b = Mapper.editDistance toLowerCase b a.
Proof.
  split; [apply editDistance_levenshtein|].
  split; [rewrite editDistance_levenshtein; apply levenshtein_script|].
  split; [intros n Hn; rewrite editDistance_levenshtein; apply levenshtein_least, Hn|].
  apply editDistance_sym.
Qed.

(** C9 (as stated, refuted): with [s1 = "İ"] and [s2 = "x"], both of
    length 1, the lower-cased first argument has two code units; the score
    is 0 in one order and -1 in the other. *)
Lemma stringSimilarity_not_symmetric :
  Mapper.stringSimilarity toLowerCase_latin [304%N] (js "x") = 0%Q /\
  Mapper.stringSimilarity toLowerCase_latin (js "x") [304%N] = (-1)%Q /\
  Mapper.stringSimilarity toLowerCase_latin [304%N] (js "x")
    <> Mapper.stringSimilarity toLowerCase_latin (js "x") [304%N].
Proof. repeat split; vm_compute; congruence. Qed.

Lemma similarity_swap (toLowerCase : jsstring -> jsstring) (a b : jsstring) :
  (length a = length b -> length (toLowerCase a) = length (toLowerCase b)) ->
  Mapper.stringSimilarity toLowerCase a b = Mapper.stringSimilarity toLowerCase b a.
Proof.
  intros Hlen. unfold Mapper.stringSimilarity.
  rewrite (orb_comm (length b =? 0)).
  destruct ((length a =? 0) || (length b =? 0)); [reflexivity|].
  destruct (Nat.leb_spec (length b) (length a)) as [Hba|Hba];
    destruct (Nat.leb_spec (length a) (length b)) as [Hab|Hab]; try reflexivity; try lia.
  assert (Heq : length a = length b) by lia.
  specialize (Hlen Heq). rewrite Hlen.
  rewrite (editDistance_sym toLowerCase (toLowerCase a) (toLowerCase b)).
  reflexivity.
Qed.

(** C9 (amended): [stringSimilarity] is symmetric whenever lower-casing
    keeps two strings of equal length at equal length; strings of different
    lengths are always scored the same in both orders. *)
Theorem stringSimilarity_sym (toLowerCase : jsstring -> jsstring) (a b : jsstring) :
  (length a = length b -> length (toLowerCase a) = length (toLowerCase b)) ->
  Mapper.stringSimilarity toLowerCase a b = Mapper.stringSimilarity toLowerCase b a.
Proof. apply similarity_swap. Qed.

(** C9 (amended), at two titles of equal length. *)
Lemma stringSimilarity_sym_witness :
  (length (js "Naruto") = length (js "Boruto") ->
   length (toLowerCase_latin (js "Naruto")) = length (toLowerCase_latin (js "Boruto"))) /\
  Mapper.stringSimilarity toLowerCase_latin (js "Naruto") (js "Boruto")
  = Mapper.stringSimilarity toLowerCase_latin (js "Boruto") (js "Naruto").
Proof.
  split; [intros _; reflexivity|].
  apply (stringSimilarity_sym toLowerCase_latin (js "Naruto") (js "Boruto")).
  intros _; reflexivity.
Defined.

(** On ASCII strings the lower-casing keeps every length, so there the
    score is symmetric without any condition. *)
Lemma toLowerCase_latin_length (s : jsstring) :
  List.Forall (fun c => (c < 128)%N) s -> length (toLowerCase_latin s) = length s.
Proof.
  induction 1 as [|c s Hc _ IH]; [reflexivity|].
  unfold toLowerCase_latin in *. cbn [flat_map]. rewrite length_app, IH.
  unfold lower_code_unit.
  destruct ((65 <=? c)%N && (c <=? 90)%N); [reflexivity|].
  destruct ((192 <=? c)%N && (c <=? 222)%N && negb (c =? 215)%N); [reflexivity|].
  destruct (N.eqb_spec c 304); [lia | reflexivity].
Qed.

Lemma stringSimilarity_sym_ascii (a b : jsstring) :
  List.Forall (fun c => (c < 128)%N) a -> List.Forall (fun c => (c < 128)%N) b ->
  Mapper.stringSimilarity toLowerCase_latin a b = Mapper.stringSimilarity toLowerCase_latin b a.
Proof.
  intros Ha Hb. apply similarity_swap. intros Hlen.
  rewrite (toLowerCase_latin_length a Ha), (toLowerCase_latin_length b Hb). exact Hlen.
Qed.

(** ** The match selector *)

Section Selector.
Variable toLowerCase : jsstring -> jsstring.

Local Abbreviation sim := (Mapper.stringSimilarity toLowerCase).

Lemma pick_app l1 l2 st : pick (l1 ++ l2) st = pick l2 (pick l1 st).
Proof. apply fold_left_app. Qed.

Lemma scan_title_pick results t st :
  Mapper.scan_title toLowerCase results t st
  = pick (map (fun m => (m, sim (title m) t)) results) st.
Proof.
  unfold Mapper.scan_title, pick. revert st.
  induction results as [|m results IH]; intros st; [reflexivity|].
  simpl. rewrite IH. reflexivity.
Qed.

Lemma synonyms_pick m synonyms st :
  fold_left (fun st synonym => Mapper.consider toLowerCase synonym m st) synonyms st
  = pick (map (fun s => (m, sim (title m) s)) synonyms) st.
Proof.
  unfold pick. revert st.
  induction synonyms as [|s synonyms IH]; intros st; [reflexivity|].
  simpl. rewrite IH. reflexivity.
Qed.

Lemma scan_synonyms_pick results synonyms st :
  Mapper.scan_synonyms toLowerCase results synonyms st
  = pick (flat_map (fun m => map (fun s => (m, sim (title m) s)) synonyms) results) st.
Proof.
  unfold Mapper.scan_synonyms.
  destruct synonyms as [|s0 synonyms].
  - simpl. induction results; [reflexivity | assumption].
  - change (0 <? length (s0 :: synonyms)) with true. cbv iota.
    revert st. induction results as [|m results IH]; intros st; [reflexivity|].
    cbn [fold_left flat_map]. rewrite pick_app, IH, synonyms_pick. reflexivity.
Qed.

Lemma scan_is_pick results t synonyms :
  Mapper.scan toLowerCase results t synonyms
  = pick (scan_order toLowerCase results t synonyms) (None, 0%Q).
Proof.
  unfold Mapper.scan, scan_order.
  rewrite pick_app, scan_synonyms_pick, scan_title_pick. reflexivity.
Qed.

Lemma scan_order_members results t synonyms e :
  In e (scan_order toLowerCase results t synonyms) -> In (fst e) results.
Proof.
  unfold scan_order. rewrite in_app_iff, in_map_iff, in_flat_map.
  intros [(m & <- & Hm) | (m & Hm & He)]; [exact Hm|].
  apply in_map_iff in He. destruct He as (s & <- & _). exact Hm.
Qed.

End Selector.

(** The first entry that strictly beats everything before it wins: either
    nothing beats the starting value, or the entries split around the
    winner. *)
Lemma pick_spec entries : forall b h,
  (Forall (fun e => (snd e <= h)%Q) entries /\ pick entries (b, h) = (b, h)) \/
  (exists pre c s post,
      entries = pre ++ (c, s) :: post /\
      Forall (fun e => (snd e < s)%Q) pre /\ (h < s)%Q /\
      Forall (fun e => (snd e <= s)%Q) post /\
      pick entries (b, h) = (Some c, s)).
Proof.
  induction entries as [|[c0 s0] entries IH]; intros b h.
  - left. split; [constructor | reflexivity].
  - unfold pick. cbn [fold_left fst snd]. fold (pick entries).
    destruct (Qltb h s0) eqn:E.
    + apply Qltb_lt in E. right.
      destruct (IH (Some c0) s0) as [[Hall Hp] | (pre & c & s & post & -> & Hpre & Hlt & Hpost & Hp)].
      * exists [], c0, s0, entries.
        split; [reflexivity|]. split; [constructor|]. split; [exact E|].
        split; [exact Hall | exact Hp].
      * exists ((c0, s0) :: pre), c, s, post.
        split; [reflexivity|].
        split; [constructor; [exact Hlt | exact Hpre]|].
        split; [eapply Qlt_trans; eassumption|].
        split; [exact Hpost | exact Hp].
    + apply Qltb_ge in E.
      destruct (IH b h) as [[Hall Hp] | (pre & c & s & post & -> & Hpre & Hlt & Hpost & Hp)].
      * left. split; [constructor; assumption | exact Hp].
      * right. exists ((c0, s0) :: pre), c, s, post.
        split; [reflexivity|].
        split; [constructor; [cbn [snd]; eapply Qle_lt_trans; eassumption | exact Hpre]|].
        split; [exact Hlt|].
        split; [exact Hpost | exact Hp].
Qed.

Lemma pick_member entries b h c s :
  pick entries (b, h) = (Some c, s) ->
  b = Some c \/ In (c, s) entries.
Proof.
  destruct (pick_spec entries b h) as [[_ Hp] | (pre & c' & s' & post & -> & _ & _ & _ & Hp)];
    rewrite Hp; intros [= <- <-].
  - left; reflexivity.
  - right. apply in_app_iff. right. left. reflexivity.
Qed.

(** On a non-empty list both revisions return one of the candidates. *)
Lemma findBestMatch_returns toLowerCase r rest t synonyms :
  exists c, In c (r :: rest) /\
            Mapper.findBestMatch toLowerCase (r :: rest) t synonyms = Return c.
Proof.
  unfold Mapper.findBestMatch. rewrite scan_is_pick.
  destruct (pick _ _) as [[best|] h] eqn:E; cbn [Mapper.first_result].
  - apply pick_member in E. destruct E as [E|E]; [discriminate|].
    apply scan_order_members in E. cbn [fst] in E.
    destruct (Qltb h (3 # 10)); eexists; (split; [|reflexivity]); [left; reflexivity | exact E].
  - eexists; split; [|reflexivity]. left; reflexivity.
Qed.

Lemma findBestMatch_revised_returns toLowerCase r rest t synonyms :
  exists c, In c (r :: rest) /\
            Mapper.findBestMatch_revised toLowerCase (r :: rest) t synonyms = Return c.
Proof.
  unfold Mapper.findBestMatch_revised. rewrite scan_is_pick.
  destruct (pick _ _) as [[best|] h] eqn:E; cbn [Mapper.first_result_revised].
  - apply pick_member in E. destruct E as [E|E]; [discriminate|].
    apply scan_order_members in E. cbn [fst] in E.
    destruct (Qltb h (4 # 10)); eexists; (split; [|reflexivity]); [left; reflexivity | exact E].
  - eexists; split; [|reflexivity]. left; reflexivity.
Qed.

(** C5 (what the code computes): on an empty candidate list the selector of
    src/providers/mapper.js fails for every title and every list of
    synonyms, but with the [TypeError] of reading [title] from
    [undefined]; the revised selector fails with the error written for this
    case. *)
Theorem findBestMatch_no_candidates (toLowerCase : jsstring -> jsstring)
    (t : jsstring) (synonyms : list jsstring) :
  Mapper.findBestMatch toLowerCase [] t synonyms
  = Throw (TypeError (js "Cannot read properties of undefined (reading 'title')")) /\
  Mapper.findBestMatch_revised toLowerCase [] t synonyms
  = Throw (Error (js "No manga results found to match with title: " ++ t)).
Proof.
  unfold Mapper.findBestMatch, Mapper.findBestMatch_revised, Mapper.scan,
    Mapper.scan_synonyms, Mapper.scan_title.
  destruct (0 <? length synonyms); split; reflexivity.
Qed.

Lemma select_below cutoff entries b h :
  (0 < cutoff)%Q ->
  Forall (fun e => (snd e < cutoff)%Q) entries ->
  pick entries (None, 0%Q) = (Some b, h) -> Qltb h cutoff = true.
Proof.
  intros Hc Hall Hp. apply Qltb_lt.
  apply pick_member in Hp. destruct Hp as [Hp|Hp]; [discriminate|].
  rewrite List.Forall_forall in Hall. apply (Hall _ Hp).
Qed.

Lemma select_above cutoff entries :
  (0 < cutoff)%Q ->
  Exists (fun e => (cutoff <= snd e)%Q) entries ->
  exists pre c s post,
    entries = pre ++ (c, s) :: post /\
    Forall (fun e => (snd e < s)%Q) pre /\
    Forall (fun e => (snd e <= s)%Q) post /\
    pick entries (None, 0%Q) = (Some c, s) /\ Qltb s cutoff = false.
Proof.
  intros Hc Hex. apply List.Exists_exists in Hex. destruct Hex as (e & He & Hge).
  destruct (pick_spec entries None 0%Q)
    as [[Hall _] | (pre & c & s & post & -> & Hpre & Hlt & Hpost & Hp)].
  - rewrite List.Forall_forall in Hall. specialize (Hall _ He).
    exfalso. apply (Qlt_irrefl 0%Q).
    eapply Qlt_le_trans; [exact Hc|]. eapply Qle_trans; eassumption.
  - exists pre, c, s, post.
    split; [reflexivity|]. split; [exact Hpre|]. split; [exact Hpost|].
    split; [exact Hp|].
    apply Qltb_ge. eapply Qle_trans; [exact Hge|].
    apply in_app_iff in He. destruct He as [He|[<-|He]].
    + rewrite List.Forall_forall in Hpre. apply Qlt_le_weak, (Hpre _ He).
    + apply Qle_refl.
    + rewrite List.Forall_forall in Hpost. apply (Hpost _ He).
Qed.

(** C6 (as stated, refuted): two candidates tie at score 1.0, the first
    through a synonym and the second through the main title; the second is
    returned although the first is the earliest candidate with the largest
    score. *)
Lemma findBestMatch_tie_not_earliest :
  let first := mkCandidate (js "1") (js "abcde") in
  let second := mkCandidate (js "2") (js "xyz") in
  candidate_score toLowerCase_latin (js "xyz") [js "abcde"] first = 1%Q /\
  candidate_score toLowerCase_latin (js "xyz") [js "abcde"] second = 1%Q /\
  earliest_best toLowerCase_latin [first; second] (js "xyz") [js "abcde"] = Some first /\
  Mapper.findBestMatch toLowerCase_latin [first; second] (js "xyz") [js "abcde"]
  = Return second /\
  Mapper.findBestMatch_revised toLowerCase_latin [first; second] (js "xyz") [js "abcde"]
  = Return second /\
  first <> second.
Proof. repeat split; try (vm_compute; reflexivity). discriminate. Qed.

(** C6 (amended): on a non-empty list, if every comparison scores below the
    cut-off (0.3, and 0.4 in the revised selector) the first candidate is
    returned; if some comparison reaches the cut-off, the candidate returned
    is the one of the first comparison, in scanning order, that attains the
    largest score: every comparison before it scores strictly less and
    every comparison after it scores no more.  The scanning order is all
    candidates against the main title, then all candidates against the
    synonyms. *)
Theorem findBestMatch_selection (toLowerCase : jsstring -> jsstring)
    (r : ListingCandidate) (rest : list ListingCandidate)
    (t : jsstring) (synonyms : list jsstring) :
  let results := r :: rest in
  let entries := scan_order toLowerCase results t synonyms in
  (Forall (fun e => (snd e < 3 # 10)%Q) entries ->
   Mapper.findBestMatch toLowerCase results t synonyms = Return r) /\
  (Exists (fun e => (3 # 10 <= snd e)%Q) entries ->
   exists pre c s post,
     entries = pre ++ (c, s) :: post /\
     Forall (fun e => (snd e < s)%Q) pre /\
     Forall (fun e => (snd e <= s)%Q) post /\
     Mapper.findBestMatch toLowerCase results t synonyms = Return c) /\
  (Forall (fun e => (snd e < 4 # 10)%Q) entries ->
   Mapper.findBestMatch_revised toLowerCase results t synonyms = Return r) /\
  (Exists (fun e => (4 # 10 <= snd e)%Q) entries ->
   exists pre c s post,
     entries = pre ++ (c, s) :: post /\
     Forall (fun e => (snd e < s)%Q) pre /\
     Forall (fun e => (snd e <= s)%Q) post /\
     Mapper.findBestMatch_revised toLowerCase results t synonyms = Return c).
Proof.
  intros results entries.
  unfold Mapper.findBestMatch, Mapper.findBestMatch_revised.
  rewrite scan_is_pick. fold entries.
  split; [|split; [|split]].
  - intros Hall. destruct (pick entries (None, 0%Q)) as [[best|] h] eqn:E; [|reflexivity].
    rewrite (select_below (3 # 10) entries best h); [reflexivity|reflexivity|exact Hall|exact E].
  - intros Hex.
    destruct (select_above (3 # 10) entries) as (pre & c & s & post & H1 & H2 & H3 & H4 & H5);
      [reflexivity|exact Hex|].
    exists pre, c, s, post. rewrite H4, H5. auto.
  - intros Hall. destruct (pick entries (None, 0%Q)) as [[best|] h] eqn:E; [|reflexivity].
    rewrite (select_below (4 # 10) entries best h); [reflexivity|reflexivity|exact Hall|exact E].
  - intros Hex.
    destruct (select_above (4 # 10) entries) as (pre & c & s & post & H1 & H2 & H3 & H4 & H5);
      [reflexivity|exact Hex|].
    exists pre, c, s, post. rewrite H4, H5. auto.
Qed.

(** ** The synonym retry chain *)

Section RetryChain.
Variable toLowerCase : jsstring -> jsstring.
Variable World : Type.
Variable search : jsstring -> World -> completion Mapper.search_reply * World.

Lemma has_results_found r : Mapper.has_results r = true -> Mapper.found r <> [].
Proof.
  destruct r as [|[l|]]; try discriminate.
  destruct l; [discriminate | discriminate].
Qed.

Lemma has_results_no_results r : Mapper.has_results r = negb (Mapper.no_results r).
Proof. destruct r as [|[[|c l]|]]; reflexivity. Qed.

Lemma try_synonyms_spec t synonyms : forall rest w log out w' log',
  Mapper.try_synonyms toLowerCase World search t synonyms rest (w, log) = (out, (w', log')) ->
  exists tried,
    log' = log ++ tried /\
    map fst tried = take (length tried) rest /\
    match out with
    | Return None => map fst tried = rest /\ Forall quiet tried
    | Return (Some c) =>
        exists earlier q r,
          tried = earlier ++ [(q, Return r)] /\ Forall quiet earlier /\
          Mapper.has_results r = true /\ In c (Mapper.found r) /\
          Mapper.findBestMatch toLowerCase (Mapper.found r) t synonyms = Return c
    | Throw e =>
        exists earlier q, tried = earlier ++ [(q, Throw e)] /\ Forall quiet earlier
    end.
Proof.
  induction rest as [|synonym rest IH]; intros w log out w' log' Hrun.
  - injection Hrun as <- <- <-. exists []. rewrite app_nil_r.
    repeat split; constructor.
  - cbn [Mapper.try_synonyms] in Hrun.
    unfold Mapper.bind at 1 in Hrun. unfold Mapper.call at 1 in Hrun. cbn [fst snd] in Hrun.
    destruct (search synonym w) as [[r|e] w1] eqn:Hs.
    + destruct (Mapper.has_results r) eqn:Hr.
      * pose proof (has_results_found r Hr) as Hne.
        destruct (Mapper.found r) as [|c0 cs] eqn:Hf; [congruence|].
        destruct (findBestMatch_returns toLowerCase c0 cs t synonyms) as (c & Hin & Hc).
        unfold Mapper.bind, Mapper.lift, Mapper.ret in Hrun. rewrite Hc in Hrun.
        injection Hrun as <- <- <-.
        exists [(synonym, Return r)]. split; [reflexivity|]. split; [reflexivity|].
        exists [], synonym, r. rewrite Hf. repeat split; auto.
      * apply IH in Hrun. destruct Hrun as (tried & -> & Hq & Hout).
        exists ((synonym, Return r) :: tried).
        split; [rewrite <- app_assoc; reflexivity|].
        split; [cbn [map fst length take]; rewrite Hq; reflexivity|].
        assert (Hquiet : quiet (synonym, Return r)).
        { exists r. split; [reflexivity|].
          rewrite has_results_no_results in Hr. destruct (Mapper.no_results r); [reflexivity|discriminate]. }
        destruct out as [[c|]|e].
        -- destruct Hout as (earlier & q & r' & -> & Hall & Hout).
           exists ((synonym, Return r) :: earlier), q, r'.
           split; [reflexivity|]. split; [constructor; assumption | exact Hout].
        -- destruct Hout as [Hm Hall].
           split; [cbn [map fst]; rewrite Hm; reflexivity | constructor; assumption].
        -- destruct Hout as (earlier & q & -> & Hall).
           exists ((synonym, Return r) :: earlier), q.
           split; [reflexivity | constructor; assumption].
    + injection Hrun as <- <- <-.
      exists [(synonym, Throw e)]. split; [reflexivity|]. split; [reflexivity|].
      exists [], synonym. split; [reflexivity | constructor].
Qed.

Lemma search_with_synonyms_run provider t synonyms w out w' log' :
  Mapper.search_with_synonyms toLowerCase World provider search t synonyms (w, [])
  = (out, (w', log')) ->
  chain_outcome provider toLowerCase t synonyms out log'.
Proof.
  unfold Mapper.search_with_synonyms, Mapper.try_catch.
  unfold Mapper.bind at 1. unfold Mapper.call at 1. cbn [fst snd app].
  destruct (search t w) as [[r|e] w1] eqn:Hs.
  - destruct (Mapper.no_results r) eqn:Hr.
    + assert (Hq0 : quiet (t, Return r)) by (exists r; auto).
      assert (Hhr : Mapper.has_results r = false)
        by (rewrite has_results_no_results, Hr; reflexivity).
      destruct synonyms as [|s0 synonyms'].
      * change (0 <? length (@nil jsstring)) with false. cbv iota.
        unfold Mapper.bind, Mapper.ret, Mapper.throw.
        intros [= <- <- <-].
        exists [], t, (Return r). rewrite Hhr.
        split; [reflexivity|]. split; [reflexivity|]. split; [constructor|].
        split; reflexivity.
      * change (0 <? length (s0 :: synonyms')) with true. cbv iota.
        unfold Mapper.bind.
        destruct (Mapper.try_synonyms toLowerCase World search t (s0 :: synonyms')
                    (s0 :: synonyms') (w1, [(t, Return r)])) as [out1 [w1' log1]] eqn:Hrun.
        apply try_synonyms_spec in Hrun.
        destruct Hrun as (tried & -> & Hq & Hout).
        destruct out1 as [[c|]|e].
        -- destruct Hout as (earlier & q & r' & -> & Hall & Hr' & Hin & Hc).
           unfold Mapper.ret. intros [= <- <- <-].
           exists ((t, Return r) :: earlier), q, (Return r'). rewrite Hr'.
           split; [reflexivity|].
           split; [cbn [app map fst length take]; rewrite Hq; reflexivity|].
           split; [constructor; assumption|].
           exists c. auto.
        -- destruct Hout as [Hall Hquiet].
           unfold Mapper.throw. intros [= <- <- <-].
           destruct (exists_last (l := (t, Return r) :: tried)) as (earlier & [q reply] & Hl);
             [discriminate|].
           change ([(t, Return r)] ++ tried) with ((t, Return r) :: tried). rewrite Hl.
           assert (Hqs : Forall quiet (earlier ++ [(q, reply)]))
             by (rewrite <- Hl; constructor; assumption).
           apply Forall_app in Hqs. destruct Hqs as [Hearlier Hlast].
           inversion Hlast as [|? ? (r' & Hr1 & Hr2) _]; subst. cbn [snd] in Hr1. subst reply.
           exists earlier, q, (Return r').
           rewrite has_results_no_results, Hr2. cbn [negb].
           assert (Hmap : map fst (earlier ++ [(q, Return r')]) = t :: s0 :: synonyms')
             by (rewrite <- Hl; cbn [map fst]; rewrite Hall; reflexivity).
           split; [reflexivity|].
           split; [rewrite Hmap, <- (length_map fst), Hmap, firstn_all; reflexivity|].
           split; [exact Hearlier|].
           split; [exact Hmap | reflexivity].
        -- destruct Hout as (earlier & q & -> & Hall).
           unfold Mapper.throw. intros [= <- <- <-].
           exists ((t, Return r) :: earlier), q, (Throw e).
           split; [reflexivity|].
           split; [cbn [app map fst length take]; rewrite Hq; reflexivity|].
           split; [constructor; assumption | reflexivity].
    + assert (Hhr : Mapper.has_results r = true)
        by (rewrite has_results_no_results, Hr; reflexivity).
      pose proof (has_results_found r Hhr) as Hne.
      destruct (Mapper.found r) as [|c0 cs] eqn:Hf; [congruence|].
      destruct (findBestMatch_returns toLowerCase c0 cs t synonyms) as (c & Hin & Hc).
      unfold Mapper.lift. rewrite Hc. intros [= <- <- <-].
      exists [], t, (Return r). rewrite Hhr, Hf.
      split; [reflexivity|]. split; [reflexivity|]. split; [constructor|].
      exists c. auto.
  - unfold Mapper.throw. intros [= <- <- <-].
    exists [], t, (Throw e).
    split; [reflexivity|]. split; [reflexivity|]. split; [constructor | reflexivity].
Qed.

Lemma search_with_synonyms_spec provider t synonyms w :
  let run := Mapper.search_with_synonyms toLowerCase World provider search t synonyms (w, []) in
  chain_outcome provider toLowerCase t synonyms (fst run) (snd (snd run)).
Proof.
  intros run. destruct run as [out [w' log']] eqn:E.
  apply (search_with_synonyms_run provider t synonyms w out w' log'). exact E.
Qed.

End RetryChain.

(** C7: in [searchAsuraScans] and [searchMangaPark] the provider is queried
    with the main title and then with the synonyms in order; every query
    but the last found nothing; the chain ends at the first query that
    finds a result (the selector is applied to that result set and no later
    synonym is queried) or that throws, and ends with the
    "No matching manga found" error only after the main title and every
    synonym have been queried without a result.  In the example the main
    title and the first synonym find nothing, the second synonym finds one
    listing, which is returned, and the third synonym is never queried. *)
Theorem retry_chain_stops_at_first_hit (toLowerCase : jsstring -> jsstring) (World : Type)
    (search : jsstring -> World -> completion Mapper.search_reply * World)
    (t : jsstring) (synonyms : list jsstring) (w : World) :
  let asura := Mapper.searchAsuraScans toLowerCase World search t synonyms (w, []) in
  let park := Mapper.searchMangaPark toLowerCase World search t synonyms (w, []) in
  chain_outcome "AsuraScans" toLowerCase t synonyms (fst asura) (snd (snd asura)) /\
  chain_outcome "MangaPark" toLowerCase t synonyms (fst park) (snd (snd park)) /\
  Mapper.searchAsuraScans toLowerCase_latin unit one_name_search
    (js "Na Honjaman Level Up")
    [js "Ore dake Level Up na Ken"; js "Solo Leveling"; js "I Level Up Alone"] (tt, [])
  = (Return only_listing,
     (tt, [(js "Na Honjaman Level Up", Return (Mapper.Reply (Some [])));
           (js "Ore dake Level Up na Ken", Return (Mapper.Reply (Some [])));
           (js "Solo Leveling", Return (Mapper.Reply (Some [only_listing])))])).
Proof.
  split; [apply search_with_synonyms_spec|].
  split; [apply search_with_synonyms_spec|].
  vm_compute. reflexivity.
Qed.

(** ** Sets of URLs and numbered pages *)

Lemma has_elem_of (set : list jsval) (v : jsval) : has set v = true <-> v ∈ set.
Proof.
  unfold has. induction set as [|x set IH]; simpl.
  - split; [discriminate | intros H; inversion H].
  - rewrite orb_true_iff, IH, bool_decide_eq_true, elem_of_cons.
    split; intros [H|H]; auto.
Qed.

Lemma add_NoDup (set : list jsval) (v : jsval) : NoDup set -> NoDup (add set v).
Proof.
  intros Hnd. unfold add. destruct (has set v) eqn:E; [exact Hnd|].
  apply NoDup_app. split; [exact Hnd|]. split; [|apply NoDup_singleton].
  intros x Hx Hv. apply list_elem_of_singleton in Hv. subst x.
  apply has_elem_of in Hx. congruence.
Qed.

Lemma add_fresh (set : list jsval) (v : jsval) : has set v = false -> add set v = set ++ [v].
Proof. intros E. unfold add. rewrite E. reflexivity. Qed.

Lemma fold_left_preserves {A B : Type} (P : A -> Prop) (f : A -> B -> A) (l : list B) :
  (forall a b, P a -> P (f a b)) -> forall a, P a -> P (fold_left f l a).
Proof.
  intros Hf. induction l as [|b l IH]; intros a Ha; simpl; [exact Ha|].
  apply IH, Hf, Ha.
Qed.

Lemma fold_add_self (l : list jsval) :
  forall set, NoDup (set ++ l) -> fold_left add l set = set ++ l.
Proof.
  induction l as [|v l IH]; intros set Hnd; simpl.
  - rewrite app_nil_r. reflexivity.
  - apply NoDup_app in Hnd as Hnd'. destruct Hnd' as (_ & Hdisj & _).
    rewrite add_fresh.
    + rewrite IH; rewrite <- app_assoc; [reflexivity | exact Hnd].
    + destruct (has set v) eqn:E; [|reflexivity].
      apply has_elem_of in E. exfalso. apply (Hdisj v E). left.
Qed.

Lemma insert_sorted_head (x : PageRecord) (l : list PageRecord) k :
  index x = k -> map index l = seq (S k) (length l) ->
  insert_sorted by_index x l = x :: l.
Proof.
  intros Hx Hl. destruct l as [|y l]; [reflexivity|].
  simpl in Hl. injection Hl as Hy _.
  cbn [insert_sorted]. unfold by_index, Qltb. rewrite Hx, Hy.
  match goal with
  | |- (if ?b then _ else _) = _ => assert (b = false) as ->; [|reflexivity]
  end.
  apply Z.ltb_ge. cbn [inject_Z Qnum Qden]. lia.
Qed.

Lemma sort_numbered (l : list PageRecord) : forall k,
  map index l = seq k (length l) -> sort by_index l = l.
Proof.
  induction l as [|x l IH]; intros k Hl; [reflexivity|].
  simpl in Hl. injection Hl as Hx Hl.
  cbn [sort]. rewrite (IH (S k) Hl).
  apply (insert_sorted_head x l k Hx Hl).
Qed.

Lemma well_numbered_sort (pages : list PageRecord) :
  well_numbered pages -> sort by_index pages = pages.
Proof. intros [_ H]. apply (sort_numbered pages 1 H). Qed.

Lemma number_pages_spec (urls : list jsval) :
  map url (MangaBuddy.number_pages urls) = urls /\
  map index (MangaBuddy.number_pages urls) = seq 1 (length (MangaBuddy.number_pages urls)).
Proof.
  unfold MangaBuddy.number_pages.
  assert (H : forall k, map url (imap (fun i u => mkPage u (k + i + 1)) urls) = urls /\
                        map index (imap (fun i u => mkPage u (k + i + 1)) urls)
                        = seq (k + 1) (length urls)).
  { induction urls as [|u urls IH]; intros k; [split; reflexivity|].
    cbn [imap map length seq url index].
    destruct (IH (S k)) as [H1 H2].
    rewrite (imap_ext _ (fun i u => mkPage u (S k + i + 1)))
      by (intros; unfold compose; f_equal; lia).
    rewrite H1, H2. split; [reflexivity|].
    replace (k + 0 + 1) with (k + 1) by lia. replace (S (k + 1)) with (S k + 1) by lia.
    reflexivity. }
  rewrite length_imap. apply (H 0).
Qed.

Lemma number_pages_well_numbered (urls : list jsval) :
  NoDup urls -> well_numbered (MangaBuddy.number_pages urls).
Proof.
  intros Hnd. destruct (number_pages_spec urls) as [H1 H2].
  split; [rewrite H1; exact Hnd | exact H2].
Qed.

(** ** The sets built by MangaBuddy and MangaKakalot never repeat a URL *)

Ltac keeps_distinct :=
  repeat match goal with
         | |- NoDup (if ?c then _ else _) => destruct c
         | |- NoDup (add _ _) => apply add_NoDup
         | |- NoDup (fold_left _ _ _) =>
             apply (fold_left_preserves (@NoDup jsval)); [intros|]
         | |- NoDup (let '(_, _) := ?p in _) => destruct p
         | |- NoDup (match ?x with _ => _ end) => destruct x
         end;
  try assumption.

Lemma buddy_method1_url set u : NoDup set -> NoDup (MangaBuddy.method1_url set u).
Proof. intros H. unfold MangaBuddy.method1_url. keeps_distinct. Qed.

Lemma buddy_method1 html set : NoDup set -> NoDup (MangaBuddy.method1 html set).
Proof.
  intros H. unfold MangaBuddy.method1. keeps_distinct.
  apply buddy_method1_url. assumption.
Qed.

Lemma buddy_method2_url set u : NoDup set -> NoDup (MangaBuddy.method2_url set u).
Proof. intros H. unfold MangaBuddy.method2_url. keeps_distinct. Qed.

Lemma buddy_method2_element set el : NoDup set -> NoDup (MangaBuddy.method2_element set el).
Proof.
  intros H. unfold MangaBuddy.method2_element. keeps_distinct.
  apply buddy_method2_url. assumption.
Qed.

Lemma buddy_method2 selected set : NoDup set -> NoDup (MangaBuddy.method2 selected set).
Proof.
  intros H. unfold MangaBuddy.method2. keeps_distinct.
  apply buddy_method2_element. assumption.
Qed.

Lemma buddy_add_new set v : NoDup set -> NoDup (MangaBuddy.add_new set v).
Proof. intros H. unfold MangaBuddy.add_new. keeps_distinct. Qed.

Lemma buddy_method3 html set : NoDup set -> NoDup (MangaBuddy.method3 html set).
Proof.
  intros H. unfold MangaBuddy.method3. keeps_distinct.
  apply buddy_add_new. assumption.
Qed.

Lemma buddy_method4 html set : NoDup set -> NoDup (MangaBuddy.method4 html set).
Proof.
  intros H. unfold MangaBuddy.method4. keeps_distinct.
  apply buddy_add_new. assumption.
Qed.

Lemma buddy_add_images imgData : forall set,
  NoDup set -> NoDup (fst (MangaBuddy.add_images imgData set)).
Proof.
  induction imgData as [|i imgData IH]; intros set H; simpl; [exact H|].
  destruct (image_url MangaBuddy.image_fields i); [|exact H].
  apply IH, buddy_add_new, H.
Qed.

Lemma buddy_method5_pattern P html pattern set :
  NoDup set -> NoDup (fst (MangaBuddy.method5_pattern P html pattern set)).
Proof.
  intros H. unfold MangaBuddy.method5_pattern.
  destruct (exec pattern html) as [m|]; [|exact H].
  destruct (group m 1) as [[|c text]|]; try exact H.
  destruct (MangaPark.parse_image_data P (c :: text)) as [| |[|i imgData]]; try exact H.
  pose proof (buddy_add_images (i :: imgData) set H) as Hn.
  destruct (MangaBuddy.add_images (i :: imgData) set) as [set' completed].
  destruct completed; exact Hn.
Qed.

Lemma buddy_method5_loop P html patterns : forall set,
  NoDup set -> NoDup (MangaBuddy.method5_loop P html patterns set).
Proof.
  induction patterns as [|pattern patterns IH]; intros set H; simpl; [exact H|].
  pose proof (buddy_method5_pattern P html pattern set H) as Hn.
  destruct (MangaBuddy.method5_pattern P html pattern set) as [set' continue].
  destruct continue; [apply IH|]; exact Hn.
Qed.

Lemma buddy_method5 P html set : NoDup set -> NoDup (MangaBuddy.method5 P html set).
Proof.
  intros H. unfold MangaBuddy.method5.
  destruct (length set =? 0); [apply buddy_method5_loop|]; exact H.
Qed.

Lemma buddy_method6 html set : NoDup set -> NoDup (MangaBuddy.method6 html set).
Proof.
  intros H. unfold MangaBuddy.method6. keeps_distinct.
  unfold MangaBuddy.method6_url. keeps_distinct.
Qed.

Lemma buddy_pages_well_numbered P html selected :
  well_numbered (MangaBuddy.fetchChapterPages P html selected).
Proof.
  unfold MangaBuddy.fetchChapterPages.
  set (urls := MangaBuddy.method6 html _).
  assert (Hnd : NoDup urls).
  { apply buddy_method6, buddy_method5, buddy_method4, buddy_method3,
      buddy_method2, buddy_method1. constructor. }
  pose proof (number_pages_well_numbered urls Hnd) as Hw.
  rewrite (well_numbered_sort _ Hw). exact Hw.
Qed.

Lemma kakalot_method1 images set : NoDup set -> NoDup (MangaKakalot.method1 images set).
Proof.
  intros H. unfold MangaKakalot.method1. keeps_distinct.
  unfold MangaKakalot.method1_element. keeps_distinct.
Qed.

Lemma kakalot_method2 data set : NoDup set -> NoDup (MangaKakalot.method2 data set).
Proof.
  intros H. unfold MangaKakalot.method2. keeps_distinct.
  unfold MangaKakalot.method2_url. keeps_distinct.
Qed.

Lemma kakalot_add_images images : forall set,
  NoDup set -> NoDup (fst (MangaKakalot.add_images images set)).
Proof.
  induction images as [|i images IH]; intros set H; simpl; [exact H|].
  destruct (image_url MangaKakalot.image_fields i); [|exact H].
  apply IH, buddy_add_new, H.
Qed.

Lemma kakalot_method3_pattern P script pattern set :
  NoDup set -> NoDup (fst (MangaKakalot.method3_pattern P script pattern set)).
Proof.
  intros H. unfold MangaKakalot.method3_pattern.
  destruct (exec pattern script) as [m|]; [|exact H].
  destruct (group m 1) as [[|c text]|]; try exact H.
  destruct (P (c :: text)) as [| |images]; try exact H.
  pose proof (kakalot_add_images images set H) as Hn.
  destruct (MangaKakalot.add_images images set) as [set' completed].
  destruct completed; exact Hn.
Qed.

Lemma kakalot_method3_patterns P script patterns : forall set,
  NoDup set -> NoDup (MangaKakalot.method3_patterns P script patterns set).
Proof.
  induction patterns as [|pattern patterns IH]; intros set H; simpl; [exact H|].
  pose proof (kakalot_method3_pattern P script pattern set H) as Hn.
  destruct (MangaKakalot.method3_pattern P script pattern set) as [set' continue].
  destruct continue; [apply IH|]; exact Hn.
Qed.

Lemma kakalot_method3 P scripts set : NoDup set -> NoDup (MangaKakalot.method3 P scripts set).
Proof.
  intros H. unfold MangaKakalot.method3. keeps_distinct.
  apply kakalot_method3_patterns. assumption.
Qed.

Lemma filter_wanted_sublist urls : forall kept,
  MangaKakalot.filter_wanted urls = Return kept -> NoDup urls -> NoDup kept.
Proof.
  induction urls as [|[s|t i] urls IH]; intros kept Hk Hnd; simpl in Hk.
  - injection Hk as <-. constructor.
  - apply NoDup_cons in Hnd. destruct Hnd as [Hs Hnd].
    destruct (MangaKakalot.filter_wanted urls) as [kept'|e] eqn:E; [|discriminate].
    injection Hk as <-.
    specialize (IH kept' eq_refl Hnd).
    destruct (MangaKakalot.wanted s); [|exact IH].
    apply NoDup_cons. split; [|exact IH].
    intros Hin. apply Hs. clear -E Hin.
    revert kept' E Hin. induction urls as [|[s'|t' i'] urls IHu]; intros kept' E Hin; simpl in E.
    + injection E as <-. inversion Hin.
    + destruct (MangaKakalot.filter_wanted urls) as [kept''|e] eqn:E'; [|discriminate].
      injection E as <-.
      destruct (MangaKakalot.wanted s').
      * apply elem_of_cons in Hin. destruct Hin as [->|Hin]; [left|right; eapply IHu; eauto].
      * right. eapply IHu; eauto.
    + discriminate.
  - discriminate.
Qed.

Lemma kakalot_pages_well_numbered P data images scripts pages :
  MangaKakalot.fetchChapterPages P data images scripts = Return pages ->
  well_numbered pages.
Proof.
  unfold MangaKakalot.fetchChapterPages.
  set (urls := MangaKakalot.method3 P scripts _).
  assert (Hnd : NoDup urls).
  { apply kakalot_method3, kakalot_method2, kakalot_method1. constructor. }
  destruct (MangaKakalot.filter_wanted urls) as [kept|e] eqn:E; [|discriminate].
  intros [= <-].
  pose proof (number_pages_well_numbered kept (filter_wanted_sublist urls kept E Hnd)) as Hw.
  rewrite (well_numbered_sort _ Hw). exact Hw.
Qed.

(** ** The pages pushed by MangaPark *)

Lemma fold_keep (l : list jsval) : forall urls,
  fold_left keep l urls = fold_left add (List.filter is_truthy l) urls.
Proof.
  induction l as [|v l IH]; intros urls; [reflexivity|].
  cbn [fold_left List.filter]. unfold keep at 2.
  destruct (is_truthy v); apply IH.
Qed.

Lemma well_numbered_nil : well_numbered [].
Proof. split; [constructor | reflexivity]. Qed.

Lemma well_numbered_push (pages : list PageRecord) (v : jsval) :
  well_numbered pages -> has (map url pages) v = false ->
  well_numbered (pages ++ [mkPage v (length pages + 1)]).
Proof.
  intros [Hnd Hidx] Hfresh. split.
  - rewrite map_app. cbn [map url]. rewrite <- add_fresh by exact Hfresh.
    apply add_NoDup, Hnd.
  - rewrite map_app, length_app, Hidx. cbn [map index length].
    rewrite Nat.add_1_r, seq_S. reflexivity.
Qed.

Lemma tidy_start (pages : list PageRecord) : well_numbered pages -> tidy (MangaPark.start pages).
Proof.
  intros Hw. unfold tidy, MangaPark.start. cbn.
  split; [exact Hw|]. split; [|reflexivity].
  apply (fold_add_self (map url pages) []). apply Hw.
Qed.

Lemma tidy_append (st : MangaPark.push_state) (v : jsval) :
  tidy st -> has (MangaPark.existingUrls st) v = false ->
  tidy (MangaPark.mkState (MangaPark.pages st ++ [mkPage v (MangaPark.next_index st)])
                          (add (MangaPark.existingUrls st) v)
                          (S (MangaPark.next_index st))) /\
  map url (MangaPark.pages st ++ [mkPage v (MangaPark.next_index st)])
  = add (map url (MangaPark.pages st)) v.
Proof.
  intros (Hw & Hset & Hnext) Hfresh. rewrite Hset in Hfresh.
  unfold tidy. cbn [MangaPark.pages MangaPark.existingUrls MangaPark.next_index].
  rewrite Hnext, Hset.
  rewrite (add_fresh _ _ Hfresh), map_app, length_app. cbn [map url length].
  split; [|reflexivity].
  split; [apply (well_numbered_push _ _ Hw Hfresh)|].
  split; [reflexivity | lia].
Qed.

Lemma push_new_tidy (v : jsval) (st : MangaPark.push_state) :
  tidy st ->
  tidy (MangaPark.push_new v st) /\
  map url (MangaPark.pages (MangaPark.push_new v st)) = keep (map url (MangaPark.pages st)) v.
Proof.
  intros Ht. unfold MangaPark.push_new, keep.
  destruct Ht as (Hw & Hset & Hnext).
  destruct (is_truthy v); cbn [andb].
  - destruct (has (MangaPark.existingUrls st) v) eqn:E; cbn [negb].
    + split; [exact (conj Hw (conj Hset Hnext))|].
      unfold add. rewrite <- Hset, E. reflexivity.
    + apply tidy_append; [exact (conj Hw (conj Hset Hnext)) | exact E].
  - split; [exact (conj Hw (conj Hset Hnext)) | reflexivity].
Qed.

Lemma push_all_tidy (vs : list jsval) : forall st,
  tidy st ->
  tidy (fold_left (fun st v => MangaPark.push_new v st) vs st) /\
  map url (MangaPark.pages (fold_left (fun st v => MangaPark.push_new v st) vs st))
  = fold_left keep vs (map url (MangaPark.pages st)).
Proof.
  induction vs as [|v vs IH]; intros st Ht; [split; [exact Ht | reflexivity]|].
  cbn [fold_left].
  destruct (push_new_tidy v st Ht) as [Ht' Hu].
  destruct (IH _ Ht') as [Ht'' Hu'].
  split; [exact Ht''|]. rewrite Hu', Hu. reflexivity.
Qed.

Lemma fold_left_map {A B C : Type} (f : A -> C -> A) (g : B -> C) (l : list B) : forall a,
  fold_left (fun a b => f a (g b)) l a = fold_left f (map g l) a.
Proof. induction l as [|b l IH]; intros a; [reflexivity|]. apply IH. Qed.

Lemma park_method1_push (u : jsstring) (pages : list PageRecord) :
  well_numbered pages ->
  let st := MangaPark.method1_push u (pages, length pages + 1) in
  well_numbered (fst st) /\ snd st = length (fst st) + 1 /\
  map url (fst st) = keep (map url pages) (VString u).
Proof.
  intros Hw. unfold MangaPark.method1_push, keep. cbn [is_truthy].
  assert (Hsome : existsb (fun p => bool_decide (url p = VString u)) pages
                  = has (map url pages) (VString u)).
  { unfold has. induction pages as [|p pages IH']; [reflexivity|].
    cbn [existsb map]. f_equal. clear. induction pages; [reflexivity|]. simpl. f_equal. assumption. }
  rewrite Hsome.
  destruct (negb (length u =? 0)); cbn [andb].
  - destruct (has (map url pages) (VString u)) eqn:E; cbn [negb fst snd].
    + split; [exact Hw|]. split; [reflexivity|]. unfold add. rewrite E. reflexivity.
    + split; [apply (well_numbered_push _ _ Hw E)|].
      split; [rewrite length_app; cbn [length]; lia|].
      rewrite map_app, (add_fresh _ _ E). reflexivity.
  - cbn [fst snd]. split; [exact Hw|]. split; reflexivity.
Qed.

Lemma park_method1_fold (us : list jsstring) : forall pages,
  well_numbered pages ->
  let st := fold_left (fun st u => MangaPark.method1_push u st) us (pages, length pages + 1) in
  well_numbered (fst st) /\
  map url (fst st) = fold_left keep (map VString us) (map url pages).
Proof.
  induction us as [|u us IH]; intros pages Hw; [split; [exact Hw | reflexivity]|].
  cbn [fold_left map].
  destruct (park_method1_push u pages Hw) as (Hw' & Hn & Hu).
  destruct (MangaPark.method1_push u (pages, length pages + 1)) as [pages' n'].
  cbn [fst snd] in *. subst n'.
  destruct (IH pages' Hw') as [Hw'' Hu'].
  split; [exact Hw''|]. rewrite Hu', Hu. reflexivity.
Qed.

Lemma park_method1 (html : jsstring) :
  well_numbered (MangaPark.method1 html []) /\
  map url (MangaPark.method1 html []) = distinct (json_urls html).
Proof.
  unfold MangaPark.method1, distinct, json_urls.
  rewrite <- fold_keep.
  destruct (matchAll html jsonRegex) as [|m ms] eqn:E.
  - split; [apply well_numbered_nil | reflexivity].
  - change (0 <? length (m :: ms)) with true. cbv iota.
    rewrite (fold_left_map (fun st u => MangaPark.method1_push u st) MangaPark.method1_url).
    destruct (park_method1_fold (map MangaPark.method1_url (m :: ms)) [] well_numbered_nil)
      as [Hw Hu].
    change (@length PageRecord [] + 1) with 1 in Hw, Hu.
    split; [exact Hw|]. rewrite Hu, map_map. reflexivity.
Qed.

Lemma park_method2 (html : jsstring) (pages : list PageRecord) :
  well_numbered pages ->
  well_numbered (MangaPark.method2 html pages) /\
  map url (MangaPark.method2 html pages)
  = fold_left add (List.filter is_truthy (domain_urls html)) (map url pages).
Proof.
  intros Hw. unfold MangaPark.method2, domain_urls.
  rewrite <- fold_keep.
  destruct (matchAll html MangaPark.mpDomainRegex) as [|m ms] eqn:E.
  - split; [exact Hw | reflexivity].
  - change (0 <? length (m :: ms)) with true. cbv iota.
    rewrite (fold_left_map (fun st v => MangaPark.push_new v st) (fun m => VString (whole m))).
    destruct (push_all_tidy (map (fun m => VString (whole m)) (m :: ms)) _ (tidy_start pages Hw))
      as [Ht Hu].
    split; [apply Ht|]. rewrite Hu. reflexivity.
Qed.

Lemma park_method3_step m st : tidy st -> tidy (MangaPark.method3_step m st).
Proof.
  intros Ht. unfold MangaPark.method3_step.
  repeat match goal with
         | |- tidy (if ?c then _ else _) => destruct c eqn:?
         | |- tidy (match ?x with _ => _ end) => destruct x eqn:?
         end; try exact Ht.
  apply tidy_append; [exact Ht|].
  match goal with H : negb _ = true |- _ => apply negb_true_iff in H; exact H end.
Qed.

Lemma park_method3 html pages :
  well_numbered pages -> well_numbered (MangaPark.method3 html pages).
Proof.
  intros Hw. unfold MangaPark.method3.
  destruct (length pages =? 0); [|exact Hw].
  destruct (0 <? length (matchAll html MangaPark.imageRegex)); [|exact Hw].
  apply (fold_left_preserves tidy); [intros; apply park_method3_step; assumption|].
  apply tidy_start, Hw.
Qed.

Lemma park_push_images imgData : forall st,
  tidy st -> tidy (fst (MangaPark.push_images imgData st)).
Proof.
  induction imgData as [|i imgData IH]; intros st Ht; simpl; [exact Ht|].
  destruct (image_url MangaPark.image_fields i); [|exact Ht].
  apply IH, push_new_tidy, Ht.
Qed.

Lemma park_method4_pattern P html pattern pages :
  well_numbered pages ->
  well_numbered (fst (MangaPark.method4_pattern P html pattern pages)).
Proof.
  intros Hw. unfold MangaPark.method4_pattern.
  destruct (exec pattern html) as [m|]; [|exact Hw].
  destruct (group m 1) as [[|c text]|]; try exact Hw.
  destruct (MangaPark.parse_image_data P (c :: text)) as [| |[|i imgData]]; try exact Hw.
  pose proof (park_push_images (i :: imgData) _ (tidy_start pages Hw)) as Ht.
  destruct (MangaPark.push_images (i :: imgData) (MangaPark.start pages)) as [st completed].
  destruct completed; apply Ht.
Qed.

Lemma park_method4_loop P html patterns : forall pages,
  well_numbered pages -> well_numbered (MangaPark.method4_loop P html patterns pages).
Proof.
  induction patterns as [|pattern patterns IH]; intros pages Hw; simpl; [exact Hw|].
  pose proof (park_method4_pattern P html pattern pages Hw) as Hn.
  destruct (MangaPark.method4_pattern P html pattern pages) as [pages' continue].
  destruct continue; [apply IH|]; exact Hn.
Qed.

Lemma park_method4 P html pages :
  well_numbered pages -> well_numbered (MangaPark.method4 P html pages).
Proof.
  intros Hw. unfold MangaPark.method4.
  destruct (length pages =? 0); [apply park_method4_loop|]; exact Hw.
Qed.

Lemma park_method5_step m st : tidy st -> tidy (MangaPark.method5_step m st).
Proof.
  intros Ht. unfold MangaPark.method5_step.
  repeat match goal with
         | |- tidy (if ?c then _ else _) => destruct c eqn:?
         end; try exact Ht.
  apply tidy_append; [exact Ht|].
  match goal with H : negb _ = true |- _ => apply negb_true_iff in H; exact H end.
Qed.

Lemma park_method5 html pages :
  well_numbered pages -> well_numbered (MangaPark.method5 html pages).
Proof.
  intros Hw. unfold MangaPark.method5.
  destruct (length pages =? 0) eqn:E; [|exact Hw].
  destruct (0 <? length (matchAll html broadImageRegex)); [|exact Hw].
  apply Nat.eqb_eq in E. destruct pages; [|discriminate].
  apply (fold_left_preserves tidy); [intros; apply park_method5_step; assumption|].
  split; [apply well_numbered_nil | split; reflexivity].
Qed.

Lemma park_pages_well_numbered P html :
  well_numbered (MangaPark.fetchChapterPages P html).
Proof.
  unfold MangaPark.fetchChapterPages.
  set (pages := MangaPark.method5 html _).
  assert (Hw : well_numbered pages).
  { apply park_method5, park_method4, park_method3, park_method2, park_method1. }
  rewrite (well_numbered_sort _ Hw). exact Hw.
Qed.

(** ** The order of the extraction methods *)

Lemma distinct_app (a b : list jsval) :
  distinct (a ++ b) = fold_left add (List.filter is_truthy b) (distinct a).
Proof. unfold distinct. rewrite List.filter_app, fold_left_app. reflexivity. Qed.

Lemma first_nonempty_skip {A : Type} (ls : list (list A)) : first_nonempty ([] :: ls) = first_nonempty ls.
Proof. reflexivity. Qed.

Lemma first_nonempty_hit {A : Type} (x : A) (l : list A) (ls : list (list A)) :
  first_nonempty ((x :: l) :: ls) = x :: l.
Proof. reflexivity. Qed.

Lemma park_chain P html :
  map url (MangaPark.fetchChapterPages P html)
  = first_nonempty [ distinct (json_urls html ++ domain_urls html);
                     map url (MangaPark.method3 html []);
                     map url (MangaPark.method4 P html []);
                     map url (MangaPark.method5 html []) ].
Proof.
  pose proof (park_pages_well_numbered P html) as Hsorted.
  unfold MangaPark.fetchChapterPages in *.
  destruct (park_method1 html) as [Hw1 Hu1].
  destruct (park_method2 html _ Hw1) as [Hw2 Hu2].
  rewrite Hu1, <- distinct_app in Hu2. rewrite <- Hu2.
  set (p2 := MangaPark.method2 html (MangaPark.method1 html [])) in *.
  rewrite (well_numbered_sort _ (park_method5 _ _ (park_method4 P _ _ (park_method3 _ _ Hw2)))).
  destruct p2 as [|x2 p2']; [|reflexivity].
  cbn [map]. rewrite first_nonempty_skip.
  destruct (MangaPark.method3 html []) as [|x3 p3]; [|reflexivity].
  cbn [map]. rewrite first_nonempty_skip.
  destruct (MangaPark.method4 P html []) as [|x4 p4]; [|reflexivity].
  cbn [map]. rewrite first_nonempty_skip.
  destruct (MangaPark.method5 html []); reflexivity.
Qed.

Lemma buddy_chain P html selected :
  map url (MangaBuddy.fetchChapterPages P html selected)
  = first_nonempty [ MangaBuddy.method2 selected (MangaBuddy.method1 html []);
                     MangaBuddy.method3 html [];
                     MangaBuddy.method4 html [];
                     MangaBuddy.method5 P html [];
                     MangaBuddy.method6 html [] ].
Proof.
  pose proof (buddy_pages_well_numbered P html selected) as Hw.
  unfold MangaBuddy.fetchChapterPages in *.
  set (urls := MangaBuddy.method6 html _) in *.
  assert (Hnd : NoDup urls).
  { apply buddy_method6, buddy_method5, buddy_method4, buddy_method3,
      buddy_method2, buddy_method1. constructor. }
  rewrite (well_numbered_sort _ (number_pages_well_numbered urls Hnd)).
  destruct (number_pages_spec urls) as [-> _].
  subst urls.
  destruct (MangaBuddy.method2 selected (MangaBuddy.method1 html [])) as [|u2 s2].
  - rewrite first_nonempty_skip.
    destruct (MangaBuddy.method3 html []) as [|u3 s3].
    + rewrite first_nonempty_skip.
      destruct (MangaBuddy.method4 html []) as [|u4 s4].
      * rewrite first_nonempty_skip.
        destruct (MangaBuddy.method5 P html []) as [|u5 s5].
        -- rewrite first_nonempty_skip.
           destruct (MangaBuddy.method6 html []); reflexivity.
        -- reflexivity.
      * reflexivity.
    + reflexivity.
  - reflexivity.
Qed.

Lemma fold_left_pointwise {A B : Type} (f g : A -> B -> A) (l : list B) :
  (forall acc x, f acc x = g acc x) ->
  forall init, fold_left f l init = fold_left g l init.
Proof.
  intros E. induction l as [|x l IH]; intros init; [reflexivity|].
  cbn [fold_left]. rewrite E. apply IH.
Qed.

Lemma fold_left_flat_map {A B C : Type} (f : C -> B -> C) (g : A -> list B) (l : list A) :
  forall init,
    fold_left f (flat_map g l) init = fold_left (fun acc a => fold_left f (g a) acc) l init.
Proof.
  induction l as [|a l IH]; intros init; [reflexivity|].
  cbn [flat_map fold_left]. rewrite fold_left_app. apply IH.
Qed.

Lemma add_present (set : list jsval) (v : jsval) : has set v = true -> add set v = set.
Proof. intros H. unfold add. rewrite H. reflexivity. Qed.

Lemma buddy_method1_url_adds (set : list jsval) (url : jsstring) :
  MangaBuddy.method1_url set url
  = fold_left add (if buddy_listed url then [VString (trim url)] else []) set.
Proof.
  unfold MangaBuddy.method1_url, buddy_listed.
  destruct (negb (length url =? 0) && negb (length (trim url) =? 0)
            && negb (includes url (js "avatar")) && negb (includes url (js "icon"))
            && negb (includes url (js "thumb."))); cbn [andb fold_left]; [|reflexivity].
  destruct (has set (VString (trim url))) eqn:E; cbn [negb]; [|reflexivity].
  symmetry. apply add_present, E.
Qed.

Lemma buddy_method2_url_adds (set : list jsval) (url : jsstring) :
  MangaBuddy.method2_url set url = fold_left add (buddy_member url) set.
Proof.
  unfold MangaBuddy.method2_url, buddy_member.
  destruct (negb (length url =? 0) && negb (length (trim url) =? 0));
    cbn [andb fold_left]; [|reflexivity].
  destruct (has set (VString (trim url))) eqn:E; cbn [negb]; [|reflexivity].
  symmetry. apply add_present, E.
Qed.

Lemma buddy_method1_adds (html : jsstring) (set : list jsval) :
  MangaBuddy.method1 html set = fold_left add (buddy_list_urls html) set.
Proof.
  unfold MangaBuddy.method1, buddy_list_urls.
  destruct (matchAll html MangaBuddy.commaListRegex) as [|m ms]; [reflexivity|].
  change (0 <? length (m :: ms)) with true. cbv iota.
  rewrite fold_left_flat_map. apply fold_left_pointwise. intros acc m'.
  rewrite fold_left_flat_map. apply fold_left_pointwise. intros acc' url.
  apply buddy_method1_url_adds.
Qed.

Lemma buddy_method2_adds (selected : list ImgElement) (set : list jsval) :
  MangaBuddy.method2 selected set = fold_left add (buddy_element_urls selected) set.
Proof.
  unfold MangaBuddy.method2, buddy_element_urls.
  rewrite fold_left_flat_map. apply fold_left_pointwise. intros acc element.
  unfold MangaBuddy.method2_element. fold (element_src element).
  destruct (negb (length (element_src element) =? 0)
            && negb (includes (element_src element) (js "/static/common/x.gif"))
            && negb (includes (element_src element) (js "thumb."))
            && negb (includes (element_src element) (js "thumbnail."))); [|reflexivity].
  destruct (includes (element_src element) (js ",")).
  - rewrite fold_left_flat_map. apply fold_left_pointwise. intros acc' url.
    apply buddy_method2_url_adds.
  - cbn [fold_left].
    destruct (has acc (VString (element_src element))) eqn:E; cbn [negb]; [|reflexivity].
    symmetry. apply add_present, E.
Qed.

Lemma buddy_member_truthy (url : jsstring) : List.Forall (fun v => is_truthy v = true) (buddy_member url).
Proof.
  unfold buddy_member.
  destruct (negb (length url =? 0)) eqn:E1; cbn [andb]; [|constructor].
  destruct (negb (length (trim url) =? 0)) eqn:E2; constructor; [exact E2 | constructor].
Qed.

Lemma buddy_list_urls_truthy (html : jsstring) :
  List.Forall (fun v => is_truthy v = true) (buddy_list_urls html).
Proof.
  unfold buddy_list_urls.
  apply List.Forall_flat_map, List.Forall_forall. intros m _.
  apply List.Forall_flat_map, List.Forall_forall. intros url _.
  unfold buddy_listed.
  destruct (negb (length url =? 0)); cbn [andb]; [|constructor].
  destruct (negb (length (trim url) =? 0)) eqn:E; cbn [andb]; [|constructor].
  destruct (negb (includes url (js "avatar")) && negb (includes url (js "icon"))
            && negb (includes url (js "thumb."))); constructor; [exact E | constructor].
Qed.

Lemma buddy_element_urls_truthy (selected : list ImgElement) :
  List.Forall (fun v => is_truthy v = true) (buddy_element_urls selected).
Proof.
  unfold buddy_element_urls.
  apply List.Forall_flat_map, List.Forall_forall. intros element _. cbv zeta.
  destruct (negb (length (element_src element) =? 0)) eqn:E; cbn [andb]; [|constructor].
  destruct (negb (includes (element_src element) (js "/static/common/x.gif"))
            && negb (includes (element_src element) (js "thumb."))
            && negb (includes (element_src element) (js "thumbnail."))); [|constructor].
  destruct (includes (element_src element) (js ",")).
  - apply List.Forall_flat_map, List.Forall_forall. intros url _. apply buddy_member_truthy.
  - constructor; [exact E | constructor].
Qed.

Lemma filter_all {A : Type} (p : A -> bool) (l : list A) :
  List.Forall (fun x => p x = true) l -> List.filter p l = l.
Proof.
  induction 1 as [|x l Hx _ IH]; [reflexivity|].
  cbn [List.filter]. rewrite Hx, IH. reflexivity.
Qed.

(** The first two methods of MangaBuddy add to the set, in order, the
    members of the comma-separated lists and then the sources of the
    selected elements: the set after method 2 is the distinct values of the
    two lists together. *)
Lemma buddy_first_two (html : jsstring) (selected : list ImgElement) :
  MangaBuddy.method2 selected (MangaBuddy.method1 html [])
  = distinct (buddy_list_urls html ++ buddy_element_urls selected).
Proof.
  rewrite buddy_method2_adds, buddy_method1_adds. unfold distinct.
  rewrite filter_all, fold_left_app; [reflexivity|].
  apply List.Forall_app. split; [apply buddy_list_urls_truthy | apply buddy_element_urls_truthy].
Qed.

(** C1 (as stated, refuted): a document with one JSON-shaped URL and one
    URL on a MangaPark media host.  Method 1 finds the first and is not
    empty, yet the second page of the output comes from method 2. *)
Lemma json_method_blends_with_domain_method :
  let html := jsq "{`url`:`https://cdn.example.com/1.jpg`} https://s1.mpabc.org/media/2.jpg " in
  distinct (json_urls html) = [VString (js "https://cdn.example.com/1.jpg")] /\
  distinct (domain_urls html) = [VString (js "https://s1.mpabc.org/media/2.jpg")] /\
  forall JSON_parse,
    MangaPark.fetchChapterPages JSON_parse html
    = [mkPage (VString (js "https://cdn.example.com/1.jpg")) 1;
       mkPage (VString (js "https://s1.mpabc.org/media/2.jpg")) 2].
Proof.
  cbv zeta. split; [vm_compute; reflexivity|]. split; [vm_compute; reflexivity|].
  intros JSON_parse. vm_compute. reflexivity.
Qed.

(** C1 (amended): the output of MangaPark is the first non-empty list among:
    the distinct URLs of methods 1 and 2 together, in that order; what
    method 3 finds; what method 4 finds; what method 5 finds.  The output
    of MangaBuddy is the first non-empty list among: the distinct values of
    the members of the comma-separated lists (method 1) followed by the
    sources of the selected elements (method 2); and what each of methods
    3 to 6 finds.  So the first two methods of a provider always both run
    and share one output, and every later method contributes only when
    nothing was found before it.  On the example page of MangaBuddy the
    list gives two images, the lazy image a third, and all three are
    returned. *)
Theorem pipeline_first_nonempty (JSON_parse : jsstring -> parsed) (htmlContent : jsstring)
    (selected : list ImgElement) :
  map url (MangaPark.fetchChapterPages JSON_parse htmlContent)
  = first_nonempty [ distinct (json_urls htmlContent ++ domain_urls htmlContent);
                     map url (MangaPark.method3 htmlContent []);
                     map url (MangaPark.method4 JSON_parse htmlContent []);
                     map url (MangaPark.method5 htmlContent []) ] /\
  map url (MangaBuddy.fetchChapterPages JSON_parse htmlContent selected)
  = first_nonempty [ distinct (buddy_list_urls htmlContent ++ buddy_element_urls selected);
                     MangaBuddy.method3 htmlContent [];
                     MangaBuddy.method4 htmlContent [];
                     MangaBuddy.method5 JSON_parse htmlContent [];
                     MangaBuddy.method6 htmlContent [] ] /\
  distinct (buddy_list_urls buddy_page)
  = [VString (js "https://cdn.example.com/1.jpg");
     VString (js "https://cdn.example.com/2.jpg")] /\
  distinct (buddy_element_urls [buddy_lazy_image])
  = [VString (js "https://cdn.example.com/3.jpg")] /\
  MangaBuddy.fetchChapterPages JSON_parse buddy_page [buddy_lazy_image]
  = [mkPage (VString (js "https://cdn.example.com/1.jpg")) 1;
     mkPage (VString (js "https://cdn.example.com/2.jpg")) 2;
     mkPage (VString (js "https://cdn.example.com/3.jpg")) 3].
Proof.
  split; [apply park_chain|].
  split; [rewrite <- buddy_first_two; apply buddy_chain|].
  split; [vm_compute; reflexivity|].
  split; [vm_compute; reflexivity|].
  vm_compute. reflexivity.
Qed.

(** C8: the pages returned by MangaBuddy, MangaKakalot and MangaPark have
    pairwise distinct URLs and carry the indices 1, 2, ..., n in order; and
    a document that holds the same URL in a [data-src] attribute and in a
    comma-separated list gives one page for it. *)
Theorem pages_distinct_and_numbered (JSON_parse : jsstring -> parsed) (htmlContent : jsstring)
    (selected reader_images : list ImgElement) (scripts : list jsstring) :
  well_numbered (MangaBuddy.fetchChapterPages JSON_parse htmlContent selected) /\
  match MangaKakalot.fetchChapterPages JSON_parse htmlContent reader_images scripts with
  | Return pages => well_numbered pages
  | Throw _ => True
  end /\
  well_numbered (MangaPark.fetchChapterPages JSON_parse htmlContent) /\
  MangaBuddy.fetchChapterPages JSON_parse
    (jsq "<img class=`chapter-lazy-image` data-src=`https://cdn.x.com/1.jpg`> <script>var list = `https://cdn.x.com/1.jpg,https://cdn.x.com/2.jpg`</script>")
    [mkImg (Some (js "https://cdn.x.com/1.jpg")) None]
  = [mkPage (VString (js "https://cdn.x.com/1.jpg")) 1;
     mkPage (VString (js "https://cdn.x.com/2.jpg")) 2] /\
  MangaKakalot.fetchChapterPages JSON_parse htmlContent
    [mkImg None (Some (js "https://cdn.x.com/1.jpg"));
     mkImg (Some (js "https://cdn.x.com/1.jpg")) (Some (js "https://cdn.x.com/2.jpg"));
     mkImg None (Some (js "https://cdn.x.com/1.jpg"))] scripts
  = Return [mkPage (VString (js "https://cdn.x.com/1.jpg")) 1;
            mkPage (VString (js "https://cdn.x.com/2.jpg")) 2].
Proof.
  split; [apply buddy_pages_well_numbered|].
  split.
  { destruct (MangaKakalot.fetchChapterPages JSON_parse htmlContent reader_images scripts)
      as [pages|e] eqn:E; [|exact I].
    apply (kakalot_pages_well_numbered _ _ _ _ _ E). }
  split; [apply park_pages_well_numbered|].
  split; vm_compute; reflexivity.
Qed.

(** ** The chapter list of MangaBuddy *)

Lemma countdown (k : nat) :
  map (fun i => (N.of_nat k - N.of_nat i)%N) (seq 0 k) = rev (map N.of_nat (seq 1 k)).
Proof.
  induction k as [|k IH]; [reflexivity|].
  rewrite (seq_S k 1), map_app, rev_app_distr. cbn [map rev app].
  rewrite <- IH.
  change (seq 0 (S k)) with (0 :: seq 1 k). cbn [map].
  replace (N.of_nat (S k) - N.of_nat 0)%N with (N.of_nat (1 + k)) by lia.
  apply (f_equal (cons _)).
  rewrite <- (seq_shift k 0), map_map. apply map_ext. intros i. lia.
Qed.

Lemma dates_after_latest (mangaId : jsstring) (n : N) (k : nat) :
  (N.of_nat k < n)%N ->
  map (fun i => Chapter.date (MangaBuddy.chapter mangaId n (n - N.of_nat i))) (seq 1 k)
  = repeat (js "Unknown") k.
Proof.
  intros Hk.
  rewrite (map_ext_in _ (fun _ => js "Unknown")).
  - rewrite map_const, length_seq. reflexivity.
  - intros i Hi. apply in_seq in Hi. cbn [MangaBuddy.chapter Chapter.date].
    destruct (N.eqb_spec (n - N.of_nat i) n); [lia | reflexivity].
Qed.

(** C10 (as stated, refuted): a page announcing 2^32 chapters.  The count
    is read, [new Array(4294967296)] throws, and no chapter is returned. *)
Lemma getMangaInfo_count_too_large :
  MangaBuddy.latest_chapter (js "CHAPTERS (4294967296)") = 4294967296%N /\
  MangaBuddy.getMangaInfo (js "CHAPTERS (4294967296)") (js "solo-leveling")
  = Throw (Error (js "Failed to get manga info: Invalid array length")).
Proof. split; vm_compute; reflexivity. Qed.

(** C10 (amended): with [N] the chapter count read from the page,
    [getMangaInfo] of MangaBuddy returns, when [N] is at most 2^32 - 1,
    exactly [N] chapters numbered [N] down to 1, the first dated "Recent"
    and all the others "Unknown", none with a [generated] property; for a
    larger [N] it fails. *)
Theorem getMangaInfo_fabricates_chapters (html mangaId : jsstring) :
  let n := MangaBuddy.latest_chapter html in
  if (n <=? 4294967295)%N then
    exists chapters,
      MangaBuddy.getMangaInfo html mangaId = Return chapters /\
      length chapters = N.to_nat n /\
      map Chapter.number chapters = map decimal (descending n) /\
      map Chapter.date chapters
      = match N.to_nat n with
        | O => []
        | S k => js "Recent" :: repeat (js "Unknown") k
        end /\
      Forall (fun c => Chapter.generated c = None) chapters
  else
    MangaBuddy.getMangaInfo html mangaId
    = Throw (Error (js "Failed to get manga info: Invalid array length")).
Proof.
  intros n. unfold MangaBuddy.getMangaInfo. fold n.
  destruct (N.leb_spec n 4294967295) as [Hle|Hgt].
  - destruct (N.ltb_spec 4294967295 n) as [Hlt|_]; [lia|].
    eexists. split; [reflexivity|].
    split; [rewrite length_map, length_seq; reflexivity|].
    split.
    { rewrite map_map. cbn [MangaBuddy.chapter Chapter.number].
      unfold descending. rewrite <- countdown, map_map, N2Nat.id. reflexivity. }
    split.
    { rewrite map_map. destruct (N.to_nat n) as [|k] eqn:E; [reflexivity|].
      cbn [seq map]. f_equal.
      - cbn [MangaBuddy.chapter Chapter.date]. rewrite N.sub_0_r, N.eqb_refl. reflexivity.
      - apply dates_after_latest. lia. }
    apply Forall_map, Forall_forall. intros i _. reflexivity.
  - destruct (N.ltb_spec 4294967295 n) as [_|Hle]; [reflexivity | lia].
Qed.

(** ** The chapter list of MangaPark *)

Lemma for_up_last {St : Type} (body : nat -> St -> St) (count : nat) : forall i st,
  for_up (S count) i body st = body (i + count) (for_up count i body st).
Proof.
  induction count as [|count IH]; intros i st.
  - cbn [for_up]. rewrite Nat.add_0_r. reflexivity.
  - change (for_up (S (S count)) i body st) with (for_up (S count) (S i) body (body i st)).
    rewrite IH. cbn [for_up]. f_equal. lia.
Qed.

Lemma Qeq_bool_whole (a b : Z) : Qeq_bool (inject_Z a) (inject_Z b) = (a =? b)%Z.
Proof.
  destruct (Z.eqb_spec a b) as [->|Hne].
  - apply Qeq_bool_iff. reflexivity.
  - destruct (Qeq_bool (inject_Z a) (inject_Z b)) eqn:E; [|reflexivity].
    apply Qeq_bool_iff in E. unfold Qeq in E. cbn in E. lia.
Qed.

Lemma map_has_app (m1 m2 : MangaPark.chapter_map) (k : Q) :
  MangaPark.map_has (m1 ++ m2) k = MangaPark.map_has m1 k || MangaPark.map_has m2 k.
Proof. unfold MangaPark.map_has. apply existsb_app. Qed.

Lemma map_set_fresh (m : MangaPark.chapter_map) (k : Q) (v : Chapter.t) :
  MangaPark.map_has m k = false -> MangaPark.map_set m k v = m ++ [(k, v)].
Proof.
  induction m as [|[k' v'] m IH]; intros Hk; [reflexivity|].
  cbn [MangaPark.map_has existsb fst] in Hk. apply orb_false_iff in Hk. destruct Hk as [Hk Hm].
  cbn [MangaPark.map_set]. rewrite Hk. cbn [app]. f_equal. apply IH. exact Hm.
Qed.

Lemma generated_keys_fresh (f : nat -> Chapter.t) (l : list nat) (k : nat) :
  ~ In k l ->
  MangaPark.map_has (map (fun i => (inject_Z (Z.of_nat i), f i)) l) (inject_Z (Z.of_nat k)) = false.
Proof.
  induction l as [|i l IH]; intros Hk; [reflexivity|].
  cbn [map MangaPark.map_has existsb fst]. rewrite Qeq_bool_whole.
  destruct (Z.eqb_spec (Z.of_nat i) (Z.of_nat k)) as [E|_].
  - exfalso. apply Hk. left. lia.
  - apply IH. intros H. apply Hk. right. exact H.
Qed.

Lemma generate_fresh (mangaId : jsstring) (extracted : list Chapter.t)
    (i : nat) (m : MangaPark.chapter_map) :
  MangaPark.map_has m (inject_Z (Z.of_nat i)) = false ->
  MangaPark.generate mangaId extracted i m
  = m ++ [(inject_Z (Z.of_nat i), synthesized mangaId extracted i)].
Proof.
  intros H. unfold MangaPark.generate, synthesized. rewrite H. cbn [negb].
  destruct (MangaPark.generated_id_url mangaId extracted (N.of_nat i)).
  apply map_set_fresh, H.
Qed.

Lemma generate_present (mangaId : jsstring) (extracted : list Chapter.t)
    (i : nat) (m : MangaPark.chapter_map) :
  MangaPark.map_has m (inject_Z (Z.of_nat i)) = true ->
  MangaPark.generate mangaId extracted i m = m.
Proof. intros H. unfold MangaPark.generate. rewrite H. reflexivity. Qed.

(** The generating loop appends, in order, one chapter for every number of
    [1 .. count] that the map does not hold. *)
Lemma generate_all (mangaId : jsstring) (extracted : list Chapter.t)
    (m : MangaPark.chapter_map) (count : nat) :
  for_up count 1 (MangaPark.generate mangaId extracted) m
  = m ++ map (fun i => (inject_Z (Z.of_nat i), synthesized mangaId extracted i))
             (List.filter (fun i => negb (MangaPark.map_has m (inject_Z (Z.of_nat i))))
                          (seq 1 count)).
Proof.
  induction count as [|count IH].
  - cbn. rewrite app_nil_r. reflexivity.
  - rewrite for_up_last, IH, (seq_S count 1), List.filter_app.
    cbn [List.filter].
    set (made := map _ (List.filter _ (seq 1 count))).
    assert (Hmade : MangaPark.map_has made (inject_Z (Z.of_nat (1 + count))) = false).
    { apply (generated_keys_fresh (synthesized mangaId extracted)).
      intros H. apply filter_In in H. destruct H as [H _]. apply in_seq in H. lia. }
    destruct (MangaPark.map_has m (inject_Z (Z.of_nat (1 + count)))) eqn:E; cbn [negb].
    + rewrite app_nil_r. apply generate_present.
      rewrite map_has_app, E. reflexivity.
    + rewrite generate_fresh by (rewrite map_has_app, E, Hmade; reflexivity).
      rewrite map_app, <- app_assoc. reflexivity.
Qed.

Lemma insert_sorted_In {A : Type} (compare : A -> A -> Q) (x y : A) (l : list A) :
  In y (insert_sorted compare x l) <-> y = x \/ In y l.
Proof.
  induction l as [|z l IH]; cbn [insert_sorted].
  - cbn [In]. split; intros [H|[]]; left; congruence.
  - destruct (Qltb 0 (compare x z)); cbn [In].
    + rewrite IH. tauto.
    + split; [intros [H|H]; [left; congruence | right; exact H]
             | intros [H|H]; [left; congruence | right; exact H]].
Qed.

Lemma sort_In {A : Type} (compare : A -> A -> Q) (y : A) (l : list A) :
  In y (sort compare l) <-> In y l.
Proof.
  induction l as [|x l IH]; [reflexivity|].
  cbn [sort In]. rewrite insert_sorted_In, IH. split; intros [H|H]; auto.
Qed.

Lemma first_pass_extracted (m : MangaPark.chapter_map) (el : MangaPark.ChapterAnchor) :
  List.Forall (fun e => Chapter.generated (snd e) = None) m ->
  List.Forall (fun e => Chapter.generated (snd e) = None) (MangaPark.first_pass m el).
Proof.
  intros Hm. unfold MangaPark.first_pass.
  destruct (MangaPark.href el) as [[|c h]|]; try exact Hm.
  destruct (MangaPark.chapter_number _) as [chapterNum|]; [|exact Hm].
  destruct (MangaPark.map_has m chapterNum) eqn:E; cbn [negb]; [exact Hm|].
  rewrite (map_set_fresh _ _ _ E).
  apply List.Forall_app. split; [exact Hm|]. constructor; [reflexivity | constructor].
Qed.

Lemma extracted_not_generated (anchors : list MangaPark.ChapterAnchor) :
  List.Forall (fun c => Chapter.generated c = None)
              (map snd (fold_left MangaPark.first_pass anchors [])).
Proof.
  apply List.Forall_map.
  apply (fold_left_preserves
           (List.Forall (fun e : Q * Chapter.t => Chapter.generated (snd e) = None))).
  - intros m el Hm. apply first_pass_extracted, Hm.
  - constructor.
Qed.

Lemma synthesized_fields (mangaId : jsstring) (extracted : list Chapter.t) (i : nat) :
  Chapter.title (synthesized mangaId extracted i) = js "Chapter " ++ decimal (N.of_nat i) /\
  Chapter.number (synthesized mangaId extracted i) = decimal (N.of_nat i) /\
  Chapter.date (synthesized mangaId extracted i) = js "Unknown" /\
  Chapter.generated (synthesized mangaId extracted i) = Some true.
Proof.
  unfold synthesized.
  destruct (MangaPark.generated_id_url mangaId extracted (N.of_nat i)).
  repeat split.
Qed.

(** C2 (as stated, refuted): chapters 1, 2 and 5 are on the page.  The
    highest number is 5 and three chapters is not fewer than 5 / 2, so
    nothing is generated: no chapter 3 or 4 is returned. *)
Lemma gaps_of_1_2_5_not_filled :
  fills_gaps (map snd (fold_left MangaPark.first_pass
                         [chapter_link "1"; chapter_link "2"; chapter_link "5"] [])) = false /\
  map (fun c => (Chapter.number c, Chapter.generated c))
      (MangaPark.getMangaInfo [chapter_link "1"; chapter_link "2"; chapter_link "5"]
                              (js "87295-en-eleceed"))
  = [(js "5", None); (js "2", None); (js "1", None)].
Proof. split; vm_compute; reflexivity. Qed.

(** C2 (amended): on a page whose chapter numbers are plain numerals (at
    most 15 digits, at most 6 of them after the point, where the doubles of
    the code are the exact values), [getMangaInfo] of MangaPark fills gaps
    only when the highest chapter number is positive and the number of
    extracted chapters is less than half of it.  Then every extracted
    chapter is kept and, for every whole number from 1 to the highest
    number that no extracted chapter carries, a chapter with that number,
    [generated = true] and date "Unknown" is returned.  Otherwise the
    extracted chapters are returned, sorted, and none is marked generated.
    So chapters 1, 2, 5 and chapters 1 to 5 come back as they are, while
    chapters 1 and 5 come back with generated chapters 2, 3 and 4. *)
Theorem gap_filling (anchors : list MangaPark.ChapterAnchor) (mangaId : jsstring)
    (plain : List.Forall (fun el => MangaPark.plainly_numbered el = true) anchors) :
  let chapterMap := fold_left MangaPark.first_pass anchors [] in
  let extracted := map snd chapterMap in
  let chapters := MangaPark.getMangaInfo anchors mangaId in
  (if fills_gaps extracted
   then
     List.Forall (fun c => In c chapters) extracted /\
     List.Forall
       (fun i =>
          MangaPark.map_has chapterMap (inject_Z (Z.of_nat i)) = false ->
          exists c, In c chapters /\
                    Chapter.title c = js "Chapter " ++ decimal (N.of_nat i) /\
                    Chapter.number c = decimal (N.of_nat i) /\
                    Chapter.date c = js "Unknown" /\
                    Chapter.generated c = Some true)
       (seq 1 (Z.to_nat (Qfloor (MangaPark.highest_number extracted))))
   else
     chapters = sort MangaPark.by_number_descending extracted /\
     List.Forall (fun c => Chapter.generated c = None) chapters) /\
  map (fun c => (Chapter.number c, Chapter.generated c))
      (MangaPark.getMangaInfo [chapter_link "1"; chapter_link "2"; chapter_link "5"] mangaId)
  = [(js "5", None); (js "2", None); (js "1", None)] /\
  map (fun c => (Chapter.number c, Chapter.generated c))
      (MangaPark.getMangaInfo
         [chapter_link "5"; chapter_link "4"; chapter_link "3"; chapter_link "2";
          chapter_link "1"] mangaId)
  = [(js "5", None); (js "4", None); (js "3", None); (js "2", None); (js "1", None)] /\
  map (fun c => (Chapter.number c, Chapter.date c, Chapter.generated c))
      (MangaPark.getMangaInfo [chapter_link "1"; chapter_link "5"] mangaId)
  = [(js "5", js "2 days ago", None); (js "4", js "Unknown", Some true);
     (js "3", js "Unknown", Some true); (js "2", js "Unknown", Some true);
     (js "1", js "2 days ago", None)].
Proof.
  intros chapterMap extracted chapters.
  split; [|repeat split; vm_compute; reflexivity].
  unfold chapters, MangaPark.getMangaInfo, MangaPark.assemble.
  fold chapterMap. fold extracted. fold (fills_gaps extracted).
  destruct (fills_gaps extracted).
  - rewrite generate_all, map_app. split.
    + apply List.Forall_forall. intros c Hc.
      apply sort_In, in_app_iff. left. exact Hc.
    + apply List.Forall_forall. intros i Hi Hfresh.
      exists (synthesized mangaId extracted i).
      split; [|apply synthesized_fields].
      apply sort_In, in_app_iff. right.
      rewrite map_map. cbn [snd].
      apply in_map, filter_In. split; [exact Hi|]. rewrite Hfresh. reflexivity.
  - split; [reflexivity|].
    apply List.Forall_forall. intros c Hc. apply sort_In in Hc.
    pose proof (extracted_not_generated anchors) as H.
    rewrite List.Forall_forall in H. apply H. exact Hc.
Qed.

(** The page with chapters 1 and 5: both links are plainly numbered, the
    gaps are filled, and chapter 3 comes back generated. *)
Lemma gap_filling_witness :
  List.Forall (fun el => MangaPark.plainly_numbered el = true)
              [chapter_link "1"; chapter_link "5"] /\
  exists c,
    In c (MangaPark.getMangaInfo [chapter_link "1"; chapter_link "5"]
                                 (js "87295-en-eleceed")) /\
    Chapter.number c = js "3" /\
    Chapter.date c = js "Unknown" /\
    Chapter.generated c = Some true.
Proof.
  assert (plain : List.Forall (fun el => MangaPark.plainly_numbered el = true)
                              [chapter_link "1"; chapter_link "5"]).
  { constructor; [vm_compute; reflexivity|].
    constructor; [vm_compute; reflexivity|]. constructor. }
  split; [exact plain|].
  destruct (gap_filling [chapter_link "1"; chapter_link "5"] (js "87295-en-eleceed") plain)
    as [general _].
  cbv zeta in general.
  assert (fills : fills_gaps (map snd (fold_left MangaPark.first_pass
                                [chapter_link "1"; chapter_link "5"] [])) = true)
    by (vm_compute; reflexivity).
  rewrite fills in general. destruct general as [_ generated].
  rewrite List.Forall_forall in generated.
  destruct (generated 3%nat) as [c [Hin [_ [Hnumber [Hdate Hgenerated]]]]].
  - vm_compute. auto.
  - vm_compute. reflexivity.
  - exists c. repeat split; assumption.
Defined.

(** * Further properties *)

(** ** The edit distance as a metric *)

Lemma edit_script_free (a b : jsstring) (n : nat) :
  edit_script a b n -> n = 0 -> a = b.
Proof.
  induction 1; intros Hn; try discriminate.
  - reflexivity.
  - f_equal. apply IHedit_script, Hn.
Qed.

Lemma levenshtein_zero (a b : jsstring) : levenshtein a b = 0 <-> a = b.
Proof.
  split.
  - intros H. apply (edit_script_free a b (levenshtein a b)); [apply levenshtein_script | exact H].
  - intros ->. apply Nat.le_0_r, levenshtein_least.
    induction b; constructor; assumption.
Qed.

Lemma levenshtein_insert_head (a : jsstring) (y : N) (c : jsstring) :
  levenshtein a (y :: c) <= S (levenshtein a c).
Proof. apply levenshtein_least, es_insert, levenshtein_script. Qed.

Lemma levenshtein_delete_head (x : N) (a c : jsstring) :
  levenshtein (x :: a) c <= S (levenshtein a c).
Proof. apply levenshtein_least, es_delete, levenshtein_script. Qed.

Lemma levenshtein_keep_head (x : N) (a c : jsstring) :
  levenshtein (x :: a) (x :: c) <= levenshtein a c.
Proof. apply levenshtein_least, es_keep, levenshtein_script. Qed.

Lemma levenshtein_substitute_head (x y : N) (a c : jsstring) :
  levenshtein (x :: a) (y :: c) <= S (levenshtein a c).
Proof. apply levenshtein_least, es_substitute, levenshtein_script. Qed.

(** Two edit scripts in a row are no cheaper than the best single one. *)
Lemma edit_script_compose (a b : jsstring) (n : nat) :
  edit_script a b n -> forall c m, edit_script b c m -> levenshtein a c <= n + m.
Proof.
  induction 1 as [|x a b n H IH|x y a b n H IH|x a b n H IH|y a b n H IH]; intros c m H2.
  - apply levenshtein_least in H2. simpl in *. lia.
  - remember (x :: b) as xb eqn:E. revert E.
    induction H2 as [|x' b' c' m' H2 IH2|x' y' b' c' m' H2 IH2|x' b' c' m' H2 IH2|y' b' c' m' H2 IH2];
      intros E; try discriminate.
    + injection E as -> ->.
      pose proof (levenshtein_keep_head x a c'). specialize (IH _ _ H2). lia.
    + injection E as -> ->.
      pose proof (levenshtein_substitute_head x y' a c'). specialize (IH _ _ H2). lia.
    + injection E as -> ->.
      pose proof (levenshtein_delete_head x a c'). specialize (IH _ _ H2). lia.
    + specialize (IH2 E).
      pose proof (levenshtein_insert_head (x :: a) y' c'). lia.
  - remember (y :: b) as yb eqn:E. revert E.
    induction H2 as [|x' b' c' m' H2 IH2|x' y' b' c' m' H2 IH2|x' b' c' m' H2 IH2|y' b' c' m' H2 IH2];
      intros E; try discriminate.
    + injection E as -> ->.
      pose proof (levenshtein_substitute_head x y a c'). specialize (IH _ _ H2). lia.
    + injection E as -> ->.
      pose proof (levenshtein_substitute_head x y' a c'). specialize (IH _ _ H2). lia.
    + injection E as -> ->.
      pose proof (levenshtein_delete_head x a c'). specialize (IH _ _ H2). lia.
    + specialize (IH2 E).
      pose proof (levenshtein_insert_head (x :: a) y' c'). lia.
  - pose proof (levenshtein_delete_head x a c). specialize (IH _ _ H2). lia.
  - remember (y :: b) as yb eqn:E. revert E.
    induction H2 as [|x' b' c' m' H2 IH2|x' y' b' c' m' H2 IH2|x' b' c' m' H2 IH2|y' b' c' m' H2 IH2];
      intros E; try discriminate.
    + injection E as -> ->.
      pose proof (levenshtein_insert_head a y c'). specialize (IH _ _ H2). lia.
    + injection E as -> ->.
      pose proof (levenshtein_insert_head a y' c'). specialize (IH _ _ H2). lia.
    + injection E as -> ->. specialize (IH _ _ H2). lia.
    + specialize (IH2 E).
      pose proof (levenshtein_insert_head a y' c'). lia.
Qed.

Lemma levenshtein_triangle (a b c : jsstring) :
  levenshtein a c <= levenshtein a b + levenshtein b c.
Proof.
  apply (edit_script_compose a b _ (levenshtein_script a b) c _ (levenshtein_script b c)).
Qed.

Lemma edit_script_lengths (a b : jsstring) (n : nat) :
  edit_script a b n -> length a <= length b + n /\ length b <= length a + n.
Proof. induction 1; simpl; lia. Qed.

Lemma levenshtein_at_most (a : jsstring) : forall b,
  levenshtein a b <= Nat.max (length a) (length b).
Proof.
  induction a as [|x a IH]; intros b.
  - pose proof (levenshtein_sym [] b) as E. rewrite levenshtein_nil_r in E.
    rewrite E. cbn [length]. lia.
  - destruct b as [|y b]; [rewrite levenshtein_nil_r; lia|].
    pose proof (levenshtein_substitute_head x y a b). specialize (IH b).
    cbn [length]. lia.
Qed.

(** X1: [editDistance] is zero exactly when the two strings are equal once
    lower-cased. *)
Theorem editDistance_zero_iff (toLowerCase : jsstring -> jsstring) (a b : jsstring) :
  Mapper.editDistance toLowerCase a b = 0 <-> toLowerCase a = toLowerCase b.
Proof. rewrite editDistance_levenshtein. apply levenshtein_zero. Qed.

(** X2: [editDistance] satisfies the triangle inequality. *)
Theorem editDistance_triangle (toLowerCase : jsstring -> jsstring) (a b c : jsstring) :
  Mapper.editDistance toLowerCase a c
  <= Mapper.editDistance toLowerCase a b + Mapper.editDistance toLowerCase b c.
Proof. rewrite !editDistance_levenshtein. apply levenshtein_triangle. Qed.

(** X3: [editDistance] lies between the difference of the lengths of the
    lower-cased strings and the larger of the two lengths. *)
Theorem editDistance_bounds (toLowerCase : jsstring -> jsstring) (a b : jsstring) :
  length (toLowerCase a) - length (toLowerCase b) <= Mapper.editDistance toLowerCase a b /\
  length (toLowerCase b) - length (toLowerCase a) <= Mapper.editDistance toLowerCase a b /\
  Mapper.editDistance toLowerCase a b
  <= Nat.max (length (toLowerCase a)) (length (toLowerCase b)).
Proof.
  rewrite editDistance_levenshtein.
  destruct (edit_script_lengths _ _ _ (levenshtein_script (toLowerCase a) (toLowerCase b))).
  pose proof (levenshtein_at_most (toLowerCase a) (toLowerCase b)). lia.
Qed.

(** ** The range of the similarity score *)

Lemma Zpos_of_nat (n : nat) : n <> 0 -> Z.pos (Pos.of_nat n) = Z.of_nat n.
Proof. intros Hn. rewrite <- positive_nat_Z, Nat2Pos.id by exact Hn. reflexivity. Qed.

Lemma similarity_at_most_1 (toLowerCase : jsstring -> jsstring) (a b : jsstring) :
  (Mapper.stringSimilarity toLowerCase a b <= 1)%Q.
Proof.
  unfold Mapper.stringSimilarity.
  destruct ((length a =? 0) || (length b =? 0)); [discriminate|].
  cbv zeta.
  set (longer := if length b <=? length a then toLowerCase a else toLowerCase b).
  set (shorter := if length b <=? length a then toLowerCase b else toLowerCase a).
  destruct (Nat.eqb_spec (length longer) 0) as [E|E]; [apply Qle_refl|].
  rewrite Qred_correct. unfold Qle. cbn [Qnum Qden].
  rewrite (Zpos_of_nat _ E). lia.
Qed.

(** X4: the similarity score never exceeds 1. *)
Theorem stringSimilarity_at_most_1 (toLowerCase : jsstring -> jsstring) (a b : jsstring) :
  (Mapper.stringSimilarity toLowerCase a b <= 1)%Q.
Proof. apply similarity_at_most_1. Qed.

(** X5: when lower-casing is stable on both strings (it keeps their
    lengths and is idempotent on them), the similarity score is not
    negative. *)
Theorem stringSimilarity_not_negative (toLowerCase : jsstring -> jsstring) (a b : jsstring) :
  stable toLowerCase a -> stable toLowerCase b ->
  (0 <= Mapper.stringSimilarity toLowerCase a b)%Q.
Proof.
  intros [La Ia] [Lb Ib]. unfold Mapper.stringSimilarity.
  destruct ((length a =? 0) || (length b =? 0)); [apply Qle_refl|].
  cbv zeta.
  set (longer := if length b <=? length a then toLowerCase a else toLowerCase b).
  set (shorter := if length b <=? length a then toLowerCase b else toLowerCase a).
  destruct (Nat.eqb_spec (length longer) 0) as [E|E]; [discriminate|].
  rewrite Qred_correct. unfold Qle. cbn [Qnum Qden].
  pose proof (levenshtein_at_most (toLowerCase longer) (toLowerCase shorter)) as Hd.
  rewrite <- editDistance_levenshtein in Hd.
  assert (Nat.max (length (toLowerCase longer)) (length (toLowerCase shorter))
          <= length longer).
  { unfold longer, shorter.
    destruct (Nat.leb_spec (length b) (length a)); rewrite ?Ia, ?Ib, ?La, ?Lb; lia. }
  lia.
Qed.

Lemma stringSimilarity_not_negative_witness :
  stable toLowerCase_latin (js "Naruto") /\ stable toLowerCase_latin (js "Boruto") /\
  (0 <= Mapper.stringSimilarity toLowerCase_latin (js "Naruto") (js "Boruto"))%Q.
Proof.
  split; [split; reflexivity|]. split; [split; reflexivity|].
  apply (stringSimilarity_not_negative toLowerCase_latin (js "Naruto") (js "Boruto"));
    split; reflexivity.
Defined.

(** Without stability the score can be negative: two dotted capital I's
    against three letters. *)
Example stringSimilarity_negative :
  Mapper.stringSimilarity toLowerCase_latin [304%N; 304%N] (js "xyz") = (-1 # 3)%Q.
Proof. vm_compute. reflexivity. Qed.

Lemma similarity_one_iff (toLowerCase : jsstring -> jsstring) (a b : jsstring) :
  stable toLowerCase a -> stable toLowerCase b ->
  Mapper.stringSimilarity toLowerCase a b = 1%Q
  <-> a <> [] /\ b <> [] /\ toLowerCase a = toLowerCase b.
Proof.
  intros [La Ia] [Lb Ib]. unfold Mapper.stringSimilarity.
  destruct a as [|x a].
  { cbn [length Nat.eqb orb]. split; [discriminate | intros (H & _); congruence]. }
  destruct b as [|y b].
  { cbn [length Nat.eqb orb]. split; [discriminate | intros (_ & H & _); congruence]. }
  cbn [length Nat.eqb orb]. cbv zeta.
  set (a' := x :: a) in *. set (b' := y :: b) in *.
  assert (Ha : length a' <> 0) by (unfold a'; cbn [length]; lia).
  assert (Hb : length b' <> 0) by (unfold b'; cbn [length]; lia).
  change (S (length a)) with (length a'). change (S (length b)) with (length b').
  set (longer := if length b' <=? length a' then toLowerCase a' else toLowerCase b').
  set (shorter := if length b' <=? length a' then toLowerCase b' else toLowerCase a').
  assert (HL : length longer <> 0).
  { unfold longer. destruct (length b' <=? length a'); lia. }
  destruct (Nat.eqb_spec (length longer) 0) as [E|_]; [contradiction|].
  assert (Hd : Mapper.editDistance toLowerCase longer shorter = 0
               <-> toLowerCase a' = toLowerCase b').
  { rewrite editDistance_levenshtein, levenshtein_zero. unfold longer, shorter.
    destruct (length b' <=? length a'); rewrite Ia, Ib; split; congruence. }
  split.
  - intros H. split; [discriminate|]. split; [discriminate|].
    apply Hd.
    assert (Hq : ((Z.of_nat (length longer)
                   - Z.of_nat (Mapper.editDistance toLowerCase longer shorter))
                  # Pos.of_nat (length longer) == 1)%Q).
    { rewrite <- (Qred_correct (_ # _)), H. reflexivity. }
    unfold Qeq in Hq. cbn [Qnum Qden] in Hq. rewrite (Zpos_of_nat _ HL) in Hq. lia.
  - intros (_ & _ & H). apply Hd in H. rewrite H, Z.sub_0_r.
    apply Qred_whole, HL.
Qed.

(** X6: for two strings on which lower-casing is stable, the score is 1
    exactly when both are non-empty and equal up to case. *)
Theorem stringSimilarity_one_iff (toLowerCase : jsstring -> jsstring) (a b : jsstring) :
  stable toLowerCase a -> stable toLowerCase b ->
  Mapper.stringSimilarity toLowerCase a b = 1%Q
  <-> a <> [] /\ b <> [] /\ toLowerCase a = toLowerCase b.
Proof. apply similarity_one_iff. Qed.

Lemma stringSimilarity_one_iff_witness :
  stable toLowerCase_latin (js "One Piece") /\ stable toLowerCase_latin (js "ONE PIECE") /\
  (Mapper.stringSimilarity toLowerCase_latin (js "One Piece") (js "ONE PIECE") = 1%Q
   <-> js "One Piece" <> [] /\ js "ONE PIECE" <> [] /\
       toLowerCase_latin (js "One Piece") = toLowerCase_latin (js "ONE PIECE")).
Proof.
  split; [split; reflexivity|]. split; [split; reflexivity|].
  apply (stringSimilarity_one_iff toLowerCase_latin (js "One Piece") (js "ONE PIECE"));
    split; reflexivity.
Defined.

(** ** The selector, further *)

Lemma pick_settled entries : forall c s,
  Forall (fun e => (snd e <= s)%Q) entries -> pick entries (Some c, s) = (Some c, s).
Proof.
  induction entries as [|e entries IH]; intros c s Hall; [reflexivity|].
  inversion Hall as [|? ? He Hrest]; subst.
  unfold pick. cbn [fold_left snd]. fold (pick entries).
  apply Qltb_ge in He. rewrite He. apply IH, Hrest.
Qed.

(** The first entry that reaches a score which nothing before it reaches
    and nothing after it exceeds is the one kept. *)
Lemma pick_first_max pre c s post : forall b h,
  Forall (fun e => (snd e < s)%Q) pre -> Forall (fun e => (snd e <= s)%Q) post ->
  (h < s)%Q ->
  pick (pre ++ (c, s) :: post) (b, h) = (Some c, s).
Proof.
  induction pre as [|[c0 s0] pre IH]; intros b h Hpre Hpost Hh.
  - cbn [app]. unfold pick. cbn [fold_left fst snd]. fold (pick post).
    apply Qltb_lt in Hh. rewrite Hh. apply pick_settled, Hpost.
  - inversion Hpre as [|? ? H0 Hrest]; subst. cbn [snd] in H0.
    cbn [app]. unfold pick. cbn [fold_left fst snd]. fold (pick (pre ++ (c, s) :: post)).
    destruct (Qltb h s0); apply IH; assumption.
Qed.

Lemma consider_not_negative toLowerCase t manga st :
  (0 <= snd st)%Q -> (0 <= snd (Mapper.consider toLowerCase t manga st))%Q.
Proof.
  intros H. unfold Mapper.consider.
  destruct (Qltb _ _) eqn:E; [|exact H].
  apply Qltb_lt in E. cbn [snd]. apply Qlt_le_weak. eapply Qle_lt_trans; eassumption.
Qed.

Lemma consider_all_not_negative toLowerCase manga synonyms : forall st,
  (0 <= snd st)%Q ->
  (0 <= snd (fold_left (fun st synonym => Mapper.consider toLowerCase synonym manga st)
                       synonyms st))%Q.
Proof.
  induction synonyms as [|s synonyms IH]; intros st H; [exact H|].
  cbn [fold_left]. apply IH, consider_not_negative, H.
Qed.

Lemma scan_title_not_negative toLowerCase results t : forall st,
  (0 <= snd st)%Q -> (0 <= snd (Mapper.scan_title toLowerCase results t st))%Q.
Proof.
  unfold Mapper.scan_title.
  induction results as [|m results IH]; intros st H; [exact H|].
  cbn [fold_left]. apply IH, consider_not_negative, H.
Qed.

Lemma consider_blank toLowerCase manga st :
  (0 <= snd st)%Q -> Mapper.consider toLowerCase [] manga st = st.
Proof.
  intros H. unfold Mapper.consider.
  assert (E : Mapper.stringSimilarity toLowerCase (title manga) [] = 0%Q).
  { unfold Mapper.stringSimilarity. cbn [length Nat.eqb]. rewrite orb_true_r. reflexivity. }
  rewrite E. apply Qltb_ge in H. rewrite H. reflexivity.
Qed.

Lemma consider_all_skip_blank toLowerCase manga synonyms : forall st,
  (0 <= snd st)%Q ->
  fold_left (fun st synonym => Mapper.consider toLowerCase synonym manga st) synonyms st
  = fold_left (fun st synonym => Mapper.consider toLowerCase synonym manga st)
              (List.filter not_blank synonyms) st.
Proof.
  induction synonyms as [|s synonyms IH]; intros st H; [reflexivity|].
  cbn [fold_left List.filter]. destruct s as [|x s].
  - cbn [not_blank length Nat.eqb negb]. rewrite consider_blank by exact H. apply IH, H.
  - cbn [not_blank length Nat.eqb negb fold_left]. apply IH, consider_not_negative, H.
Qed.

Lemma scan_synonyms_skip_blank toLowerCase results synonyms st :
  (0 <= snd st)%Q ->
  Mapper.scan_synonyms toLowerCase results synonyms st
  = Mapper.scan_synonyms toLowerCase results (List.filter not_blank synonyms) st.
Proof.
  intros H. unfold Mapper.scan_synonyms.
  assert (Hfold : forall st, (0 <= snd st)%Q ->
    fold_left (fun st manga =>
                 fold_left (fun st synonym => Mapper.consider toLowerCase synonym manga st)
                           synonyms st) results st
    = fold_left (fun st manga =>
                 fold_left (fun st synonym => Mapper.consider toLowerCase synonym manga st)
                           (List.filter not_blank synonyms) st) results st).
  { clear st H. induction results as [|m results IH]; intros st H; [reflexivity|].
    cbn [fold_left]. rewrite <- consider_all_skip_blank by exact H.
    apply IH, consider_all_not_negative, H. }
  assert (Hnone : List.filter not_blank synonyms = [] ->
    fold_left (fun st manga =>
                 fold_left (fun st synonym => Mapper.consider toLowerCase synonym manga st)
                           synonyms st) results st = st).
  { intros E. rewrite Hfold, E by exact H. clear. induction results; [reflexivity|assumption]. }
  destruct synonyms as [|s synonyms]; [reflexivity|].
  change (0 <? length (s :: synonyms)) with true. cbv iota.
  destruct (List.filter not_blank (s :: synonyms)) as [|s' kept].
  - cbn [length Nat.ltb Nat.leb]. apply Hnone. reflexivity.
  - change (0 <? length (s' :: kept)) with true. cbv iota. apply Hfold, H.
Qed.

Lemma scan_skip_blank toLowerCase results t synonyms :
  Mapper.scan toLowerCase results t synonyms
  = Mapper.scan toLowerCase results t (List.filter not_blank synonyms).
Proof.
  unfold Mapper.scan. apply scan_synonyms_skip_blank, scan_title_not_negative.
  apply Qle_refl.
Qed.

(** X7: both revisions of [findBestMatch] fail only on an empty list of
    candidates, and what they return is always one of the candidates. *)
Theorem findBestMatch_member (toLowerCase : jsstring -> jsstring)
    (results : list ListingCandidate) (t : jsstring) (synonyms : list jsstring) :
  match Mapper.findBestMatch toLowerCase results t synonyms with
  | Return c => In c results
  | Throw _ => results = []
  end /\
  match Mapper.findBestMatch_revised toLowerCase results t synonyms with
  | Return c => In c results
  | Throw _ => results = []
  end.
Proof.
  destruct results as [|r rest].
  - unfold Mapper.findBestMatch, Mapper.findBestMatch_revised, Mapper.scan,
      Mapper.scan_synonyms, Mapper.scan_title.
    destruct (0 <? length synonyms); split; reflexivity.
  - destruct (findBestMatch_returns toLowerCase r rest t synonyms) as (c & Hc & ->).
    destruct (findBestMatch_revised_returns toLowerCase r rest t synonyms) as (c' & Hc' & ->).
    split; assumption.
Qed.

(** X8: empty synonyms never influence the choice: dropping them from the
    list gives the same outcome in both revisions. *)
Theorem findBestMatch_ignores_blank_synonyms (toLowerCase : jsstring -> jsstring)
    (results : list ListingCandidate) (t : jsstring) (synonyms : list jsstring) :
  Mapper.findBestMatch toLowerCase results t (List.filter not_blank synonyms)
  = Mapper.findBestMatch toLowerCase results t synonyms /\
  Mapper.findBestMatch_revised toLowerCase results t (List.filter not_blank synonyms)
  = Mapper.findBestMatch_revised toLowerCase results t synonyms.
Proof.
  unfold Mapper.findBestMatch, Mapper.findBestMatch_revised.
  rewrite <- scan_skip_blank. split; reflexivity.
Qed.

Lemma similarity_below_1 (toLowerCase : jsstring -> jsstring) (a b : jsstring) :
  stable toLowerCase a -> stable toLowerCase b ->
  toLowerCase a <> toLowerCase b ->
  (Mapper.stringSimilarity toLowerCase a b < 1)%Q.
Proof.
  intros Ha Hb Hne. pose proof (similarity_at_most_1 toLowerCase a b) as H.
  apply Qle_lteq in H. destruct H as [H|H]; [exact H|].
  exfalso. apply Hne.
  assert (E : Mapper.stringSimilarity toLowerCase a b = 1%Q).
  { revert H. unfold Mapper.stringSimilarity.
    destruct ((length a =? 0) || (length b =? 0)); [discriminate|]. cbv zeta.
    destruct (_ =? 0); [reflexivity|].
    intros H. rewrite Qred_correct in H.
    change 1%Q with (Qred 1). apply Qred_complete. exact H. }
  apply (similarity_one_iff toLowerCase a b Ha Hb) in E. apply E.
Qed.

Lemma scan_exact_title (toLowerCase : jsstring -> jsstring)
    (pre : list ListingCandidate) (m : ListingCandidate) (post : list ListingCandidate)
    (t : jsstring) (synonyms : list jsstring) :
  stable toLowerCase t -> stable toLowerCase (title m) ->
  Forall (fun c => stable toLowerCase (title c)) pre ->
  title m <> [] -> toLowerCase (title m) = toLowerCase t ->
  Forall (fun c => toLowerCase (title c) <> toLowerCase t) pre ->
  Mapper.scan toLowerCase (pre ++ m :: post) t synonyms = (Some m, 1%Q).
Proof.
  intros Ht Hm Hpre Hne Heq Hdiff.
  assert (Hnt : t <> []).
  { intros ->. destruct Ht as [Lt _], Hm as [Lm _].
    rewrite Heq, Lt in Lm. destruct (title m); [congruence | discriminate]. }
  rewrite scan_is_pick. unfold scan_order.
  rewrite map_app. cbn [map]. rewrite <- app_assoc. cbn [app].
  assert (E : Mapper.stringSimilarity toLowerCase (title m) t = 1%Q).
  { apply similarity_one_iff; auto. }
  rewrite E. apply pick_first_max; [| |reflexivity].
  - apply List.Forall_forall. intros e He. apply in_map_iff in He.
    destruct He as (c & <- & Hc). cbn [snd].
    rewrite List.Forall_forall in Hpre, Hdiff.
    apply similarity_below_1; auto.
  - apply List.Forall_forall. intros e He. apply in_app_iff in He.
    destruct He as [He|He].
    + apply in_map_iff in He. destruct He as (c & <- & _).
      apply similarity_at_most_1.
    + apply in_flat_map in He. destruct He as (c & _ & He).
      apply in_map_iff in He. destruct He as (s & <- & _).
      apply similarity_at_most_1.
Qed.

(** X9: a candidate whose title equals the wanted title up to case always
    wins, and the earliest one if there are several: both revisions return
    the first candidate of the list with such a title, whatever the
    synonyms and the other candidates are. *)
Theorem findBestMatch_prefers_same_title (toLowerCase : jsstring -> jsstring)
    (pre : list ListingCandidate) (m : ListingCandidate) (post : list ListingCandidate)
    (t : jsstring) (synonyms : list jsstring) :
  stable toLowerCase t -> stable toLowerCase (title m) ->
  Forall (fun c => stable toLowerCase (title c)) pre ->
  title m <> [] -> toLowerCase (title m) = toLowerCase t ->
  Forall (fun c => toLowerCase (title c) <> toLowerCase t) pre ->
  Mapper.findBestMatch toLowerCase (pre ++ m :: post) t synonyms = Return m /\
  Mapper.findBestMatch_revised toLowerCase (pre ++ m :: post) t synonyms = Return m.
Proof.
  intros Ht Hm Hpre Hne Heq Hdiff.
  unfold Mapper.findBestMatch, Mapper.findBestMatch_revised.
  rewrite (scan_exact_title toLowerCase pre m post t synonyms) by assumption.
  split; reflexivity.
Qed.

Lemma findBestMatch_prefers_same_title_witness :
  Mapper.findBestMatch toLowerCase_latin
    ([mkCandidate (js "a-1") (js "Bleach")]
     ++ mkCandidate (js "a-2") (js "NARUTO") :: [mkCandidate (js "a-3") (js "Naruto")])
    (js "Naruto") [js "Bleach"]
  = Return (mkCandidate (js "a-2") (js "NARUTO")) /\
  Mapper.findBestMatch_revised toLowerCase_latin
    ([mkCandidate (js "a-1") (js "Bleach")]
     ++ mkCandidate (js "a-2") (js "NARUTO") :: [mkCandidate (js "a-3") (js "Naruto")])
    (js "Naruto") [js "Bleach"]
  = Return (mkCandidate (js "a-2") (js "NARUTO")).
Proof.
  apply (findBestMatch_prefers_same_title toLowerCase_latin
           [mkCandidate (js "a-1") (js "Bleach")] (mkCandidate (js "a-2") (js "NARUTO"))
           [mkCandidate (js "a-3") (js "Naruto")] (js "Naruto") [js "Bleach"]).
  - split; reflexivity.
  - split; reflexivity.
  - constructor; [split; reflexivity | constructor].
  - discriminate.
  - reflexivity.
  - constructor; [vm_compute; discriminate | constructor].
Defined.

(** ** Titles and synonyms taken from Anilist *)

Lemma jsstring_eqb_eq (a b : jsstring) : jsstring_eqb a b = true <-> a = b.
Proof. unfold jsstring_eqb. apply bool_decide_eq_true. Qed.

Lemma existsb_eqb_In (v : jsstring) (l : list jsstring) :
  existsb (jsstring_eqb v) l = true <-> In v l.
Proof.
  rewrite existsb_exists. split.
  - intros (x & Hx & E). apply jsstring_eqb_eq in E. subst x. exact Hx.
  - intros H. exists v. split; [exact H | apply jsstring_eqb_eq; reflexivity].
Qed.

Lemma Set_values_fold (values : list jsstring) : forall seen,
  NoDup seen ->
  let out := fold_left (fun seen v => if existsb (jsstring_eqb v) seen then seen
                                      else seen ++ [v]) values seen in
  NoDup out /\ (forall x, In x out <-> In x seen \/ In x values) /\
  exists added, out = seen ++ added.
Proof.
  induction values as [|v values IH]; intros seen Hnd.
  - cbn. split; [exact Hnd|]. split; [tauto|]. exists []. rewrite app_nil_r. reflexivity.
  - cbn [fold_left]. destruct (existsb (jsstring_eqb v) seen) eqn:E.
    + apply existsb_eqb_In in E.
      destruct (IH seen Hnd) as (H1 & H2 & H3).
      split; [exact H1|]. split; [|exact H3].
      intros x. rewrite H2. cbn [In]. split; [tauto|].
      intros [H|[<-|H]]; auto.
    + assert (Hv : ~ In v seen).
      { intros H. apply existsb_eqb_In in H. congruence. }
      assert (Hnd' : NoDup (seen ++ [v])).
      { apply NoDup_app. split; [exact Hnd|]. split; [|apply NoDup_singleton].
        intros x Hx Hx'. apply list_elem_of_singleton in Hx'. subst x.
        apply Hv, list_elem_of_In, Hx. }
      destruct (IH (seen ++ [v]) Hnd') as (H1 & H2 & added & H3).
      split; [exact H1|]. split.
      * intros x. rewrite H2, in_app_iff. cbn [In]. tauto.
      * exists (v :: added). rewrite H3, <- app_assoc. reflexivity.
Qed.

Lemma Set_values_NoDup (values : list jsstring) : NoDup (Set_values values).
Proof. apply (Set_values_fold values []). constructor. Qed.

Lemma Set_values_In (values : list jsstring) (x : jsstring) :
  In x (Set_values values) <-> In x values.
Proof.
  destruct (Set_values_fold values [] (NoDup_nil_2)) as (_ & H & _).
  unfold Set_values. rewrite H. cbn [In]. tauto.
Qed.

Lemma filter_Boolean_In (values : list (option jsstring)) (x : jsstring) :
  In x (filter_Boolean values) <-> In (Some x) values /\ x <> [].
Proof.
  unfold filter_Boolean. rewrite in_flat_map. split.
  - intros (v & Hv & Hx). destruct v as [[|c s]|]; try contradiction.
    destruct Hx as [<-|[]]. split; [exact Hv | discriminate].
  - intros [Hv Hne]. exists (Some x). split; [exact Hv|].
    destruct x; [congruence | left; reflexivity].
Qed.

Lemma js_or_truthy (a b : option jsstring) (c : N) (s : jsstring) :
  js_or a b = Some (c :: s) -> a = Some (c :: s) \/ b = Some (c :: s).
Proof. unfold js_or. destruct a as [[|]|]; auto. Qed.

(** X10: the synonyms handed to the search chain are pairwise distinct and
    are exactly the Anilist synonyms together with the non-empty titles;
    a non-empty search title is always one of them, so a chain whose first
    query finds nothing sends the same title again. *)
Theorem synonyms_of_spec (animeInfo : Anilist.AnimeInfo) :
  NoDup (Mapping.synonyms_of animeInfo) /\
  (forall s, In s (Mapping.synonyms_of animeInfo)
             <-> In s (Anilist.synonyms animeInfo)
                 \/ (s <> [] /\ In (Some s) [Anilist.romaji (Anilist.title animeInfo);
                                             Anilist.english (Anilist.title animeInfo);
                                             Anilist.native (Anilist.title animeInfo)])) /\
  (forall c s, Mapping.searchTitle animeInfo = Some (c :: s) ->
               In (c :: s) (Mapping.synonyms_of animeInfo)).
Proof.
  assert (Hin : forall s, In s (Mapping.synonyms_of animeInfo)
             <-> In s (Anilist.synonyms animeInfo)
                 \/ (s <> [] /\ In (Some s) [Anilist.romaji (Anilist.title animeInfo);
                                             Anilist.english (Anilist.title animeInfo);
                                             Anilist.native (Anilist.title animeInfo)])).
  { intros s. unfold Mapping.synonyms_of, Mapping.altTitles_of.
    rewrite Set_values_In, in_app_iff, filter_Boolean_In. tauto. }
  split; [apply Set_values_NoDup|]. split; [exact Hin|].
  intros c s H. apply Hin. right. split; [discriminate|].
  unfold Mapping.searchTitle in H.
  apply js_or_truthy in H. destruct H as [H|H].
  - apply js_or_truthy in H. destruct H as [H|H]; rewrite <- H; cbn [In]; auto.
  - rewrite <- H. cbn [In]. auto.
Qed.

(** ** The MangaDex selector *)

Lemma Math_max_le_l x y : (x <= Mapping.Math_max x y)%Q.
Proof.
  unfold Mapping.Math_max. destruct (Qltb x y) eqn:E; [|apply Qle_refl].
  apply Qltb_lt in E. apply Qlt_le_weak, E.
Qed.

Lemma Math_max_le_r x y : (y <= Mapping.Math_max x y)%Q.
Proof.
  unfold Mapping.Math_max. destruct (Qltb x y) eqn:E; [apply Qle_refl|].
  apply Qltb_ge in E. exact E.
Qed.

Lemma Math_max_cases x y : Mapping.Math_max x y = x \/ Mapping.Math_max x y = y.
Proof. unfold Mapping.Math_max. destruct (Qltb x y); auto. Qed.

(** A running maximum over a list: it dominates the start value and every
    element, and it is the start value or one of the elements. *)
Lemma running_max {A : Type} (f : A -> Q) (l : list A) : forall start,
  let out := fold_left (fun m a => Mapping.Math_max m (f a)) l start in
  (start <= out)%Q /\ (forall a, In a l -> (f a <= out)%Q) /\
  (out = start \/ exists a, In a l /\ out = f a).
Proof.
  induction l as [|a l IH]; intros start.
  - cbn. split; [apply Qle_refl|]. split; [intros a []|]. left; reflexivity.
  - cbn [fold_left]. destruct (IH (Mapping.Math_max start (f a))) as (H1 & H2 & H3).
    split; [eapply Qle_trans; [apply Math_max_le_l | exact H1]|].
    split.
    + intros a' [<-|Ha'].
      * eapply Qle_trans; [apply Math_max_le_r | exact H1].
      * apply H2, Ha'.
    + destruct H3 as [H3|(a' & Ha' & H3)].
      * destruct (Math_max_cases start (f a)) as [E|E].
        -- left. rewrite H3. exact E.
        -- right. exists a. split; [left; reflexivity | rewrite H3; exact E].
      * right. exists a'. split; [right; exact Ha' | exact H3].
Qed.

Lemma alt_similarity_max toLowerCase manga titleToMatch start :
  Mapping.alt_similarity toLowerCase manga titleToMatch start
  = fold_left (fun m v => Mapping.Math_max m (Mapper.stringSimilarity toLowerCase v titleToMatch))
              (concat (Mapping.altTitles manga)) start.
Proof.
  unfold Mapping.alt_similarity. revert start.
  induction (Mapping.altTitles manga) as [|alt alts IH]; intros start; [reflexivity|].
  cbn [fold_left concat]. rewrite fold_left_app. apply IH.
Qed.

Lemma maxSimilarity_max toLowerCase titlesToMatch manga :
  Mapping.maxSimilarity toLowerCase titlesToMatch manga
  = fold_left (fun m p => Mapping.Math_max m (Mapper.stringSimilarity toLowerCase (fst p) (snd p)))
              (flat_map (fun t => map (fun v => (v, t)) (dex_titles manga)) titlesToMatch)
              0%Q.
Proof.
  unfold Mapping.maxSimilarity. generalize 0%Q.
  induction titlesToMatch as [|t titles IH]; intros start; [reflexivity|].
  cbn [fold_left flat_map]. rewrite fold_left_app, IH. f_equal.
  rewrite alt_similarity_max. unfold dex_titles. cbn [map fold_left fst snd].
  generalize (Mapping.Math_max start
                (Mapper.stringSimilarity toLowerCase (Mapping.dex_title manga) t)).
  induction (concat (Mapping.altTitles manga)) as [|v vs IHv]; intros q; [reflexivity|].
  cbn [map fold_left fst snd]. apply IHv.
Qed.

(** X11: the score the MangaDex selector gives a candidate is the largest
    similarity between one of its titles (its own or an alternative one)
    and one of the wanted titles, and 0 when there is nothing to compare. *)
Theorem maxSimilarity_spec (toLowerCase : jsstring -> jsstring)
    (titlesToMatch : list jsstring) (manga : Mapping.DexCandidate) :
  (forall v t, In v (dex_titles manga) -> In t titlesToMatch ->
     (Mapper.stringSimilarity toLowerCase v t
      <= Mapping.maxSimilarity toLowerCase titlesToMatch manga)%Q) /\
  (Mapping.maxSimilarity toLowerCase titlesToMatch manga = 0%Q \/
   exists v t, In v (dex_titles manga) /\ In t titlesToMatch /\
     Mapping.maxSimilarity toLowerCase titlesToMatch manga
     = Mapper.stringSimilarity toLowerCase v t).
Proof.
  rewrite maxSimilarity_max.
  destruct (running_max (fun p => Mapper.stringSimilarity toLowerCase (fst p) (snd p))
              (flat_map (fun t => map (fun v => (v, t)) (dex_titles manga)) titlesToMatch)
              0%Q) as (_ & H2 & H3).
  split.
  - intros v t Hv Ht. apply (H2 (v, t)).
    apply in_flat_map. exists t. split; [exact Ht|].
    apply in_map_iff. exists v. split; [reflexivity | exact Hv].
  - destruct H3 as [H3|([v t] & Hp & H3)]; [left; exact H3|].
    right. exists v, t.
    apply in_flat_map in Hp. destruct Hp as (t' & Ht' & Hp).
    apply in_map_iff in Hp. destruct Hp as (v' & [= <- <-] & Hv').
    split; [exact Hv'|]. split; [exact Ht' | exact H3].
Qed.

(** The first element that strictly beats everything before it wins. *)
Lemma best_scan {A : Type} (score : A -> Q) (l : list A) : forall b h,
  let out := fold_left (fun st m => if Qltb (snd st) (score m) then (Some m, score m) else st)
                       l (b, h) in
  (Forall (fun m => (score m <= h)%Q) l /\ out = (b, h)) \/
  (exists pre c post,
      l = pre ++ c :: post /\
      Forall (fun m => (score m < score c)%Q) pre /\ (h < score c)%Q /\
      Forall (fun m => (score m <= score c)%Q) post /\
      out = (Some c, score c)).
Proof.
  induction l as [|m l IH]; intros b h.
  - left. split; [constructor | reflexivity].
  - cbn [fold_left snd]. destruct (Qltb h (score m)) eqn:E.
    + apply Qltb_lt in E. right.
      destruct (IH (Some m) (score m))
        as [[Hall Hp] | (pre & c & post & -> & Hpre & Hlt & Hpost & Hp)].
      * exists [], m, l.
        split; [reflexivity|]. split; [constructor|]. split; [exact E|].
        split; [exact Hall | exact Hp].
      * exists (m :: pre), c, post.
        split; [reflexivity|].
        split; [constructor; [exact Hlt | exact Hpre]|].
        split; [eapply Qlt_trans; eassumption|].
        split; [exact Hpost | exact Hp].
    + apply Qltb_ge in E.
      destruct (IH b h) as [[Hall Hp] | (pre & c & post & -> & Hpre & Hlt & Hpost & Hp)].
      * left. split; [constructor; assumption | exact Hp].
      * right. exists (m :: pre), c, post.
        split; [reflexivity|].
        split; [constructor; [eapply Qle_lt_trans; eassumption | exact Hpre]|].
        split; [exact Hlt|].
        split; [exact Hpost | exact Hp].
Qed.

(** X12: the MangaDex selector returns the first result when every
    candidate scores below 0.4; otherwise it returns the earliest candidate
    with the largest score: every candidate before it scores strictly less
    and every candidate after it scores no more. *)
Theorem dex_bestMatch_spec (toLowerCase : jsstring -> jsstring)
    (r : Mapping.DexCandidate) (rest : list Mapping.DexCandidate)
    (titlesToMatch : list jsstring) :
  let results := r :: rest in
  let score := Mapping.maxSimilarity toLowerCase titlesToMatch in
  (Forall (fun m => (score m < 4 # 10)%Q) results ->
   Mapping.dex_bestMatch toLowerCase results titlesToMatch = Return r) /\
  (Exists (fun m => (4 # 10 <= score m)%Q) results ->
   exists pre c post,
     results = pre ++ c :: post /\
     Forall (fun m => (score m < score c)%Q) pre /\
     Forall (fun m => (score m <= score c)%Q) post /\
     Mapping.dex_bestMatch toLowerCase results titlesToMatch = Return c).
Proof.
  intros results score. unfold Mapping.dex_bestMatch, Mapping.dex_scan. fold score.
  destruct (best_scan score results None 0%Q)
    as [[Hall ->] | (pre & c & post & E & Hpre & Hlt & Hpost & ->)].
  - split; [reflexivity|].
    intros Hex. apply List.Exists_exists in Hex. destruct Hex as (m & Hm & Hge).
    rewrite List.Forall_forall in Hall. specialize (Hall m Hm).
    exfalso. apply (Qlt_irrefl 0%Q).
    eapply Qlt_le_trans; [|eapply Qle_trans; [exact Hge | exact Hall]]. reflexivity.
  - split.
    + intros Hall. rewrite List.Forall_forall in Hall.
      assert (Hc : (score c < 4 # 10)%Q).
      { apply Hall. rewrite E. apply in_app_iff. right. left. reflexivity. }
      apply Qltb_lt in Hc. rewrite Hc. reflexivity.
    + intros Hex. apply List.Exists_exists in Hex. destruct Hex as (m & Hm & Hge).
      assert (Hc : (4 # 10 <= score c)%Q).
      { eapply Qle_trans; [exact Hge|].
        rewrite E in Hm. apply in_app_iff in Hm. destruct Hm as [Hm|[<-|Hm]].
        - rewrite List.Forall_forall in Hpre. apply Qlt_le_weak, (Hpre _ Hm).
        - apply Qle_refl.
        - rewrite List.Forall_forall in Hpost. apply (Hpost _ Hm). }
      apply Qltb_ge in Hc. rewrite Hc.
      exists pre, c, post. auto.
Qed.

(** ** The MangaKakalot search chain *)

Section KakalotChain.
Variable toLowerCase : jsstring -> jsstring.
Variable World : Type.
Variable search : jsstring -> World -> completion Mapper.search_reply * World.

Lemma try_synonyms_kakalot_filter t synonyms : forall rest st,
  Mapping.try_synonyms_kakalot toLowerCase World search t synonyms rest st
  = Mapper.try_synonyms toLowerCase World search t synonyms (kakalot_queried rest) st.
Proof.
  induction rest as [|synonym rest IH]; intros st; [reflexivity|].
  cbn [Mapping.try_synonyms_kakalot]. unfold kakalot_queried. cbn [List.filter].
  fold (kakalot_queried rest).
  destruct (not_blank synonym && not_blank (trim synonym)); [|apply IH].
  cbn [Mapper.try_synonyms]. unfold Mapper.bind at 1 3.
  destruct (Mapper.call World search synonym st) as [[r|e] st']; [|reflexivity].
  destruct (Mapper.has_results r); [reflexivity | apply IH].
Qed.

Lemma searchMangaKakalot_run t synonyms w out w' log' :
  Mapping.searchMangaKakalot toLowerCase World search t synonyms (w, []) = (out, (w', log')) ->
  chain_outcome_over "MangaKakalot" toLowerCase t (kakalot_queried synonyms) synonyms out log'.
Proof.
  unfold Mapping.searchMangaKakalot, Mapper.try_catch.
  unfold Mapper.bind at 1. unfold Mapper.call at 1. cbn [fst snd app].
  destruct (search t w) as [[r|e] w1] eqn:Hs.
  - destruct (Mapper.no_results r) eqn:Hr.
    + assert (Hq0 : quiet (t, Return r)) by (exists r; auto).
      assert (Hhr : Mapper.has_results r = false)
        by (rewrite has_results_no_results, Hr; reflexivity).
      assert (Hnone : forall tried,
                 map fst tried = kakalot_queried synonyms -> Forall quiet tried ->
                 chain_outcome_over "MangaKakalot" toLowerCase t (kakalot_queried synonyms)
                   synonyms
                   (Throw (Error (js "Failed to search manga on MangaKakalot: "
                                    ++ error_message
                                         (Error (js "No matching manga found on MangaKakalot for title: "
                                                   ++ t)))))
                   ((t, Return r) :: tried)).
      { intros tried Hall Hquiet.
        destruct (exists_last (l := (t, Return r) :: tried)) as (earlier & [q reply] & Hl);
          [discriminate|].
        rewrite Hl.
        assert (Hqs : Forall quiet (earlier ++ [(q, reply)]))
          by (rewrite <- Hl; constructor; assumption).
        apply Forall_app in Hqs. destruct Hqs as [Hearlier Hlast].
        inversion Hlast as [|? ? (r' & Hr1 & Hr2) _]; subst. cbn [snd] in Hr1. subst reply.
        exists earlier, q, (Return r').
        rewrite has_results_no_results, Hr2. cbn [negb].
        assert (Hmap : map fst (earlier ++ [(q, Return r')]) = t :: kakalot_queried synonyms)
          by (rewrite <- Hl; cbn [map fst]; rewrite Hall; reflexivity).
        split; [reflexivity|].
        split; [rewrite Hmap, <- (length_map fst), Hmap, firstn_all; reflexivity|].
        split; [exact Hearlier|].
        split; [exact Hmap | reflexivity]. }
      destruct (0 <? length synonyms) eqn:G.
      * unfold Mapper.bind.
        rewrite try_synonyms_kakalot_filter.
        destruct (Mapper.try_synonyms toLowerCase World search t synonyms
                    (kakalot_queried synonyms) (w1, [(t, Return r)]))
          as [out1 [w1' log1]] eqn:Hrun.
        apply try_synonyms_spec in Hrun.
        destruct Hrun as (tried & -> & Hq & Hout).
        destruct out1 as [[c|]|e].
        -- destruct Hout as (earlier & q & r' & -> & Hall & Hr' & Hin & Hc).
           unfold Mapper.ret. intros [= <- <- <-].
           exists ((t, Return r) :: earlier), q, (Return r'). rewrite Hr'.
           split; [reflexivity|].
           split; [cbn [app map fst length take]; rewrite Hq; reflexivity|].
           split; [constructor; assumption|].
           exists c. auto.
        -- destruct Hout as [Hall Hquiet].
           unfold Mapper.throw. intros [= <- <- <-].
           apply (Hnone tried Hall Hquiet).
        -- destruct Hout as (earlier & q & -> & Hall).
           unfold Mapper.throw. intros [= <- <- <-].
           exists ((t, Return r) :: earlier), q, (Throw e).
           split; [reflexivity|].
           split; [cbn [app map fst length take]; rewrite Hq; reflexivity|].
           split; [constructor; assumption | reflexivity].
      * destruct synonyms as [|s0 synonyms']; [|discriminate].
        unfold Mapper.bind, Mapper.ret, Mapper.throw.
        intros [= <- <- <-].
        apply (Hnone []); [reflexivity | constructor].
    + assert (Hhr : Mapper.has_results r = true)
        by (rewrite has_results_no_results, Hr; reflexivity).
      pose proof (has_results_found r Hhr) as Hne.
      destruct (Mapper.found r) as [|c0 cs] eqn:Hf; [congruence|].
      destruct (findBestMatch_returns toLowerCase c0 cs t synonyms) as (c & Hin & Hc).
      unfold Mapper.lift. rewrite Hc. intros [= <- <- <-].
      exists [], t, (Return r). rewrite Hhr, Hf.
      split; [reflexivity|]. split; [reflexivity|]. split; [constructor|].
      exists c. auto.
  - unfold Mapper.throw. intros [= <- <- <-].
    exists [], t, (Throw e).
    split; [reflexivity|]. split; [reflexivity|]. split; [constructor | reflexivity].
Qed.

End KakalotChain.

(** X13: [searchMangaKakalot] queries the provider with the main title and
    then with the synonyms that are not blank, in order, and stops at the
    first query that finds a result or throws; a synonym that is empty or
    made of white space only is never sent, though the selector still sees
    every synonym. *)
Theorem searchMangaKakalot_skips_blank_synonyms
    (toLowerCase : jsstring -> jsstring) (World : Type)
    (search : jsstring -> World -> completion Mapper.search_reply * World)
    (t : jsstring) (synonyms : list jsstring) (w : World) :
  let run := Mapping.searchMangaKakalot toLowerCase World search t synonyms (w, []) in
  chain_outcome_over "MangaKakalot" toLowerCase t (kakalot_queried synonyms) synonyms
    (fst run) (snd (snd run)) /\
  Forall (fun q => In q synonyms /\ trim q <> []) (tail (map fst (snd (snd run)))).
Proof.
  intros run. destruct run as [out [w' log']] eqn:E. cbn [fst snd].
  pose proof (searchMangaKakalot_run toLowerCase World search t synonyms w out w' log' E) as H.
  split; [exact H|].
  destruct H as (earlier & q & reply & _ & Hq & _).
  rewrite Hq. destruct (length log') as [|n]; [constructor|].
  cbn [take tail]. apply Forall_take.
  apply List.Forall_forall. intros s Hs. unfold kakalot_queried in Hs.
  apply List.filter_In in Hs. destruct Hs as [Hs Hp].
  split; [exact Hs|].
  apply andb_true_iff in Hp. destruct Hp as [_ Hp].
  intros Ht. rewrite Ht in Hp. discriminate.
Qed.

(** ** From the Anilist answer to the response of a chapter route *)

Lemma startsWith_app (sub rest : jsstring) : startsWith (sub ++ rest) sub = true.
Proof.
  induction sub as [|c sub IH]; [destruct rest; reflexivity|].
  cbn [app startsWith]. rewrite N.eqb_refl, IH. reflexivity.
Qed.

Lemma includes_app_r (p s sub : jsstring) :
  includes s sub = true -> includes (p ++ s) sub = true.
Proof.
  intros H. induction p as [|c p IH]; [exact H|].
  cbn [app includes]. rewrite IH. apply orb_true_r.
Qed.

Lemma includes_embedded (p sub q : jsstring) : includes (p ++ sub ++ q) sub = true.
Proof.
  apply includes_app_r. pose proof (startsWith_app sub q) as H.
  destruct (sub ++ q); cbn [includes]; rewrite H; reflexivity.
Qed.

(** What [getInfo] throws when Anilist reports errors or has no such
    media. *)
Lemma getInfo_unknown {World : Type}
    (fetch : jsstring -> World -> completion Anilist.Response * World)
    (anilistId : jsstring) (w : World) (data : Anilist.Response) (w1 : World) :
  fetch anilistId w = (Return data, w1) ->
  (exists m ms, Anilist.errors data = Some (m :: ms))
  \/ (Anilist.errors data = None /\ Anilist.Media data = None) ->
  exists reason,
    Anilist.getInfo fetch anilistId w = (Throw (Error reason), w1) /\
    (includes reason (js "No media found with ID") = true
     \/ includes reason (js "Anilist API error") = true).
Proof.
  intros Hf Hd. unfold Anilist.getInfo. rewrite Hf. unfold Anilist.read_response.
  destruct Hd as [(m & ms & ->) | [-> ->]].
  - eexists. split; [reflexivity|]. right. cbn [error_message].
    change (js "Anilist API error: ") with (js "Anilist API error" ++ js ": ").
    rewrite <- app_assoc. apply includes_embedded.
  - eexists. split; [reflexivity|]. left. cbn [error_message].
    change (js "No media found with ID ") with (js "No media found with ID" ++ js " ").
    rewrite <- app_assoc. apply includes_embedded.
Qed.

Lemma on_error_anilist {R : Type} (provider : string) (anilistId : jsstring)
    (prefix reason : jsstring) :
  includes reason (js "No media found with ID") = true
  \/ includes reason (js "Anilist API error") = true ->
  @Routes.on_error R provider anilistId (Error (prefix ++ reason))
  = Routes.Failure 404 (js "Anilist ID not found")
      (js "The Anilist ID " ++ anilistId
         ++ js " could not be found. Please verify the ID is correct.")
      (Some (prefix ++ reason)).
Proof.
  intros H. unfold Routes.on_error. cbn [error_message].
  destruct H as [H|H]; rewrite (includes_app_r prefix _ _ H); [|rewrite orb_true_r]; reflexivity.
Qed.

Lemma getChaptersFrom_getInfo_fails {World Details C : Type}
    (getInfo : jsstring -> World -> completion Anilist.AnimeInfo * World)
    (details_chapters : Details -> option (list C))
    (getMangaInfo : jsstring -> World -> completion Details * World)
    (search_null_title : list jsstring -> Mapper.M World ListingCandidate)
    (provider : string) synonyms_for searchProvider anilistId w log e w1 :
  getInfo anilistId w = (Throw e, w1) ->
  Mapping.getChaptersFrom World getInfo Details C details_chapters getMangaInfo
    search_null_title provider synonyms_for searchProvider anilistId (w, log)
  = (Throw (Error (js provider ++ js " mapping error: " ++ error_message e)), (w1, log)).
Proof.
  intros H. unfold Mapping.getChaptersFrom, Mapper.try_catch.
  unfold Mapper.bind at 1. unfold external. cbn [fst snd]. rewrite H. reflexivity.
Qed.

Lemma getChaptersByAnilistId_getInfo_fails {World Details C : Type}
    (toLowerCase : jsstring -> jsstring)
    (getInfo : jsstring -> World -> completion Anilist.AnimeInfo * World)
    (dex_search : jsstring -> World -> completion Mapping.dex_reply * World)
    (details_chapters : Details -> option (list C))
    (getMangaInfo : jsstring -> World -> completion Details * World)
    anilistId w log e w1 :
  getInfo anilistId w = (Throw e, w1) ->
  Mapping.getChaptersByAnilistId toLowerCase World getInfo dex_search Details C
    details_chapters getMangaInfo anilistId (w, log)
  = (Throw (Error (js "Mapping error: " ++ error_message e)), (w1, log)).
Proof.
  intros H. unfold Mapping.getChaptersByAnilistId, Mapper.try_catch.
  unfold Mapper.bind at 1. unfold external. cbn [fst snd]. rewrite H. reflexivity.
Qed.

Lemma chapters_route_throws {World R : Type} (provider : string)
    (mapper_method : jsstring -> Mapper.M World R) anilistId st e st' :
  not_blank anilistId = true -> Routes.parseInt_isNaN anilistId = false ->
  mapper_method anilistId st = (Throw e, st') ->
  Routes.chapters_route World R provider mapper_method anilistId st
  = (Routes.on_error provider anilistId e, st').
Proof.
  intros H1 H2 H3. unfold Routes.chapters_route. rewrite H1, H2, H3. reflexivity.
Qed.

(** X14: when Anilist answers with errors or without the media, each of
    the five chapter routes responds with status 404 and the error
    "Anilist ID not found", and no provider has been searched. *)
Theorem chapter_routes_unknown_anilist_id
    (toLowerCase : jsstring -> jsstring) (World : Type)
    (fetch : jsstring -> World -> completion Anilist.Response * World)
    (search : jsstring -> World -> completion Mapper.search_reply * World)
    (dex_search : jsstring -> World -> completion Mapping.dex_reply * World)
    (Details C : Type) (details_chapters : Details -> option (list C))
    (getMangaInfo : jsstring -> World -> completion Details * World)
    (search_null_title : list jsstring -> Mapper.M World ListingCandidate)
    (anilistId : jsstring) (w : World) (data : Anilist.Response) (w1 : World) :
  not_blank anilistId = true -> Routes.parseInt_isNaN anilistId = false ->
  fetch anilistId w = (Return data, w1) ->
  (exists m ms, Anilist.errors data = Some (m :: ms))
  \/ (Anilist.errors data = None /\ Anilist.Media data = None) ->
  let getInfo := Anilist.getInfo fetch in
  let not_found (answer : Routes.response (Mapping.Mapped C) * (World * Mapper.call_log)) :=
    exists details,
      answer = (Routes.Failure 404 (js "Anilist ID not found")
                  (js "The Anilist ID " ++ anilistId
                     ++ js " could not be found. Please verify the ID is correct.")
                  (Some details), (w1, [])) in
  not_found (Routes.mangadex_chapters World _
               (Mapping.getChaptersByAnilistId toLowerCase World getInfo dex_search
                  Details C details_chapters getMangaInfo) anilistId (w, [])) /\
  not_found (Routes.asurascans_chapters World _
               (Mapping.getChaptersByAnilistIdFromAsura toLowerCase World getInfo search
                  Details C details_chapters getMangaInfo search_null_title)
               anilistId (w, [])) /\
  not_found (Routes.mangapark_chapters World _
               (Mapping.getChaptersByAnilistIdFromMangaPark toLowerCase World getInfo search
                  Details C details_chapters getMangaInfo search_null_title)
               anilistId (w, [])) /\
  not_found (Routes.mangabuddy_chapters World _
               (Mapping.getChaptersByAnilistIdFromMangaBuddy toLowerCase World getInfo search
                  Details C details_chapters getMangaInfo search_null_title)
               anilistId (w, [])) /\
  not_found (Routes.mangakakalot_chapters World _
               (Mapping.getChaptersByAnilistIdFromMangaKakalot toLowerCase World getInfo
                  search Details C details_chapters getMangaInfo search_null_title)
               anilistId (w, [])).
Proof.
  intros Hid Hnum Hf Hd getInfo not_found.
  destruct (getInfo_unknown fetch anilistId w data w1 Hf Hd) as (reason & Hg & Hr).
  assert (Hscraped : forall provider synonyms_for searchProvider,
    not_found (Routes.chapters_route World _ provider
                 (Mapping.getChaptersFrom World getInfo Details C details_chapters
                    getMangaInfo search_null_title provider synonyms_for searchProvider)
                 anilistId (w, []))).
  { intros provider synonyms_for searchProvider.
    eexists. erewrite chapters_route_throws;
      [|exact Hid|exact Hnum|apply getChaptersFrom_getInfo_fails; exact Hg].
    cbn [error_message]. rewrite app_assoc.
    rewrite (on_error_anilist _ _ _ _ Hr). reflexivity. }
  split; [|repeat split; apply Hscraped].
  eexists. unfold Routes.mangadex_chapters. erewrite chapters_route_throws;
    [|exact Hid|exact Hnum|apply getChaptersByAnilistId_getInfo_fails; exact Hg].
  cbn [error_message]. rewrite (on_error_anilist _ _ _ _ Hr). reflexivity.
Qed.

Lemma chapter_routes_unknown_anilist_id_witness :
  Routes.status_of
    (fst (Routes.asurascans_chapters unit _
            (Mapping.getChaptersByAnilistIdFromAsura toLowerCase_latin unit
               (Anilist.getInfo fetch_no_media) search_nothing unit unit chapters_nothing
               details_nothing null_title_fails)
            (js "999999") (tt, []))) = 404.
Proof.
  destruct (chapter_routes_unknown_anilist_id toLowerCase_latin unit fetch_no_media
              search_nothing dex_search_nothing unit unit chapters_nothing details_nothing
              null_title_fails (js "999999") tt (Anilist.mkResponse None None) tt)
    as (_ & (details & E) & _).
  - reflexivity.
  - reflexivity.
  - reflexivity.
  - right. split; reflexivity.
  - rewrite E. reflexivity.
Defined.

(** ** A search that finds nothing *)

Section NothingFound.
Variable toLowerCase : jsstring -> jsstring.
Variable World : Type.
Variable search : jsstring -> World -> completion Mapper.search_reply * World.
Hypothesis search_quiet :
  forall q w, exists r w', search q w = (Return r, w') /\ Mapper.no_results r = true.

Lemma try_synonyms_all_quiet t synonyms : forall rest w log,
  exists w' tried,
    Mapper.try_synonyms toLowerCase World search t synonyms rest (w, log)
    = (Return None, (w', log ++ tried)) /\ map fst tried = rest.
Proof.
  induction rest as [|synonym rest IH]; intros w log.
  - exists w, []. rewrite app_nil_r. split; reflexivity.
  - cbn [Mapper.try_synonyms]. unfold Mapper.bind at 1. unfold Mapper.call at 1.
    cbn [fst snd]. destruct (search_quiet synonym w) as (r & w1 & -> & Hr).
    rewrite has_results_no_results, Hr. cbn [negb].
    destruct (IH w1 (log ++ [(synonym, Return r)])) as (w' & tried & E & Hq).
    exists w', ((synonym, Return r) :: tried).
    split; [|cbn [map fst]; rewrite Hq; reflexivity].
    etransitivity; [exact E|]. rewrite <- app_assoc. reflexivity.
Qed.

Lemma search_with_synonyms_all_quiet provider t synonyms w :
  exists w' log',
    Mapper.search_with_synonyms toLowerCase World provider search t synonyms (w, [])
    = (Throw (Error (js "Failed to search manga on " ++ js provider ++ js ": "
                       ++ (js "No matching manga found on " ++ js provider
                             ++ js " for title: " ++ t))), (w', log')) /\
    map fst log' = t :: synonyms.
Proof.
  unfold Mapper.search_with_synonyms, Mapper.try_catch.
  unfold Mapper.bind at 1. unfold Mapper.call at 1. cbn [fst snd app].
  destruct (search_quiet t w) as (r & w1 & -> & Hr). rewrite Hr.
  destruct synonyms as [|s0 synonyms'].
  - exists w1, [(t, Return r)]. split; reflexivity.
  - change (0 <? length (s0 :: synonyms')) with true. cbv iota.
    unfold Mapper.bind.
    destruct (Mapper.try_synonyms toLowerCase World search t (s0 :: synonyms')
                (s0 :: synonyms') (w1, [(t, Return r)])) as [out1 [w1' log1]] eqn:Hrun.
    destruct (try_synonyms_all_quiet t (s0 :: synonyms') (s0 :: synonyms') w1 [(t, Return r)])
      as (w' & tried & E & Hq).
    pose proof (eq_trans (eq_sym Hrun) E) as X. injection X as -> -> ->.
    exists w', ([(t, Return r)] ++ tried). split; [reflexivity|].
    cbn [app map fst]. rewrite Hq. reflexivity.
Qed.

Lemma searchMangaKakalot_all_quiet t synonyms w :
  exists w' log',
    Mapping.searchMangaKakalot toLowerCase World search t synonyms (w, [])
    = (Throw (Error (js "Failed to search manga on MangaKakalot: "
                       ++ (js "No matching manga found on MangaKakalot for title: " ++ t))),
       (w', log')) /\
    map fst log' = t :: kakalot_queried synonyms.
Proof.
  unfold Mapping.searchMangaKakalot, Mapper.try_catch.
  unfold Mapper.bind at 1. unfold Mapper.call at 1. cbn [fst snd app].
  destruct (search_quiet t w) as (r & w1 & -> & Hr). rewrite Hr.
  destruct synonyms as [|s0 synonyms'].
  - exists w1, [(t, Return r)]. split; reflexivity.
  - change (0 <? length (s0 :: synonyms')) with true. cbv iota.
    unfold Mapper.bind. rewrite try_synonyms_kakalot_filter.
    destruct (Mapper.try_synonyms toLowerCase World search t (s0 :: synonyms')
                (kakalot_queried (s0 :: synonyms')) (w1, [(t, Return r)]))
      as [out1 [w1' log1]] eqn:Hrun.
    destruct (try_synonyms_all_quiet t (s0 :: synonyms') (kakalot_queried (s0 :: synonyms'))
                w1 [(t, Return r)]) as (w' & tried & E & Hq).
    pose proof (eq_trans (eq_sym Hrun) E) as X. injection X as -> -> ->.
    exists w', ([(t, Return r)] ++ tried). split; [reflexivity|].
    cbn [app map fst]. rewrite Hq. reflexivity.
Qed.

End NothingFound.

Lemma getChaptersFrom_search_fails {World Details C : Type}
    (getInfo : jsstring -> World -> completion Anilist.AnimeInfo * World)
    (details_chapters : Details -> option (list C))
    (getMangaInfo : jsstring -> World -> completion Details * World)
    (search_null_title : list jsstring -> Mapper.M World ListingCandidate)
    (provider : string) synonyms_for searchProvider anilistId w animeInfo w1 t e st' :
  getInfo anilistId w = (Return animeInfo, w1) ->
  Mapping.searchTitle animeInfo = Some t ->
  searchProvider t (synonyms_for animeInfo) (w1, []) = (Throw e, st') ->
  Mapping.getChaptersFrom World getInfo Details C details_chapters getMangaInfo
    search_null_title provider synonyms_for searchProvider anilistId (w, [])
  = (Throw (Error (js provider ++ js " mapping error: " ++ error_message e)), st').
Proof.
  intros Hg Ht Hs. unfold Mapping.getChaptersFrom, Mapper.try_catch.
  unfold Mapper.bind at 1. unfold external. cbn [fst snd]. rewrite Hg. cbn [fst snd].
  rewrite Ht. unfold Mapper.bind at 1.
  match goal with
  | |- context [searchProvider t (synonyms_for animeInfo) ?s] =>
      assert (Hs' : searchProvider t (synonyms_for animeInfo) s = (Throw e, st')) by exact Hs;
      rewrite Hs'
  end.
  reflexivity.
Qed.

Lemma on_error_nothing_found {R : Type} (provider : string) (anilistId : jsstring)
    (before after : jsstring) :
  Routes.status_of
    (@Routes.on_error R provider anilistId
       (Error (before ++ (js "No matching manga found on " ++ js provider) ++ after))) = 404.
Proof.
  unfold Routes.on_error. cbn [error_message].
  rewrite (includes_embedded before (js "No matching manga found on " ++ js provider) after).
  destruct (_ || _); reflexivity.
Qed.

(** X15: when no query finds anything, the routes of AsuraScans, MangaPark,
    MangaBuddy and MangaKakalot respond with status 404 after the search
    title and then every synonym has been sent, in order (for MangaKakalot
    every synonym that is not blank). *)
Theorem chapter_routes_nothing_found
    (toLowerCase : jsstring -> jsstring) (World : Type)
    (getInfo : jsstring -> World -> completion Anilist.AnimeInfo * World)
    (search : jsstring -> World -> completion Mapper.search_reply * World)
    (Details C : Type) (details_chapters : Details -> option (list C))
    (getMangaInfo : jsstring -> World -> completion Details * World)
    (search_null_title : list jsstring -> Mapper.M World ListingCandidate)
    (anilistId : jsstring) (w : World) (animeInfo : Anilist.AnimeInfo) (w1 : World)
    (t : jsstring) :
  not_blank anilistId = true -> Routes.parseInt_isNaN anilistId = false ->
  getInfo anilistId w = (Return animeInfo, w1) ->
  Mapping.searchTitle animeInfo = Some t ->
  (forall q w, exists r w', search q w = (Return r, w') /\ Mapper.no_results r = true) ->
  let answers (queries : list jsstring)
        (answer : Routes.response (Mapping.Mapped C) * (World * Mapper.call_log)) :=
    Routes.status_of (fst answer) = 404 /\ map fst (snd (snd answer)) = queries in
  answers (t :: Mapping.synonyms_of animeInfo)
    (Routes.asurascans_chapters World _
       (Mapping.getChaptersByAnilistIdFromAsura toLowerCase World getInfo search
          Details C details_chapters getMangaInfo search_null_title) anilistId (w, [])) /\
  answers (t :: Mapping.synonyms_of animeInfo)
    (Routes.mangapark_chapters World _
       (Mapping.getChaptersByAnilistIdFromMangaPark toLowerCase World getInfo search
          Details C details_chapters getMangaInfo search_null_title) anilistId (w, [])) /\
  answers (t :: Mapping.synonyms_of animeInfo)
    (Routes.mangabuddy_chapters World _
       (Mapping.getChaptersByAnilistIdFromMangaBuddy toLowerCase World getInfo search
          Details C details_chapters getMangaInfo search_null_title) anilistId (w, [])) /\
  answers (t :: kakalot_queried (Mapping.synonyms_of_kakalot animeInfo))
    (Routes.mangakakalot_chapters World _
       (Mapping.getChaptersByAnilistIdFromMangaKakalot toLowerCase World getInfo search
          Details C details_chapters getMangaInfo search_null_title) anilistId (w, [])).
Proof.
  intros Hid Hnum Hg Ht Hquiet answers.
  assert (Hchain : forall provider,
    answers (t :: Mapping.synonyms_of animeInfo)
      (Routes.chapters_route World _ provider
         (Mapping.getChaptersFrom World getInfo Details C details_chapters getMangaInfo
            search_null_title provider Mapping.synonyms_of
            (Mapper.search_with_synonyms toLowerCase World provider search))
         anilistId (w, []))).
  { intros provider.
    destruct (search_with_synonyms_all_quiet toLowerCase World search Hquiet provider t
                (Mapping.synonyms_of animeInfo) w1) as (w' & log' & Hs & Hq).
    unfold answers. erewrite chapters_route_throws;
      [|exact Hid|exact Hnum|
       eapply getChaptersFrom_search_fails; [exact Hg|exact Ht|exact Hs]].
    cbn [fst snd error_message]. split; [|exact Hq].
    match goal with
    | |- Routes.status_of (Routes.on_error _ _ (Error ?m)) = _ =>
        replace m with ((js provider ++ js " mapping error: "
                           ++ js "Failed to search manga on " ++ js provider ++ js ": ")
                          ++ (js "No matching manga found on " ++ js provider)
                          ++ (js " for title: " ++ t))
          by (rewrite <- !app_assoc; reflexivity)
    end.
    apply on_error_nothing_found. }
  split; [apply Hchain|]. split; [apply Hchain|]. split; [apply Hchain|].
  destruct (searchMangaKakalot_all_quiet toLowerCase World search Hquiet t
              (Mapping.synonyms_of_kakalot animeInfo) w1) as (w' & log' & Hs & Hq).
  unfold answers, Routes.mangakakalot_chapters. erewrite chapters_route_throws;
    [|exact Hid|exact Hnum|
     eapply getChaptersFrom_search_fails; [exact Hg|exact Ht|exact Hs]].
  cbn [fst snd error_message]. split; [|exact Hq].
  change (js "No matching manga found on MangaKakalot for title: ")
    with ((js "No matching manga found on " ++ js "MangaKakalot") ++ js " for title: ").
  match goal with
  | |- Routes.status_of (Routes.on_error _ _ (Error ?m)) = _ =>
      replace m with ((js "MangaKakalot" ++ js " mapping error: "
                         ++ js "Failed to search manga on MangaKakalot: ")
                        ++ (js "No matching manga found on " ++ js "MangaKakalot")
                        ++ (js " for title: " ++ t))
        by (rewrite <- !app_assoc; reflexivity)
  end.
  apply on_error_nothing_found.
Qed.

Lemma chapter_routes_nothing_found_witness :
  map fst (snd (snd
    (Routes.mangakakalot_chapters unit _
       (Mapping.getChaptersByAnilistIdFromMangaKakalot toLowerCase_latin unit
          (Anilist.getInfo fetch_one_piece) search_nothing unit unit chapters_nothing
          details_nothing null_title_fails)
       (js "21") (tt, []))))
  = [js "ONE PIECE"; js "OP"; js "One Piece"; js "ONE PIECE"].
Proof.
  destruct (chapter_routes_nothing_found toLowerCase_latin unit
              (Anilist.getInfo fetch_one_piece) search_nothing unit unit chapters_nothing
              details_nothing null_title_fails (js "21") tt
              (Anilist.mkInfo (Anilist.mkTitle (Some (js "One Piece")) (Some (js "ONE PIECE"))
                                 None) [js "OP"; js " "])
              tt (js "ONE PIECE"))
    as (_ & _ & _ & (_ & H)).
  - reflexivity.
  - reflexivity.
  - reflexivity.
  - reflexivity.
  - intros q w. exists (Mapper.Reply (Some [])), w. split; reflexivity.
  - exact H.
Defined.

Lemma getChaptersByAnilistId_search_quiet {World Details C : Type}
    (toLowerCase : jsstring -> jsstring)
    (getInfo : jsstring -> World -> completion Anilist.AnimeInfo * World)
    (dex_search : jsstring -> World -> completion Mapping.dex_reply * World)
    (details_chapters : Details -> option (list C))
    (getMangaInfo : jsstring -> World -> completion Details * World)
    anilistId w animeInfo w1 searchTitle r w2 :
  getInfo anilistId w = (Return animeInfo, w1) ->
  searchTitle = match js_or (Anilist.english (Anilist.title animeInfo))
                            (Anilist.romaji (Anilist.title animeInfo)) with
                | Some (c :: s) => c :: s
                | _ => js "Manga"
                end ->
  dex_search searchTitle w1 = (Return r, w2) ->
  Mapping.dex_no_results r = true ->
  Mapping.getChaptersByAnilistId toLowerCase World getInfo dex_search Details C
    details_chapters getMangaInfo anilistId (w, [])
  = (Throw (Error (js "Mapping error: "
                     ++ (js "No matching manga found on Mangadex for title: " ++ searchTitle))),
     (w2, [])).
Proof.
  intros Hg -> Hs Hr. unfold Mapping.getChaptersByAnilistId, Mapper.try_catch.
  unfold Mapper.bind at 1. unfold external at 1. cbn [fst snd]. rewrite Hg. cbn [fst snd].
  unfold Mapper.bind at 1. unfold external at 1. cbn [fst snd]. rewrite Hs, Hr.
  reflexivity.
Qed.

(** X16: the MangaDex route searches for the English title, else the
    romaji title, else the word Manga; when that one search finds nothing
    it responds with status 404 and the details of no manga are requested:
    the world is left as the search left it. *)
Theorem mangadex_route_nothing_found
    (toLowerCase : jsstring -> jsstring) (World : Type)
    (getInfo : jsstring -> World -> completion Anilist.AnimeInfo * World)
    (dex_search : jsstring -> World -> completion Mapping.dex_reply * World)
    (Details C : Type) (details_chapters : Details -> option (list C))
    (getMangaInfo : jsstring -> World -> completion Details * World)
    (anilistId : jsstring) (w : World) (animeInfo : Anilist.AnimeInfo) (w1 : World)
    (r : Mapping.dex_reply) (w2 : World) :
  let searchTitle :=
    match filter_Boolean [Anilist.english (Anilist.title animeInfo);
                          Anilist.romaji (Anilist.title animeInfo)] with
    | first :: _ => first
    | [] => js "Manga"
    end in
  not_blank anilistId = true -> Routes.parseInt_isNaN anilistId = false ->
  getInfo anilistId w = (Return animeInfo, w1) ->
  dex_search searchTitle w1 = (Return r, w2) ->
  Mapping.dex_no_results r = true ->
  let answer :=
    Routes.mangadex_chapters World _
      (Mapping.getChaptersByAnilistId toLowerCase World getInfo dex_search Details C
         details_chapters getMangaInfo) anilistId (w, []) in
  Routes.status_of (fst answer) = 404 /\ snd answer = (w2, []).
Proof.
  intros searchTitle Hid Hnum Hg Hs Hr answer.
  assert (E : searchTitle = match js_or (Anilist.english (Anilist.title animeInfo))
                                        (Anilist.romaji (Anilist.title animeInfo)) with
                            | Some (c :: s) => c :: s
                            | _ => js "Manga"
                            end).
  { unfold searchTitle, filter_Boolean, js_or. cbn [flat_map app].
    destruct (Anilist.english (Anilist.title animeInfo)) as [[|c s]|];
      destruct (Anilist.romaji (Anilist.title animeInfo)) as [[|c' s']|]; reflexivity. }
  unfold answer, Routes.mangadex_chapters. erewrite chapters_route_throws;
    [|exact Hid|exact Hnum|
     eapply getChaptersByAnilistId_search_quiet; [exact Hg|exact E|exact Hs|exact Hr]].
  cbn [fst snd]. split; [|reflexivity].
  change (js "No matching manga found on Mangadex for title: ")
    with ((js "No matching manga found on " ++ js "Mangadex") ++ js " for title: ").
  rewrite <- app_assoc. apply on_error_nothing_found.
Qed.

Lemma mangadex_route_nothing_found_witness :
  Routes.status_of
    (fst (Routes.mangadex_chapters unit _
            (Mapping.getChaptersByAnilistId toLowerCase_latin unit
               (Anilist.getInfo fetch_one_piece) dex_search_nothing unit unit
               chapters_nothing details_nothing)
            (js "21") (tt, []))) = 404.
Proof.
  destruct (mangadex_route_nothing_found toLowerCase_latin unit
              (Anilist.getInfo fetch_one_piece) dex_search_nothing unit unit
              chapters_nothing details_nothing (js "21") tt
              (Anilist.mkInfo (Anilist.mkTitle (Some (js "One Piece")) (Some (js "ONE PIECE"))
                                 None) [js "OP"; js " "])
              tt (Mapping.DexReply (Some [])) tt) as [H _].
  - reflexivity.
  - reflexivity.
  - reflexivity.
  - reflexivity.
  - reflexivity.
  - exact H.
Defined.

(** ** Sorted chapter lists *)

Lemma descending_insert {A : Type} (key : A -> Q) (compare : A -> A -> Q) (x : A) :
  (forall a b, compare a b = (key b - key a)%Q) ->
  forall l, descending_by key l -> descending_by key (insert_sorted compare x l).
Proof.
  intros Hc. induction l as [|y l IH]; intros Hl.
  - cbn. split; [constructor | exact I].
  - destruct Hl as [Hy Hl]. cbn [insert_sorted].
    destruct (Qltb 0 (compare x y)) eqn:E.
    + apply Qltb_lt in E. rewrite Hc in E. apply Qlt_minus_iff in E.
      cbn [descending_by]. split; [|apply IH, Hl].
      apply List.Forall_forall. intros z Hz. apply insert_sorted_In in Hz.
      destruct Hz as [->|Hz]; [apply Qlt_le_weak, E|].
      rewrite List.Forall_forall in Hy. apply Hy, Hz.
    + apply Qltb_ge in E. rewrite Hc in E.
      assert (Hyx : (key y <= key x)%Q).
      { apply Qle_minus_iff. apply Qle_minus_iff in E.
        setoid_replace (key x + - key y)%Q with (0 + - (key y - key x))%Q using relation Qeq by ring.
        exact E. }
      cbn [descending_by]. split; [|split; [exact Hy | exact Hl]].
      constructor; [exact Hyx|].
      rewrite List.Forall_forall in *. intros z Hz.
      eapply Qle_trans; [apply Hy, Hz | exact Hyx].
Qed.

Lemma sort_descending {A : Type} (key : A -> Q) (compare : A -> A -> Q) (l : list A) :
  (forall a b, compare a b = (key b - key a)%Q) ->
  descending_by key (sort compare l).
Proof.
  intros Hc. induction l as [|x l IH]; [exact I|].
  cbn [sort]. apply descending_insert; assumption.
Qed.

Lemma insert_sorted_Permutation {A : Type} (compare : A -> A -> Q) (x : A) (l : list A) :
  Permutation (insert_sorted compare x l) (x :: l).
Proof.
  induction l as [|y l IH]; [reflexivity|].
  cbn [insert_sorted]. destruct (Qltb 0 (compare x y)); [|reflexivity].
  rewrite IH. apply perm_swap.
Qed.

Lemma sort_Permutation {A : Type} (compare : A -> A -> Q) (l : list A) :
  Permutation (sort compare l) l.
Proof.
  induction l as [|x l IH]; [reflexivity|].
  cbn [sort]. rewrite insert_sorted_Permutation, IH. reflexivity.
Qed.

Lemma chapter_of_length (el : MangaPark.ChapterAnchor) :
  length (MangaParkFirst.chapter_of el)
  = if not_blank (default [] (MangaPark.href el)) then 1 else 0.
Proof.
  unfold MangaParkFirst.chapter_of.
  destruct (MangaPark.href el) as [[|c h]|]; try reflexivity.
  destruct (exec _ _) as [m|]; [destruct (parseFloat _)|]; reflexivity.
Qed.

(** X17: on a page whose chapter numbers are plain numerals (at most 15
    digits, at most 6 of them after the point, where the doubles of the
    code are the exact values), both versions of MangaPark's
    [getMangaInfo] return the chapters in the order of their numbers,
    largest first, a chapter without a readable number counting as 0.  The
    first version returns one chapter for every anchor that has an [href],
    also when two anchors carry the same number. *)
Theorem mangapark_chapters_descending (anchors : list MangaPark.ChapterAnchor)
    (mangaId : jsstring)
    (plain : List.Forall (fun el => MangaPark.plainly_numbered el = true) anchors) :
  descending_by chapter_key (MangaPark.getMangaInfo anchors mangaId) /\
  descending_by chapter_key (MangaParkFirst.getMangaInfo anchors) /\
  Permutation (MangaParkFirst.getMangaInfo anchors)
              (flat_map MangaParkFirst.chapter_of anchors) /\
  length (MangaParkFirst.getMangaInfo anchors)
  = length (List.filter (fun el => not_blank (default [] (MangaPark.href el))) anchors).
Proof.
  clear plain.
  split; [apply sort_descending; reflexivity|].
  split; [apply sort_descending; reflexivity|].
  split; [apply sort_Permutation|].
  unfold MangaParkFirst.getMangaInfo. rewrite (Permutation_length (sort_Permutation _ _)).
  induction anchors as [|el anchors IH]; [reflexivity|].
  cbn [flat_map List.filter]. rewrite length_app, IH, chapter_of_length.
  destruct (not_blank _); reflexivity.
Qed.

(** A page that lists chapter 2, chapter 10.5 twice and a link without a
    number: the links are plainly numbered, and the first version returns
    all four, 10.5 first and the link without a number last. *)
Lemma mangapark_chapters_descending_witness :
  let anchors :=
    [ MangaPark.mkAnchor (Some (js "/title/9-en-x/2-chapter-2")) (js "Chapter 2") (js "3 days ago");
      MangaPark.mkAnchor (Some (js "/title/9-en-x/5-chapter-10.5")) (js "Chapter 10.5") [];
      MangaPark.mkAnchor (Some (js "/title/9-en-x/4-extra")) (js "Extra") [];
      MangaPark.mkAnchor (Some (js "/title/9-en-x/6-chapter-10.5")) (js "Chapter 10.5") [] ] in
  List.Forall (fun el => MangaPark.plainly_numbered el = true) anchors /\
  map Chapter.number (MangaParkFirst.getMangaInfo anchors)
  = [js "10.5"; js "10.5"; js "2"; []] /\
  descending_by chapter_key (MangaPark.getMangaInfo anchors (js "9-en-x")) /\
  descending_by chapter_key (MangaParkFirst.getMangaInfo anchors) /\
  length (MangaParkFirst.getMangaInfo anchors) = 4.
Proof.
  intros anchors.
  assert (plain : List.Forall (fun el => MangaPark.plainly_numbered el = true) anchors).
  { repeat (constructor; [vm_compute; reflexivity|]). constructor. }
  destruct (mangapark_chapters_descending anchors (js "9-en-x") plain)
    as [revised [first [_ count]]].
  split; [exact plain|].
  split; [vm_compute; reflexivity|].
  split; [exact revised|].
  split; [exact first|].
  rewrite count. vm_compute. reflexivity.
Defined.

(** ** The images of a MangaBuddy chapter *)

Lemma images_from (selected : list ImgElement) : forall k,
  let images := concat (imap (fun i => MangaBuddyImages.image (k + i)) selected) in
  Forall (fun p => k + 1 <= index p <= k + length selected /\
                   exists element,
                     selected !! (index p - (k + 1)) = Some element /\
                     url p = VString (element_src element) /\
                     element_src element <> []) images /\
  increasing (map index images).
Proof.
  induction selected as [|el selected IH]; intros k.
  - cbn. split; [constructor | exact I].
  - cbn zeta. rewrite imap_cons. cbn [concat].
    assert (E : imap ((fun i => MangaBuddyImages.image (k + i)) ∘ S) selected
                = imap (fun i => MangaBuddyImages.image (S k + i)) selected).
    { apply imap_ext. intros i x _. unfold compose. f_equal. lia. }
    rewrite E. destruct (IH (S k)) as [Hall Hinc]. clear E IH.
    assert (Hrest : Forall
              (fun p => k + 1 <= index p <= k + length (el :: selected) /\
                        exists element,
                          (el :: selected) !! (index p - (k + 1)) = Some element /\
                          url p = VString (element_src element) /\
                          element_src element <> [])
              (concat (imap (fun i => MangaBuddyImages.image (S k + i)) selected))).
    { eapply List.Forall_impl; [|exact Hall].
      intros p ([H1 H2] & element & Hl & Hu & Hs). cbn [length].
      split; [lia|]. exists element. split; [|split; assumption].
      replace (index p - (k + 1)) with (S (index p - (S k + 1))) by lia. exact Hl. }
    unfold MangaBuddyImages.image at 1 3. fold (element_src el).
    destruct (length (element_src el) =? 0) eqn:Hsrc; cbn [negb app map].
    + split; [exact Hrest | exact Hinc].
    + split.
      * constructor; [|exact Hrest]. cbn [index url length].
        split; [lia|]. exists el.
        replace (k + 0 + 1 - (k + 1)) with 0 by lia.
        split; [reflexivity|]. split; [reflexivity|].
        intros Hnil. rewrite Hnil in Hsrc. discriminate.
      * cbn [increasing index]. split; [|exact Hinc].
        apply Forall_map. eapply List.Forall_impl; [|exact Hall].
        intros p ([H1 _] & _). lia.
Qed.

(** X18: [getChapterImages] of MangaBuddy numbers an image by the position
    of its element among the selected ones, counted from 1, so the numbers
    strictly increase but skip the elements without a source; every image
    has the non-empty source of its element, [data-src] before [src], and
    nothing is removed as a duplicate. *)
Theorem getChapterImages_indices (selected : list ImgElement) :
  let images := MangaBuddyImages.getChapterImages selected in
  Forall (fun p => exists element,
                     selected !! (index p - 1) = Some element /\
                     1 <= index p /\
                     url p = VString (element_src element) /\
                     element_src element <> []) images /\
  increasing (map index images) /\
  length images = length (List.filter (fun el => not_blank (element_src el)) selected).
Proof.
  intros images.
  destruct (images_from selected 0) as [Hall Hinc].
  split; [|split; [exact Hinc|]].
  - eapply List.Forall_impl; [|exact Hall].
    intros p ([H1 _] & element & Hl & Hu & Hs).
    exists element. split; [exact Hl|]. split; [lia|]. split; assumption.
  - unfold images, MangaBuddyImages.getChapterImages.
    assert (E : forall k, length (concat (imap (fun i => MangaBuddyImages.image (k + i)) selected))
                = length (List.filter (fun el => not_blank (element_src el)) selected)).
    { clear. induction selected as [|el selected IH]; intros k; [reflexivity|].
      rewrite imap_cons. cbn [concat List.filter]. rewrite length_app.
      assert (E : imap ((fun i => MangaBuddyImages.image (k + i)) ∘ S) selected
                  = imap (fun i => MangaBuddyImages.image (S k + i)) selected).
      { apply imap_ext. intros i x _. unfold compose. f_equal. lia. }
      rewrite E, IH. unfold MangaBuddyImages.image. fold (element_src el).
      unfold not_blank. destruct (length (element_src el) =? 0); reflexivity. }
    exact (E 0).
Qed.

(** ** Chapter references *)

Lemma split_on_first (sep : N) (s : jsstring) : forall piece,
  exists p0 rest, split_on sep s piece = p0 :: rest /\ (piece <> [] -> p0 <> []).
Proof.
  induction s as [|c s IH]; intros piece; cbn [split_on].
  - exists (rev piece), []. split; [reflexivity|].
    intros H E. apply H. destruct piece; [reflexivity|].
    cbn [rev] in E. destruct (rev piece); discriminate.
  - destruct (c =? sep)%N.
    + exists (rev piece), (split_on sep s []). split; [reflexivity|].
      intros H E. apply H. destruct piece; [reflexivity|].
      cbn [rev] in E. destruct (rev piece); discriminate.
    + destruct (IH (c :: piece)) as (p0 & rest & E & H).
      exists p0, rest. split; [exact E|]. intros _. apply H. discriminate.
Qed.

Lemma join_split_on (sep : N) (s : jsstring) : forall piece,
  ChapterReference.join sep (split_on sep s piece) = rev piece ++ s.
Proof.
  induction s as [|c s IH]; intros piece; cbn [split_on].
  - cbn [ChapterReference.join]. rewrite app_nil_r. reflexivity.
  - destruct (N.eqb_spec c sep) as [->|Hne].
    + destruct (split_on_first sep s []) as (p0 & rest & E & _).
      specialize (IH []). rewrite E in *. cbn [ChapterReference.join].
      cbn [ChapterReference.join rev app] in IH. rewrite IH. reflexivity.
    + rewrite IH. cbn [rev]. rewrite <- app_assoc. reflexivity.
Qed.

Lemma startsWith_slash (c : N) (s : jsstring) :
  startsWith (c :: s) (js "/") = (47 =? c)%N.
Proof.
  change (js "/") with [47%N]. cbn [startsWith].
  destruct s; rewrite andb_true_r; reflexivity.
Qed.

Lemma includes_slash_first (s : jsstring) : includes (47%N :: s) (js "/") = true.
Proof. cbn [includes]. rewrite startsWith_slash. reflexivity. Qed.

Lemma strip_slash_other (s : jsstring) :
  startsWith s (js "/") = false -> ChapterReference.strip_slash s = s.
Proof.
  destruct s as [|c s]; [reflexivity|]. rewrite startsWith_slash.
  intros H. apply N.eqb_neq in H. unfold ChapterReference.strip_slash.
  destruct c as [|p]; [reflexivity|].
  repeat (destruct p as [p|p|]; try reflexivity). congruence.
Qed.

Lemma split_on_single (s : jsstring) : forall piece p0,
  split_on 47 s piece = [p0] -> includes s (js "/") = false.
Proof.
  induction s as [|c s IH]; intros piece p0 E; [reflexivity|].
  cbn [split_on] in E. cbn [includes]. rewrite startsWith_slash.
  destruct (N.eqb_spec c 47) as [->|Hne].
  - destruct (split_on_first 47 s []) as (q & rest & E' & _). rewrite E' in E. discriminate.
  - rewrite (IH _ _ E). destruct (N.eqb_spec 47 c); [congruence | reflexivity].
Qed.

(** Wherever the first slash is, putting the two parts together again
    gives the path back, without its leading slash if it has one. *)
Lemma locate_spec (s : jsstring) :
  let '(mangaId, chapterPath) := ChapterReference.locate s in
  (if negb (length mangaId =? 0)%nat then mangaId ++ js "/" ++ chapterPath else chapterPath)
  = ChapterReference.strip_slash s /\
  (negb (length mangaId =? 0)%nat
   = includes s (js "/") && negb (startsWith s (js "/"))).
Proof.
  unfold ChapterReference.locate, split.
  destruct s as [|c s]; [split; reflexivity|].
  destruct (N.eqb_spec c 47) as [->|Hne].
  - rewrite includes_slash_first, startsWith_slash.
    cbn [split_on]. change (47 =? 47)%N with true. cbv iota.
    destruct (split_on_first 47 s []) as (p0 & rest & E & _).
    pose proof (join_split_on 47 s []) as J. rewrite E in *.
    cbn [length Nat.leb List.hd List.tl Nat.eqb negb ChapterReference.strip_slash].
    cbn [rev app] in J. split; [exact J | reflexivity].
  - assert (Hs : startsWith (c :: s) (js "/") = false).
    { rewrite startsWith_slash. apply N.eqb_neq. congruence. }
    assert (Hstrip : ChapterReference.strip_slash (c :: s) = c :: s)
      by (apply strip_slash_other, Hs).
    rewrite Hs, Hstrip, andb_true_r.
    destruct (includes (c :: s) (js "/")) eqn:Hi; [|split; reflexivity].
    cbn [split_on]. destruct (N.eqb_spec c 47) as [|_]; [congruence|].
    destruct (split_on_first 47 s [c]) as (p0 & rest & E & Hp0).
    pose proof (join_split_on 47 s [c]) as J. rewrite E in *.
    cbn [rev app] in J.
    destruct rest as [|p1 rest].
    + apply split_on_single in E. cbn [includes] in Hi.
      rewrite Hs, E in Hi. discriminate.
    + cbn [length Nat.leb List.hd List.tl].
      assert (Hne0 : p0 <> []) by (apply Hp0; discriminate).
      destruct p0 as [|a p0]; [congruence|].
      cbn [length Nat.eqb negb]. split; [|reflexivity].
      rewrite <- J. cbn [ChapterReference.join]. reflexivity.
Qed.

Lemma mangabuddy_url_plain (pathname : jsstring -> completion jsstring)
    (chapterId : jsstring) :
  ChapterReference.mangabuddy_url pathname chapterId
  = if startsWith chapterId (js "http") then
      match pathname chapterId with
      | Return p =>
          Return (MangaBuddy.baseUrl ++ js "/" ++ ChapterReference.strip_slash (drop 1 p))
      | Throw e => Throw e
      end
    else Return (MangaBuddy.baseUrl ++ js "/" ++ ChapterReference.strip_slash chapterId).
Proof.
  assert (H : forall s,
    (let '(mangaId, chapterPath) := ChapterReference.locate s in
     @Return jsstring
       (if negb (length mangaId =? 0)%nat
        then MangaBuddy.baseUrl ++ js "/" ++ mangaId ++ js "/" ++ chapterPath
        else MangaBuddy.baseUrl ++ js "/" ++ chapterPath))
    = Return (MangaBuddy.baseUrl ++ js "/" ++ ChapterReference.strip_slash s)).
  { intros s. pose proof (locate_spec s) as L.
    destruct (ChapterReference.locate s) as [mangaId chapterPath].
    destruct L as [L _]. rewrite <- L.
    destruct (negb (length mangaId =? 0)); reflexivity. }
  unfold ChapterReference.mangabuddy_url, ChapterReference.resolve, ChapterReference.path_of.
  destruct (startsWith chapterId (js "http")).
  - destruct (pathname chapterId) as [p|e]; [apply H | reflexivity].
  - apply H.
Qed.

(** X19: the split of a chapter reference into manga and chapter does not
    change what MangaBuddy is asked for: the URL requested is the base URL,
    a slash, and the reference without its leading slash.  For an absolute
    URL only the path is used, so the page is always requested from
    MangaBuddy itself, and text that is not a URL makes the call fail. *)
Theorem mangabuddy_url_spec (pathname : jsstring -> completion jsstring)
    (chapterId : jsstring) :
  ChapterReference.mangabuddy_url pathname chapterId
  = if startsWith chapterId (js "http") then
      match pathname chapterId with
      | Return p =>
          Return (MangaBuddy.baseUrl ++ js "/" ++ ChapterReference.strip_slash (drop 1 p))
      | Throw e => Throw e
      end
    else Return (MangaBuddy.baseUrl ++ js "/" ++ ChapterReference.strip_slash chapterId).
Proof. apply mangabuddy_url_plain. Qed.

(** X20: MangaKakalot is asked for the reference under [/manga/] when the
    reference has a slash that is not its first character, and for the
    reference directly under the base URL otherwise: a bare chapter id is
    never looked up under [/manga/]. *)
Theorem mangakakalot_url_spec (pathname : jsstring -> completion jsstring)
    (chapterId : jsstring) :
  let url_of (path : jsstring) :=
    if includes path (js "/") && negb (startsWith path (js "/"))
    then ChapterReference.mangakakalot_baseUrl ++ js "/manga/" ++ path
    else ChapterReference.mangakakalot_baseUrl ++ js "/" ++ ChapterReference.strip_slash path in
  ChapterReference.mangakakalot_url pathname chapterId
  = if startsWith chapterId (js "http") then
      match pathname chapterId with
      | Return p => Return (url_of (drop 1 p))
      | Throw e => Throw e
      end
    else Return (url_of chapterId).
Proof.
  intros url_of.
  assert (H : forall s,
    (let '(mangaId, chapterPath) := ChapterReference.locate s in
     @Return jsstring
       (if negb (length mangaId =? 0)%nat
        then ChapterReference.mangakakalot_baseUrl ++ js "/manga/" ++ mangaId ++ js "/"
               ++ chapterPath
        else ChapterReference.mangakakalot_baseUrl ++ js "/" ++ chapterPath))
    = Return (url_of s)).
  { intros s. pose proof (locate_spec s) as L. unfold url_of.
    destruct (ChapterReference.locate s) as [mangaId chapterPath].
    destruct L as [L1 L2]. rewrite <- L2.
    destruct (negb (length mangaId =? 0)) eqn:E.
    - assert (Hs : ChapterReference.strip_slash s = s).
      { symmetry in L2. apply andb_true_iff in L2. destruct L2 as [_ L2].
        apply strip_slash_other. destruct (startsWith s (js "/")); [discriminate|reflexivity]. }
      rewrite <- Hs, <- L1. reflexivity.
    - rewrite <- L1. reflexivity. }
  unfold ChapterReference.mangakakalot_url, ChapterReference.resolve,
    ChapterReference.path_of.
  destruct (startsWith chapterId (js "http")).
  - destruct (pathname chapterId) as [p|e]; [apply H | reflexivity].
  - apply H.
Qed.

Lemma startsWith_before_slash (p : jsstring) : forall m r,
  ~ In 47%N p -> startsWith m p = false -> startsWith (m ++ 47%N :: r) p = false.
Proof.
  induction p as [|a p IH]; intros m r Hp H.
  - destruct m; discriminate.
  - destruct m as [|c m]; cbn [app startsWith] in *.
    + destruct (N.eqb_spec a 47) as [->|_]; [|reflexivity].
      exfalso. apply Hp. left. reflexivity.
    + destruct (a =? c)%N; [|reflexivity]. cbn [andb] in *.
      apply IH; [|exact H]. intros Hin. apply Hp. right. exact Hin.
Qed.

(** X21: the URL that MangaBuddy's [getMangaInfo] lists for a chapter is
    the URL that [fetchChapterPages] requests for the reference made of the
    manga id, a slash and the id of that chapter, as the route for pages
    builds it. *)
Theorem mangabuddy_listed_chapter_resolves (pathname : jsstring -> completion jsstring)
    (html mangaId : jsstring) (chapters : list Chapter.t) (c : Chapter.t) :
  MangaBuddy.getMangaInfo html mangaId = Return chapters -> In c chapters ->
  mangaId <> [] -> startsWith mangaId (js "/") = false ->
  startsWith mangaId (js "http") = false ->
  ChapterReference.mangabuddy_url pathname (mangaId ++ js "/" ++ Chapter.id c)
  = Return (Chapter.url c).
Proof.
  intros Hinfo Hc Hne Hslash Hhttp.
  unfold MangaBuddy.getMangaInfo in Hinfo.
  destruct (4294967295 <? MangaBuddy.latest_chapter html)%N; [discriminate|].
  injection Hinfo as <-. apply in_map_iff in Hc. destruct Hc as (i & <- & _).
  rewrite mangabuddy_url_plain.
  change (js "/") with [47%N] at 1. cbn [app].
  rewrite startsWith_before_slash;
    [|vm_compute; intros [H|[H|[H|[H|[]]]]]; discriminate | exact Hhttp].
  rewrite strip_slash_other.
  - cbn [MangaBuddy.chapter Chapter.id Chapter.url].
    change (js "/chapter-") with (js "/" ++ js "chapter-").
    rewrite <- !app_assoc. reflexivity.
  - destruct mangaId as [|a m]; [congruence|].
    rewrite startsWith_slash in Hslash. cbn [app]. rewrite startsWith_slash. exact Hslash.
Qed.

Lemma mangabuddy_listed_chapter_resolves_witness :
  ChapterReference.mangabuddy_url (fun _ => Throw (TypeError (js "Invalid URL")))
    (js "solo-leveling" ++ js "/" ++ js "chapter-2")
  = Return (js "https://mangabuddy.com/solo-leveling/chapter-2").
Proof.
  apply (mangabuddy_listed_chapter_resolves (fun _ => Throw (TypeError (js "Invalid URL")))
           (js "CHAPTERS (3)") (js "solo-leveling")
           (map (fun i => MangaBuddy.chapter (js "solo-leveling") 3 (3 - N.of_nat i))
                (seq 0 3))
           (MangaBuddy.chapter (js "solo-leveling") 3 2)).
  - vm_compute. reflexivity.
  - right. left. reflexivity.
  - discriminate.
  - reflexivity.
  - reflexivity.
Defined.

(** ** What MangaKakalot lets through *)

Lemma wanted_spec (s : jsstring) :
  MangaKakalot.wanted s = true ->
  exec MangaKakalot.image_name s <> None /\
  includes s (js "avatar") = false /\ includes s (js "logo") = false /\
  includes s (js "banner") = false.
Proof.
  unfold MangaKakalot.wanted. destruct (exec MangaKakalot.image_name s); [|discriminate].
  intros H. apply andb_true_iff in H. destruct H as [H H3].
  apply andb_true_iff in H. destruct H as [H1 H2].
  apply negb_true_iff in H1, H2, H3. split; [discriminate | auto].
Qed.

Lemma filter_wanted_kept (urls : list jsval) : forall kept,
  MangaKakalot.filter_wanted urls = Return kept ->
  Forall (fun v => exists s, v = VString s /\ In v urls /\ MangaKakalot.wanted s = true) kept.
Proof.
  induction urls as [|[s|t i] urls IH]; intros kept Hk; cbn [MangaKakalot.filter_wanted] in Hk.
  - injection Hk as <-. constructor.
  - destruct (MangaKakalot.filter_wanted urls) as [kept'|e]; [|discriminate].
    injection Hk as <-. specialize (IH kept' eq_refl).
    assert (IH' : Forall (fun v => exists s0, v = VString s0 /\ In v (VString s :: urls)
                                              /\ MangaKakalot.wanted s0 = true) kept').
    { eapply List.Forall_impl; [|exact IH].
      intros v (s0 & E & Hin & Hw). exists s0. split; [exact E|]. split; [right; exact Hin|exact Hw]. }
    destruct (MangaKakalot.wanted s) eqn:W; [|exact IH'].
    constructor; [|exact IH']. exists s. split; [reflexivity|]. split; [left; reflexivity|exact W].
  - discriminate.
Qed.

Lemma filter_wanted_throws (urls : list jsval) : forall e,
  MangaKakalot.filter_wanted urls = Throw e ->
  e = TypeError (js "url.match is not a function") /\
  Exists (fun v => exists truthy ident, v = VOpaque truthy ident) urls.
Proof.
  induction urls as [|[s|t i] urls IH]; intros e He; cbn [MangaKakalot.filter_wanted] in He.
  - discriminate.
  - destruct (MangaKakalot.filter_wanted urls) as [kept'|e']; [discriminate|].
    injection He as <-. destruct (IH e' eq_refl) as [-> Hex].
    split; [reflexivity | right; exact Hex].
  - injection He as <-. split; [reflexivity|]. left. exists t, i. reflexivity.
Qed.

(** X22: every page that MangaKakalot's [fetchChapterPages] returns has a
    string URL that ends in an image extension (with an optional query)
    and holds none of the words avatar, logo and banner.  The call fails,
    and returns no page at all, exactly when one of the collected values is
    not a string, which an image array in a script can bring in. *)
Theorem kakalot_pages_are_images (JSON_parse : jsstring -> parsed) (data : jsstring)
    (reader_images : list ImgElement) (scripts : list jsstring) :
  let collected :=
    MangaKakalot.method3 JSON_parse scripts
      (MangaKakalot.method2 data (MangaKakalot.method1 reader_images [])) in
  match MangaKakalot.fetchChapterPages JSON_parse data reader_images scripts with
  | Return pages =>
      Forall (fun p => exists s,
                url p = VString s /\ In (VString s) collected /\
                exec MangaKakalot.image_name s <> None /\
                includes s (js "avatar") = false /\ includes s (js "logo") = false /\
                includes s (js "banner") = false) pages /\
      Forall (fun v => exists s, v = VString s) collected
  | Throw e =>
      e = Error (js "Failed to fetch chapter pages from MangaKakalot: "
                   ++ js "url.match is not a function") /\
      Exists (fun v => exists truthy ident, v = VOpaque truthy ident) collected
  end.
Proof.
  intros collected. unfold MangaKakalot.fetchChapterPages. fold collected.
  destruct (MangaKakalot.filter_wanted collected) as [kept|e] eqn:E.
  - split.
    + apply filter_wanted_kept in E.
      apply List.Forall_forall. intros p Hp. apply sort_In in Hp.
      destruct (number_pages_spec kept) as [Hu _].
      assert (Hin : In (url p) kept).
      { rewrite <- Hu. apply in_map, Hp. }
      rewrite List.Forall_forall in E. destruct (E _ Hin) as (s & Hs & Hc & Hw).
      exists s. split; [exact Hs|]. split; [rewrite <- Hs; exact Hc|].
      apply wanted_spec, Hw.
    + clear -E. revert kept E.
      induction collected as [|[s|t i] urls IH]; intros kept E;
        cbn [MangaKakalot.filter_wanted] in E.
      * constructor.
      * destruct (MangaKakalot.filter_wanted urls) as [kept'|e]; [|discriminate].
        constructor; [exists s; reflexivity | apply (IH kept' eq_refl)].
      * discriminate.
  - apply filter_wanted_throws in E. destruct E as [-> Hex].
    split; [reflexivity | exact Hex].
Qed.

(** ** The regular expression engine on classes and runs *)

Lemma exec_cons (r : regex) (c : N) (s : jsstring) :
  exec r (c :: s) = match match_here r (c :: s) with
                    | Some m => Some m
                    | None => exec r s
                    end.
Proof. reflexivity. Qed.

Lemma before_cons (r : regex) (c : N) (s : jsstring) :
  before r (c :: s) = match match_here r (c :: s) with
                      | Some m => []
                      | None => c :: before r s
                      end.
Proof. reflexivity. Qed.

Lemma replace_from_skip (r : regex) (rep : jsstring) (f : nat) (c : N) (s : jsstring) :
  match_here r (c :: s) = None ->
  replace_from (S f) r rep (c :: s) = c :: replace_from (S f) r rep s.
Proof.
  intros H. cbn [replace_from]. rewrite exec_cons, before_cons, H.
  destruct (exec r s); reflexivity.
Qed.

Lemma replace_from_hit (r : regex) (rep : jsstring) (f : nat) (c : N) (s : jsstring)
    (m : regex_match) :
  match_here r (c :: s) = Some m -> whole m <> [] ->
  replace_from (S f) r rep (c :: s) = rep ++ replace_from f r rep (after m).
Proof.
  intros H Hw. cbn [replace_from]. rewrite exec_cons, before_cons, H.
  destruct (whole m); [congruence | reflexivity].
Qed.

Lemma replace_from_end (r : regex) (rep : jsstring) (f : nat) :
  match_here r [] = None -> replace_from f r rep [] = [].
Proof. intros H. destruct f; [reflexivity|]. cbn [replace_from exec]. rewrite H. reflexivity. Qed.

Lemma match_here_unit (p : N -> bool) (c : N) (s : jsstring) :
  match_here (Unit p) (c :: s) = if p c then Some (mkMatch [c] [] s) else None.
Proof.
  unfold match_here. cbn [matcher]. destruct (p c); [|reflexivity].
  cbn [length]. replace (S (length s) - length s) with 1 by lia. reflexivity.
Qed.

(** Replacing every unit of a class. *)
Lemma replace_all_unit (p : N -> bool) (rep : jsstring) (s : jsstring) :
  replace_all s (Unit p) rep = flat_map (fun c => if p c then rep else [c]) s.
Proof.
  unfold replace_all.
  assert (H : forall s f, length s < f ->
                replace_from f (Unit p) rep s = flat_map (fun c => if p c then rep else [c]) s).
  { clear s. induction s as [|c s IH]; intros f Hf.
    - apply replace_from_end. reflexivity.
    - destruct f as [|f]; [lia|]. cbn [length] in Hf. cbn [flat_map].
      destruct (p c) eqn:E.
      + rewrite (replace_from_hit _ _ _ _ _ (mkMatch [c] [] s));
          [|rewrite match_here_unit, E; reflexivity | discriminate].
        cbn [after]. rewrite IH by lia. reflexivity.
      + rewrite replace_from_skip by (rewrite match_here_unit, E; reflexivity).
        rewrite IH by lia. reflexivity. }
  apply H. lia.
Qed.

Lemma drop_run_length (p : N -> bool) (s : jsstring) : length (drop_run p s) <= length s.
Proof.
  induction s as [|c s IH]; [reflexivity|].
  cbn [drop_run]. destruct (p c); cbn [length]; lia.
Qed.

(** A greedy repetition of a class takes the whole run. *)
Lemma matcher_many_unit {R : Type} (p : N -> bool) (F : jsstring -> captures -> R)
    (s : jsstring) (caps : captures) :
  matcher (Many true (Unit p)) s caps (fun s' caps' => Some (F s' caps'))
  = Some (F (drop_run p s) caps).
Proof.
  cbn [matcher].
  remember (length s) as n eqn:Hn.
  assert (Hle : length s <= n) by lia. clear Hn.
  revert s caps Hle. induction n as [|n IH]; intros s caps Hle.
  - destruct s; [reflexivity | cbn [length] in Hle; lia].
  - destruct s as [|c s]; [reflexivity|].
    cbn [length] in Hle. cbn [drop_run].
    destruct (p c) eqn:E.
    + cbn [length].
      replace (length s <? S (length s)) with true by (symmetry; apply Nat.ltb_lt; lia).
      rewrite IH by lia. reflexivity.
    + reflexivity.
Qed.

Lemma match_here_run (p : N -> bool) (c : N) (s : jsstring) :
  match_here (plus (Unit p)) (c :: s)
  = if p c
    then Some (mkMatch (take (length (c :: s) - length (drop_run p s)) (c :: s)) []
                       (drop_run p s))
    else None.
Proof.
  unfold match_here, plus. cbn [matcher]. destruct (p c); [|reflexivity].
  apply (matcher_many_unit p
           (fun s' caps => mkMatch (take (length (c :: s) - length s') (c :: s)) caps s')).
Qed.

Lemma squeeze_run (p : N -> bool) (rep : jsstring) (s : jsstring) :
  squeeze p rep true s = squeeze p rep false (drop_run p s).
Proof.
  induction s as [|c s IH]; [reflexivity|].
  cbn [squeeze drop_run]. destruct (p c) eqn:E.
  - cbn [app]. exact IH.
  - cbn [squeeze]. rewrite E. reflexivity.
Qed.

(** Replacing every run of units of a class. *)
Lemma replace_all_runs (p : N -> bool) (rep : jsstring) (s : jsstring) :
  replace_all s (plus (Unit p)) rep = squeeze p rep false s.
Proof.
  unfold replace_all.
  assert (H : forall f s, length s < f ->
                replace_from f (plus (Unit p)) rep s = squeeze p rep false s).
  { clear s. induction f as [|f IHf]; intros s Hf; [lia|].
    induction s as [|c s IHs].
    - apply replace_from_end. reflexivity.
    - cbn [length] in Hf. cbn [squeeze]. destruct (p c) eqn:E.
      + pose proof (drop_run_length p s) as Hd.
        erewrite replace_from_hit; [|rewrite match_here_run, E; reflexivity|].
        * cbn [after]. rewrite IHf by lia. rewrite squeeze_run. reflexivity.
        * cbn [whole length].
          replace (S (length s) - length (drop_run p s))
            with (S (length s - length (drop_run p s))) by lia.
          discriminate.
      + rewrite replace_from_skip by (rewrite match_here_run, E; reflexivity).
        rewrite IHs by lia. reflexivity. }
  apply H. lia.
Qed.

Lemma squeeze_members (p : N -> bool) (rep : jsstring) (s : jsstring) : forall in_run x,
  In x (squeeze p rep in_run s) -> In x rep \/ (In x s /\ p x = false).
Proof.
  induction s as [|c s IH]; intros in_run x Hx; [contradiction|].
  cbn [squeeze] in Hx. destruct (p c) eqn:E.
  - apply in_app_iff in Hx. destruct Hx as [Hx|Hx].
    + destruct in_run; [contradiction | left; exact Hx].
    + destruct (IH _ _ Hx) as [H|[H1 H2]]; [left; exact H | right; split; [right|]; assumption].
  - destruct Hx as [<-|Hx]; [right; split; [left; reflexivity | exact E]|].
    destruct (IH _ _ Hx) as [H|[H1 H2]]; [left; exact H | right; split; [right|]; assumption].
Qed.

Lemma squeeze_writes (p : N -> bool) (rep : jsstring) (s : jsstring) (x : N) :
  In x rep -> Exists (fun c => p c = true) s -> In x (squeeze p rep false s).
Proof.
  intros Hx. induction 1 as [c s Hc|c s _ IH]; cbn [squeeze].
  - rewrite Hc. apply in_app_iff. left. exact Hx.
  - destruct (p c) eqn:E; [apply in_app_iff; left; exact Hx | right; exact IH].
Qed.

Lemma squeeze_no_adjacent (p : N -> bool) (r : N) (s : jsstring) :
  (forall in_run, no_adjacent p (squeeze p [r] in_run s)) /\
  (forall d rest, squeeze p [r] true s = d :: rest -> p d = false).
Proof.
  induction s as [|c s [IH1 IH2]]; [split; [intros; exact I | discriminate]|].
  split.
  - intros in_run. cbn [squeeze]. destruct (p c) eqn:E.
    + destruct in_run; cbn [app]; [apply IH1|].
      cbn [no_adjacent]. destruct (squeeze p [r] true s) as [|d rest] eqn:Es; [exact I|].
      split; [|rewrite <- Es; apply IH1].
      rewrite (IH2 d rest eq_refl). apply andb_false_r.
    + cbn [no_adjacent]. destruct (squeeze p [r] false s) as [|d rest] eqn:Es; [exact I|].
      split; [rewrite E; reflexivity | rewrite <- Es; apply IH1].
  - intros d rest. cbn [squeeze]. destruct (p c) eqn:E.
    + cbn [app]. apply IH2.
    + intros [= <- _]. exact E.
Qed.

(** ** Slugs and formatted queries *)

Lemma trimStart_no_space (s : jsstring) :
  Forall (fun c => is_space c = false) s -> trimStart s = s.
Proof. intros H. destruct H as [|c s Hc _]; [reflexivity|]. cbn [trimStart]. rewrite Hc. reflexivity. Qed.

Lemma trim_no_space (s : jsstring) :
  Forall (fun c => is_space c = false) s -> trim s = s.
Proof.
  intros H. unfold trim. rewrite (trimStart_no_space s H).
  rewrite trimStart_no_space; [apply rev_involutive|].
  apply List.Forall_forall. intros c Hc. apply in_rev in Hc.
  rewrite List.Forall_forall in H. apply H, Hc.
Qed.

Lemma is_word_range (c : N) : MangaKakalotSearch.is_word c = true -> (48 <= c <= 122)%N.
Proof.
  unfold MangaKakalotSearch.is_word, is_digit, is_lower. intros H.
  apply orb_true_iff in H. destruct H as [H|H]; [|apply N.eqb_eq in H; lia].
  apply orb_true_iff in H. destruct H as [H|H];
    [|apply andb_true_iff in H; destruct H as [H1 H2];
      apply N.leb_le in H1, H2; lia].
  apply orb_true_iff in H. destruct H as [H|H];
    apply andb_true_iff in H; destruct H as [H1 H2]; apply N.leb_le in H1, H2; lia.
Qed.

Lemma is_word_not_space (c : N) : MangaKakalotSearch.is_word c = true -> is_space c = false.
Proof.
  intros H. apply is_word_range in H. unfold is_space.
  replace (c <=? 13)%N with false by (symmetry; apply N.leb_gt; lia).
  replace (c =? 32)%N with false by (symmetry; apply N.eqb_neq; lia).
  replace (c =? 160)%N with false by (symmetry; apply N.eqb_neq; lia).
  replace (c =? 5760)%N with false by (symmetry; apply N.eqb_neq; lia).
  replace (8192 <=? c)%N with false by (symmetry; apply N.leb_gt; lia).
  replace (c =? 8232)%N with false by (symmetry; apply N.eqb_neq; lia).
  replace (c =? 8233)%N with false by (symmetry; apply N.eqb_neq; lia).
  replace (c =? 8239)%N with false by (symmetry; apply N.eqb_neq; lia).
  replace (c =? 8287)%N with false by (symmetry; apply N.eqb_neq; lia).
  replace (c =? 12288)%N with false by (symmetry; apply N.eqb_neq; lia).
  replace (c =? 65279)%N with false by (symmetry; apply N.eqb_neq; lia).
  rewrite andb_false_r. reflexivity.
Qed.

(** X23: a slug made by [makeUrlFriendly] holds only letters, digits and
    underscores, and never two underscores in a row; the slug of the empty
    title is empty. *)
Theorem makeUrlFriendly_slug (toLowerCase : jsstring -> jsstring) (title : jsstring) :
  let slug := MangaKakalotSearch.makeUrlFriendly toLowerCase title in
  Forall (fun c => MangaKakalotSearch.is_word c = true) slug /\
  no_adjacent (fun c => (c =? 95)%N) slug /\
  (title = [] -> slug = []).
Proof.
  intros slug. unfold slug, MangaKakalotSearch.makeUrlFriendly.
  destruct title as [|c0 title']; [repeat split; constructor|].
  cbn [length Nat.eqb]. cbv zeta.
  set (x := replace_all _ (plus (chr "-")) _).
  unfold MangaKakalotSearch.not_word. rewrite replace_all_unit.
  set (y := flat_map _ x).
  assert (Hy : Forall (fun c => MangaKakalotSearch.is_word c = true) y).
  { apply List.Forall_forall. intros c Hc. unfold y in Hc.
    apply in_flat_map in Hc. destruct Hc as (d & _ & Hd).
    destruct (MangaKakalotSearch.is_word d) eqn:E.
    - cbn [orb negb] in Hd. destruct Hd as [<-|[]]. exact E.
    - assert (E' : (d =? 95)%N = false).
      { unfold MangaKakalotSearch.is_word in E. apply orb_false_iff in E. apply E. }
      rewrite E' in Hd. cbn [orb negb] in Hd. contradiction. }
  unfold chr. rewrite replace_all_runs. change (js "_") with [95%N].
  change (N_of_ascii "_") with 95%N.
  set (z := squeeze _ _ false y).
  assert (Hz : Forall (fun c => MangaKakalotSearch.is_word c = true) z).
  { apply List.Forall_forall. intros c Hc. apply squeeze_members in Hc.
    destruct Hc as [[<-|[]]|[Hc _]]; [reflexivity|].
    rewrite List.Forall_forall in Hy. apply Hy, Hc. }
  rewrite trim_no_space.
  - split; [exact Hz|]. split; [|discriminate].
    apply (squeeze_no_adjacent (fun c => (c =? 95)%N) 95 y).
  - eapply List.Forall_impl; [|exact Hz]. intros c. apply is_word_not_space.
Qed.

(** ** The search of MangaKakalot *)

Lemma attempt_spec {World Item : Type}
    (load : jsstring -> World -> completion (MangaKakalotSearch.ResultPage Item) * World)
    (page : N) (searchQuery : jsstring) (w : World) :
  match MangaKakalotSearch.attempt World Item load page searchQuery w with
  | (Some (results, pagination), w') =>
      exists doc,
        searchQuery <> [] /\
        load (MangaKakalotSearch.searchUrl searchQuery page) w = (Return doc, w') /\
        results = MangaKakalotSearch.items doc /\ results <> [] /\
        pagination = MangaKakalotSearch.pagination_of page doc
  | (None, w') =>
      (searchQuery = [] /\ w' = w) \/
      (searchQuery <> [] /\
       exists outcome,
         load (MangaKakalotSearch.searchUrl searchQuery page) w = (outcome, w') /\
         match outcome with
         | Return doc => MangaKakalotSearch.items doc = []
         | Throw _ => True
         end)
  end.
Proof.
  unfold MangaKakalotSearch.attempt.
  destruct searchQuery as [|c q]; [left; split; reflexivity|].
  cbn [length Nat.eqb].
  destruct (load _ w) as [[doc|e] w'] eqn:E.
  - destruct (MangaKakalotSearch.items doc) as [|i l] eqn:Ei.
    + right. split; [discriminate|]. exists (Return doc). split; [reflexivity | exact Ei].
    + cbn [length Nat.ltb Nat.leb]. exists doc.
      split; [discriminate|]. split; [reflexivity|]. split; [symmetry; exact Ei|].
      split; [discriminate | reflexivity].
  - right. split; [discriminate|]. exists (Throw e). split; [reflexivity | exact I].
Qed.

(** X24: once the query is encoded, [search] of MangaKakalot never fails:
    a page that cannot be fetched counts as a page without results.  The
    encoded query is tried first and the slug only after it gave nothing;
    the results are those of the first page that has any, and when neither
    has, the result list is empty with zero pages and zero stories. *)
Theorem kakalot_search_never_fails
    (toLowerCase : jsstring -> jsstring)
    (encodeURIComponent : jsstring -> completion jsstring)
    (World Item : Type)
    (load : jsstring -> World -> completion (MangaKakalotSearch.ResultPage Item) * World)
    (query : jsstring) (page : N) (w : World) (encoded : jsstring) :
  encodeURIComponent query = Return encoded ->
  let slug := MangaKakalotSearch.makeUrlFriendly toLowerCase query in
  exists results pagination w',
    MangaKakalotSearch.search toLowerCase encodeURIComponent World Item load query page w
    = (Return (results, pagination), w') /\
    match results with
    | [] => pagination = MangaKakalotSearch.no_pagination page
    | _ :: _ =>
        (exists doc,
           encoded <> [] /\
           load (MangaKakalotSearch.searchUrl encoded page) w = (Return doc, w') /\
           results = MangaKakalotSearch.items doc /\
           pagination = MangaKakalotSearch.pagination_of page doc) \/
        (exists w1 doc,
           fst (MangaKakalotSearch.attempt World Item load page encoded w) = None /\
           snd (MangaKakalotSearch.attempt World Item load page encoded w) = w1 /\
           slug <> [] /\
           load (MangaKakalotSearch.searchUrl slug page) w1 = (Return doc, w') /\
           results = MangaKakalotSearch.items doc /\
           pagination = MangaKakalotSearch.pagination_of page doc)
    end.
Proof.
  intros Henc slug. unfold MangaKakalotSearch.search. rewrite Henc. fold slug.
  pose proof (attempt_spec load page encoded w) as H1.
  destruct (MangaKakalotSearch.attempt World Item load page encoded w)
    as [[[results pagination]|] w1].
  - destruct H1 as (doc & Hq & Hl & Hr & Hne & Hp).
    exists results, pagination, w1. split; [reflexivity|].
    destruct results as [|i l]; [congruence|].
    left. exists doc. auto.
  - pose proof (attempt_spec load page slug w1) as H2.
    destruct (MangaKakalotSearch.attempt World Item load page slug w1)
      as [[[results pagination]|] w2].
    + destruct H2 as (doc & Hq & Hl & Hr & Hne & Hp).
      exists results, pagination, w2. split; [reflexivity|].
      destruct results as [|i l]; [congruence|].
      right. exists w1, doc. cbn [fst snd]. auto 10.
    + exists [], (MangaKakalotSearch.no_pagination page), w2. split; reflexivity.
Qed.

Lemma kakalot_search_never_fails_witness :
  exists results pagination w',
    MangaKakalotSearch.search toLowerCase_latin (fun q => Return q) unit unit
      (fun url w => (Throw (Error (js "getaddrinfo ENOTFOUND")), w))
      (js "One Piece") 1 tt
    = (Return (results, pagination), w') /\ results = [] /\
    pagination = MangaKakalotSearch.no_pagination 1.
Proof.
  destruct (kakalot_search_never_fails toLowerCase_latin (fun q => Return q) unit unit
              (fun url w => (Throw (Error (js "getaddrinfo ENOTFOUND")), w))
              (js "One Piece") 1 tt (js "One Piece") eq_refl)
    as (results & pagination & w' & Hrun & Hres).
  exists results, pagination, w'. split; [exact Hrun|].
  destruct results as [|i l]; [split; [reflexivity | exact Hres]|].
  exfalso. destruct Hres as [(doc & _ & Hl & _) | (w1 & doc & _ & _ & _ & Hl & _)];
    discriminate.
Defined.

(** ** The plus-sign queries of the later [searchMangaBuddy] *)

Lemma includes_unit (c : N) (s : jsstring) : In c s -> includes s [c] = true.
Proof.
  induction s as [|d s IH]; [contradiction|].
  intros [->|H]; cbn [includes startsWith].
  - rewrite N.eqb_refl. destruct s; reflexivity.
  - rewrite (IH H). apply orb_true_r.
Qed.

Lemma with_plus_signs_no_space (text : jsstring) :
  Forall (fun c => is_space c = false) (MangaBuddySearch.with_plus_signs text).
Proof.
  unfold MangaBuddySearch.with_plus_signs, space. rewrite replace_all_runs.
  apply List.Forall_forall. intros c Hc. apply squeeze_members in Hc.
  destruct Hc as [[<-|[]]|[_ Hc]]; [reflexivity | exact Hc].
Qed.

Lemma with_plus_signs_has_plus (text : jsstring) :
  Exists (fun c => is_space c = true) text ->
  includes (MangaBuddySearch.with_plus_signs text) (js "+") = true.
Proof.
  intros H. unfold MangaBuddySearch.with_plus_signs, space. rewrite replace_all_runs.
  change (js "+") with [43%N]. apply includes_unit, squeeze_writes; [left; reflexivity | exact H].
Qed.

(** X25: a title of several words reaches MangaBuddy without
    percent-encoding: the later [searchMangaBuddy] turns every run of white
    space into a plus sign, and [search] leaves a query with a plus sign as
    it is, so [encodeURIComponent] is never applied to it. *)
Theorem mangabuddy_words_not_encoded
    (encodeURIComponent : jsstring -> completion jsstring) (t : jsstring) :
  Exists (fun c => is_space c = true) t ->
  MangaBuddySearch.searchUrl encodeURIComponent (MangaBuddySearch.with_plus_signs t)
  = Return (MangaBuddy.baseUrl ++ js "/search?q=" ++ MangaBuddySearch.with_plus_signs t).
Proof.
  intros H. unfold MangaBuddySearch.searchUrl.
  rewrite (with_plus_signs_has_plus t H). reflexivity.
Qed.

Lemma mangabuddy_words_not_encoded_witness :
  MangaBuddySearch.searchUrl (fun q => Throw (Error (js "never called")))
    (MangaBuddySearch.with_plus_signs (js "Tom & Jerry"))
  = Return (js "https://mangabuddy.com/search?q=Tom+&+Jerry").
Proof.
  rewrite (mangabuddy_words_not_encoded (fun q => Throw (Error (js "never called")))
             (js "Tom & Jerry")).
  - vm_compute. reflexivity.
  - right. right. right. left. reflexivity.
Defined.

Section FormattedChain.
Variable toLowerCase : jsstring -> jsstring.
Variable World : Type.
Variable search : jsstring -> World -> completion Mapper.search_reply * World.

Lemma try_formatted_log t synonyms : forall rest w log out w' log',
  MangaBuddySearch.try_formatted toLowerCase World search t synonyms rest (w, log)
  = (out, (w', log')) ->
  exists tried, log' = log ++ tried /\ map fst tried = take (length tried) rest.
Proof.
  induction rest as [|q rest IH]; intros w log out w' log' Hrun.
  - injection Hrun as <- <- <-. exists []. rewrite app_nil_r. split; reflexivity.
  - cbn [MangaBuddySearch.try_formatted] in Hrun.
    unfold Mapper.bind at 1 in Hrun. unfold Mapper.call at 1 in Hrun. cbn [fst snd] in Hrun.
    destruct (search q w) as [[r|e] w1].
    + destruct (Mapper.has_results r).
      * unfold Mapper.bind, Mapper.lift, Mapper.ret in Hrun.
        destruct (Mapper.findBestMatch_revised _ _ _ _);
          injection Hrun as <- <- <-; exists [(q, Return r)]; split; reflexivity.
      * apply IH in Hrun. destruct Hrun as (tried & -> & Hq).
        exists ((q, Return r) :: tried). rewrite <- app_assoc.
        split; [reflexivity|]. cbn [map fst length take]. rewrite Hq. reflexivity.
    + injection Hrun as <- <- <-. exists [(q, Throw e)]. split; reflexivity.
Qed.

Lemma searchMangaBuddy_log t synonyms w out w' log' :
  MangaBuddySearch.searchMangaBuddy toLowerCase World search t synonyms (w, [])
  = (out, (w', log')) ->
  log' <> [] /\
  map fst log' = take (length log') (map MangaBuddySearch.with_plus_signs (t :: synonyms)).
Proof.
  unfold MangaBuddySearch.searchMangaBuddy, Mapper.try_catch.
  unfold Mapper.bind at 1. unfold Mapper.call at 1. cbn [fst snd app].
  destruct (search (MangaBuddySearch.with_plus_signs t) w) as [[r|e] w1].
  - destruct (Mapper.no_results r).
    + destruct (0 <? length (map MangaBuddySearch.with_plus_signs synonyms)) eqn:G.
      * unfold Mapper.bind.
        destruct (MangaBuddySearch.try_formatted toLowerCase World search t synonyms
                    (map MangaBuddySearch.with_plus_signs synonyms)
                    (w1, [(MangaBuddySearch.with_plus_signs t, Return r)]))
          as [out1 [w1' log1]] eqn:Hrun.
        apply try_formatted_log in Hrun. destruct Hrun as (tried & -> & Hq).
        intros Hout.
        assert (Hlog : log' = [(MangaBuddySearch.with_plus_signs t, Return r)] ++ tried).
        { destruct out1 as [[c|]|e]; unfold Mapper.ret, Mapper.throw in Hout;
            injection Hout as _ _ <-; reflexivity. }
        rewrite Hlog. split; [discriminate|].
        cbn [app map fst length take]. rewrite Hq. reflexivity.
      * unfold Mapper.bind, Mapper.ret, Mapper.throw. intros [= _ _ <-].
        split; [discriminate | reflexivity].
    + unfold Mapper.lift. destruct (Mapper.findBestMatch_revised _ _ _ _);
        unfold Mapper.throw; intros [= _ _ <-]; (split; [discriminate | reflexivity]).
  - unfold Mapper.throw. intros [= _ _ <-]. split; [discriminate | reflexivity].
Qed.

End FormattedChain.

(** X26: the later [searchMangaBuddy] queries the provider with the title
    and then the synonyms, in order, each with its runs of white space
    turned into plus signs: no query holds a white-space character, while
    the selector still compares against the texts as they were given. *)
Theorem searchMangaBuddy_queries_formatted
    (toLowerCase : jsstring -> jsstring) (World : Type)
    (search : jsstring -> World -> completion Mapper.search_reply * World)
    (t : jsstring) (synonyms : list jsstring) (w : World) :
  let run := MangaBuddySearch.searchMangaBuddy toLowerCase World search t synonyms (w, []) in
  let queries := map fst (snd (snd run)) in
  queries <> [] /\
  queries = take (length queries) (map MangaBuddySearch.with_plus_signs (t :: synonyms)) /\
  Forall (fun q => Forall (fun c => is_space c = false) q) queries.
Proof.
  intros run queries. unfold queries.
  destruct run as [out [w' log']] eqn:E. cbn [fst snd].
  destruct (searchMangaBuddy_log toLowerCase World search t synonyms w out w' log' E)
    as [Hne Hq].
  split; [destruct log'; [congruence | discriminate]|].
  split; [rewrite length_map; exact Hq|].
  rewrite Hq. apply Forall_take.
  apply List.Forall_forall. intros q Hin. apply in_map_iff in Hin.
  destruct Hin as (s & <- & _). apply with_plus_signs_no_space.
Qed.

(** ** The synonyms of the MangaKakalot mapping, and a mapping that
    succeeds *)

(** X27: for MangaKakalot the synonyms handed to the search chain are
    pairwise distinct and none of them is empty: they are the non-empty
    Anilist synonyms together with the non-empty titles. *)
Theorem synonyms_of_kakalot_spec (animeInfo : Anilist.AnimeInfo) :
  NoDup (Mapping.synonyms_of_kakalot animeInfo) /\
  Forall (fun s => s <> []) (Mapping.synonyms_of_kakalot animeInfo) /\
  (forall s, In s (Mapping.synonyms_of_kakalot animeInfo)
             <-> s <> [] /\
                 (In s (Anilist.synonyms animeInfo)
                  \/ In (Some s) [Anilist.romaji (Anilist.title animeInfo);
                                  Anilist.english (Anilist.title animeInfo);
                                  Anilist.native (Anilist.title animeInfo)])).
Proof.
  assert (Hin : forall s, In s (Mapping.synonyms_of_kakalot animeInfo)
             <-> s <> [] /\
                 (In s (Anilist.synonyms animeInfo)
                  \/ In (Some s) [Anilist.romaji (Anilist.title animeInfo);
                                  Anilist.english (Anilist.title animeInfo);
                                  Anilist.native (Anilist.title animeInfo)])).
  { intros s. unfold Mapping.synonyms_of_kakalot, Mapping.altTitles_of.
    rewrite Set_values_In, in_app_iff, filter_Boolean_In, List.filter_In.
    unfold not_blank. destruct s as [|c s]; cbn [length Nat.eqb negb].
    - split; [intros [[_ H]|[_ H]]; [discriminate | congruence] | intros [H _]; congruence].
    - split; [intros [[H _]|[H _]]; (split; [discriminate | auto])
             | intros [_ [H|H]]; [left; auto | right; split; [exact H | discriminate]]]. }
  split; [apply Set_values_NoDup|]. split; [|exact Hin].
  apply List.Forall_forall. intros s Hs. apply Hin in Hs. apply Hs.
Qed.

Lemma getChaptersFrom_succeeds {World Details C : Type}
    (getInfo : jsstring -> World -> completion Anilist.AnimeInfo * World)
    (details_chapters : Details -> option (list C))
    (getMangaInfo : jsstring -> World -> completion Details * World)
    (search_null_title : list jsstring -> Mapper.M World ListingCandidate)
    (provider : string) synonyms_for searchProvider anilistId w animeInfo w1 t
    bestMatch w2 log details w3 :
  getInfo anilistId w = (Return animeInfo, w1) ->
  Mapping.searchTitle animeInfo = Some t ->
  searchProvider t (synonyms_for animeInfo) (w1, []) = (Return bestMatch, (w2, log)) ->
  getMangaInfo (id bestMatch) w2 = (Return details, w3) ->
  Mapping.getChaptersFrom World getInfo Details C details_chapters getMangaInfo
    search_null_title provider synonyms_for searchProvider anilistId (w, [])
  = (Return {| Mapping.anilist_id := anilistId;
               Mapping.anilist_title :=
                 js_or (Anilist.english (Anilist.title animeInfo))
                       (Anilist.romaji (Anilist.title animeInfo));
               Mapping.provider_id := id bestMatch;
               Mapping.provider_title := title bestMatch;
               Mapping.chapters := default [] (details_chapters details) |},
     (w3, log)).
Proof.
  intros Hg Ht Hs Hd. unfold Mapping.getChaptersFrom, Mapper.try_catch.
  unfold Mapper.bind at 1. unfold external at 1. cbn [fst snd]. rewrite Hg. cbn [fst snd].
  rewrite Ht. unfold Mapper.bind at 1.
  match goal with
  | |- context [searchProvider t (synonyms_for animeInfo) ?s] =>
      assert (Hs' : searchProvider t (synonyms_for animeInfo) s = (Return bestMatch, (w2, log)))
        by exact Hs;
      rewrite Hs'
  end.
  unfold Mapper.bind at 1. unfold Mapping.getProviderInfo, Mapper.try_catch, external.
  cbn [fst snd]. rewrite Hd. cbn [fst snd]. unfold Mapper.ret.
  destruct (details_chapters details); reflexivity.
Qed.

Lemma getChaptersFrom_details_fail {World Details C : Type}
    (getInfo : jsstring -> World -> completion Anilist.AnimeInfo * World)
    (details_chapters : Details -> option (list C))
    (getMangaInfo : jsstring -> World -> completion Details * World)
    (search_null_title : list jsstring -> Mapper.M World ListingCandidate)
    (provider : string) synonyms_for searchProvider anilistId w animeInfo w1 t
    bestMatch w2 log error w3 :
  getInfo anilistId w = (Return animeInfo, w1) ->
  Mapping.searchTitle animeInfo = Some t ->
  searchProvider t (synonyms_for animeInfo) (w1, []) = (Return bestMatch, (w2, log)) ->
  getMangaInfo (id bestMatch) w2 = (Throw error, w3) ->
  Mapping.getChaptersFrom World getInfo Details C details_chapters getMangaInfo
    search_null_title provider synonyms_for searchProvider anilistId (w, [])
  = (Throw (Error (js provider ++ js " mapping error: "
                     ++ (js "Failed to get manga info from " ++ js provider ++ js ": "
                           ++ error_message error))),
     (w3, log)).
Proof.
  intros Hg Ht Hs Hd. unfold Mapping.getChaptersFrom, Mapper.try_catch.
  unfold Mapper.bind at 1. unfold external at 1. cbn [fst snd]. rewrite Hg. cbn [fst snd].
  rewrite Ht. unfold Mapper.bind at 1.
  match goal with
  | |- context [searchProvider t (synonyms_for animeInfo) ?s] =>
      assert (Hs' : searchProvider t (synonyms_for animeInfo) s = (Return bestMatch, (w2, log)))
        by exact Hs;
      rewrite Hs'
  end.
  unfold Mapper.bind at 1. unfold Mapping.getProviderInfo, Mapper.try_catch, external.
  cbn [fst snd]. rewrite Hd. cbn [fst snd]. reflexivity.
Qed.

Lemma searchAsuraScans_first_search (toLowerCase : jsstring -> jsstring) (World : Type)
    (search : jsstring -> World -> completion Mapper.search_reply * World)
    (t : jsstring) (synonyms : list jsstring) (w1 w2 : World) (r : Mapper.search_reply)
    (bestMatch : ListingCandidate) :
  search t w1 = (Return r, w2) -> Mapper.has_results r = true ->
  Mapper.findBestMatch toLowerCase (Mapper.found r) t synonyms = Return bestMatch ->
  Mapper.searchAsuraScans toLowerCase World search t synonyms (w1, [])
  = (Return bestMatch, (w2, [(t, Return r)])).
Proof.
  intros Hs Hr Hb.
  unfold Mapper.searchAsuraScans, Mapper.search_with_synonyms, Mapper.try_catch.
  unfold Mapper.bind at 1. unfold Mapper.call at 1. cbn [fst snd app]. rewrite Hs.
  rewrite has_results_no_results in Hr. apply negb_true_iff in Hr. rewrite Hr.
  unfold Mapper.lift. rewrite Hb. reflexivity.
Qed.

(** X28: when Anilist knows the id and the first search of AsuraScans
    finds candidates, the selector picks one and the provider asks the
    client for its details.  If the details carry a chapter list, the
    route answers with the mapping of the picked candidate: its id, its
    title and that chapter list.  If they carry none, the log line of the
    provider throws, and the route answers with an error whose message
    names the failure twice, never with an empty chapter list.  Either way
    one search has been made, for the search title, and the details were
    requested for the picked candidate after it. *)
Theorem asurascans_route_maps
    (toLowerCase : jsstring -> jsstring) (World : Type)
    (getInfo : jsstring -> World -> completion Anilist.AnimeInfo * World)
    (search : jsstring -> World -> completion Mapper.search_reply * World)
    (Details C : Type) (details_chapters : Details -> option (list C))
    (fetchMangaInfo : jsstring -> World -> completion Details * World)
    (cannot_read_length : jsstring)
    (search_null_title : list jsstring -> Mapper.M World ListingCandidate)
    (anilistId : jsstring) (w : World) (animeInfo : Anilist.AnimeInfo) (w1 : World)
    (t : jsstring) (r : Mapper.search_reply) (w2 : World) (bestMatch : ListingCandidate)
    (details : Details) (w3 : World) :
  not_blank anilistId = true -> Routes.parseInt_isNaN anilistId = false ->
  getInfo anilistId w = (Return animeInfo, w1) ->
  Mapping.searchTitle animeInfo = Some t ->
  search t w1 = (Return r, w2) -> Mapper.has_results r = true ->
  Mapper.findBestMatch toLowerCase (Mapper.found r) t (Mapping.synonyms_of animeInfo)
  = Return bestMatch ->
  fetchMangaInfo (id bestMatch) w2 = (Return details, w3) ->
  let answer :=
    Routes.asurascans_chapters World _
      (Mapping.getChaptersByAnilistIdFromAsura toLowerCase World getInfo search
         Details C details_chapters
         (AsuraScansProvider.getMangaInfo World Details C details_chapters fetchMangaInfo
            cannot_read_length)
         search_null_title) anilistId (w, []) in
  match details_chapters details with
  | Some listed =>
      answer
      = (Routes.Json
           {| Mapping.anilist_id := anilistId;
              Mapping.anilist_title :=
                js_or (Anilist.english (Anilist.title animeInfo))
                      (Anilist.romaji (Anilist.title animeInfo));
              Mapping.provider_id := id bestMatch;
              Mapping.provider_title := title bestMatch;
              Mapping.chapters := listed |},
         (w3, [(t, Return r)]))
  | None =>
      answer
      = (Routes.on_error "AsuraScans" anilistId
           (Error (js "AsuraScans mapping error: "
                     ++ js "Failed to get manga info from AsuraScans: "
                     ++ js "Failed to get manga info from AsuraScans: "
                     ++ cannot_read_length)),
         (w3, [(t, Return r)])) /\
      Routes.status_of (fst answer) <> 200
  end.
Proof.
  intros Hid Hnum Hg Ht Hs Hr Hb Hd answer.
  pose proof (searchAsuraScans_first_search toLowerCase World search t
                (Mapping.synonyms_of animeInfo) w1 w2 r bestMatch Hs Hr Hb) as Hsearch.
  unfold answer, Routes.asurascans_chapters, Routes.chapters_route.
  rewrite Hid, Hnum. cbn [negb orb].
  unfold Mapping.getChaptersByAnilistIdFromAsura.
  destruct (details_chapters details) as [listed|] eqn:E.
  - erewrite getChaptersFrom_succeeds; [rewrite E; reflexivity|exact Hg|exact Ht|exact Hsearch|].
    unfold AsuraScansProvider.getMangaInfo. rewrite Hd, E. reflexivity.
  - erewrite getChaptersFrom_details_fail; [|exact Hg|exact Ht|exact Hsearch|].
    2:{ unfold AsuraScansProvider.getMangaInfo. rewrite Hd, E. reflexivity. }
    split; [reflexivity|].
    cbn [fst]. unfold Routes.on_error. cbv zeta.
    repeat match goal with
           | |- context [if ?c then _ else _] => destruct c
           end; cbn [Routes.status_of]; lia.
Qed.

(** The example world: Anilist knows Solo Leveling, the search lists the
    sequel before the work itself, and the selector picks the work.  With
    a client that returns chapter lists the route answers with the two
    chapters of the work, after three requests; with a client whose
    details lack the chapter list it answers 500. *)
Lemma asurascans_route_maps_witness :
  Routes.asurascans_chapters (list jsstring) _
    (Mapping.getChaptersByAnilistIdFromAsura toLowerCase_latin (list jsstring)
       (Anilist.getInfo fetch_solo_logged) search_two_listings
       (option (list jsstring)) jsstring (fun details => details)
       (AsuraScansProvider.getMangaInfo (list jsstring) (option (list jsstring)) jsstring
          (fun details => details) fetch_chapter_ids v8_cannot_read_length)
       null_title_unreached)
    (js "105398") ([], [])
  = (Routes.Json
       {| Mapping.anilist_id := js "105398";
          Mapping.anilist_title := Some (js "Solo Leveling");
          Mapping.provider_id := js "solo-leveling";
          Mapping.provider_title := js "Solo Leveling";
          Mapping.chapters := [js "solo-leveling/chapter/2"; js "solo-leveling/chapter/1"] |},
     ([js "anilist 105398"; js "search Solo Leveling"; js "info solo-leveling"],
      [(js "Solo Leveling", Return (Mapper.Reply (Some two_listings)))])) /\
  Routes.status_of
    (fst (Routes.asurascans_chapters (list jsstring) _
            (Mapping.getChaptersByAnilistIdFromAsura toLowerCase_latin (list jsstring)
               (Anilist.getInfo fetch_solo_logged) search_two_listings
               (option (list jsstring)) jsstring (fun details => details)
               (AsuraScansProvider.getMangaInfo (list jsstring) (option (list jsstring))
                  jsstring (fun details => details) fetch_without_chapters
                  v8_cannot_read_length)
               null_title_unreached)
            (js "105398") ([], []))) = 500.
Proof.
  split.
  - refine (asurascans_route_maps toLowerCase_latin (list jsstring)
              (Anilist.getInfo fetch_solo_logged) search_two_listings
              (option (list jsstring)) jsstring (fun details => details)
              fetch_chapter_ids v8_cannot_read_length null_title_unreached
              (js "105398") []
              (Anilist.mkInfo (Anilist.mkTitle (Some (js "Na Honjaman Level Up"))
                                 (Some (js "Solo Leveling")) None)
                              [js "Only I Level Up"])
              [js "anilist 105398"] (js "Solo Leveling")
              (Mapper.Reply (Some two_listings))
              [js "anilist 105398"; js "search Solo Leveling"]
              (mkCandidate (js "solo-leveling") (js "Solo Leveling"))
              (Some [js "solo-leveling/chapter/2"; js "solo-leveling/chapter/1"])
              [js "anilist 105398"; js "search Solo Leveling"; js "info solo-leveling"]
              _ _ _ _ _ _ _ _); vm_compute; reflexivity.
  - assert (failing :
      let answer :=
        Routes.asurascans_chapters (list jsstring) _
          (Mapping.getChaptersByAnilistIdFromAsura toLowerCase_latin (list jsstring)
             (Anilist.getInfo fetch_solo_logged) search_two_listings
             (option (list jsstring)) jsstring (fun details => details)
             (AsuraScansProvider.getMangaInfo (list jsstring) (option (list jsstring))
                jsstring (fun details => details) fetch_without_chapters
                v8_cannot_read_length)
             null_title_unreached)
          (js "105398") ([], []) in
      answer
      = (Routes.on_error "AsuraScans" (js "105398")
           (Error (js "AsuraScans mapping error: "
                     ++ js "Failed to get manga info from AsuraScans: "
                     ++ js "Failed to get manga info from AsuraScans: "
                     ++ v8_cannot_read_length)),
         ([js "anilist 105398"; js "search Solo Leveling"; js "info solo-leveling"],
          [(js "Solo Leveling", Return (Mapper.Reply (Some two_listings)))])) /\
      Routes.status_of (fst answer) <> 200).
    { refine (asurascans_route_maps toLowerCase_latin (list jsstring)
                (Anilist.getInfo fetch_solo_logged) search_two_listings
                (option (list jsstring)) jsstring (fun details => details)
                fetch_without_chapters v8_cannot_read_length null_title_unreached
                (js "105398") []
                (Anilist.mkInfo (Anilist.mkTitle (Some (js "Na Honjaman Level Up"))
                                   (Some (js "Solo Leveling")) None)
                                [js "Only I Level Up"])
                [js "anilist 105398"] (js "Solo Leveling")
                (Mapper.Reply (Some two_listings))
                [js "anilist 105398"; js "search Solo Leveling"]
                (mkCandidate (js "solo-leveling") (js "Solo Leveling"))
                None
                [js "anilist 105398"; js "search Solo Leveling"; js "info solo-leveling"]
                _ _ _ _ _ _ _ _); vm_compute; reflexivity. }
    cbv zeta in failing. destruct failing as [answer _].
    rewrite answer. vm_compute. reflexivity.
Defined.
